(** * go-quantize: median-cut palette quantizer

    A shallow embedding of the quantizer (bucket pool, colour aggregation,
    median-cut bucket splitting, palette synthesis) together with the
    properties stated about it.

    Conventions.
    - Go integers are [Z]; every operation that can leave the range of its
      Go type has its wrap-around written out ([wrap_int], [wrap_u8], ...).
    - A Go slice of [colorPriority] is a window [(off, len)] into a backing
      array.  The backing array is the [store], threaded through every
      function that writes to it.
    - Run-time panics and loops are explicit: functions return a [result],
      loops take fuel and answer [Timeout] when it runs out. *)

From stdpp Require Import base numbers option list list_numbers.

Local Open Scope Z_scope.

(** ** Machine integers *)

(** Go's [int] on a 64-bit platform. *)
Definition wrap_int (z : Z) : Z := (z + 2 ^ 63) `mod` 2 ^ 64 - 2 ^ 63.
Definition wrap_u8 (z : Z) : Z := z `mod` 2 ^ 8.
Definition wrap_u32 (z : Z) : Z := z `mod` 2 ^ 32.
Definition wrap_u64 (z : Z) : Z := z `mod` 2 ^ 64.

Definition is_u8 (z : Z) : Prop := 0 ≤ z < 2 ^ 8.

(** ** Outcomes of a call *)

Inductive result (T : Type) : Type :=
  | Ok (a : T)
  | Panic
  | Timeout.
Arguments Ok {T} a.
Arguments Panic {T}.
Arguments Timeout {T}.

#[global] Instance result_ret : MRet result := λ T a, Ok a.
#[global] Instance result_bind : MBind result := λ T U f m,
  match m with
  | Ok a => f a
  | Panic => Panic
  | Timeout => Timeout
  end.

(** ** Colours *)

Module color.
(** [color.RGBA]: four 8-bit channels. *)
Record RGBA : Type := mkRGBA { R : Z; G : Z; B : Z; A : Z }.

#[global] Instance RGBA_eq_dec : EqDecision RGBA.
Proof. solve_decision. Defined.

(** [color.Color] is an interface with one method, [RGBA], returning four
    16-bit-scaled channels.  A palette entry is either a [color.RGBA]
    value or a value of some other implementation, known through the
    result of its method. *)
Inductive Color : Type :=
  | OfRGBA (c : RGBA)
  | OfMethod (r g b a : Z).

Definition scale16 (v : Z) : Z := Z.lor v (Z.shiftl v 8).

Definition Color_RGBA (c : Color) : Z * Z * Z * Z :=
  match c with
  | OfRGBA c => (scale16 (R c), scale16 (G c), scale16 (B c), scale16 (A c))
  | OfMethod r g b a => (r, g, b, a)
  end.

Definition wf (c : RGBA) : Prop :=
  is_u8 (R c) ∧ is_u8 (G c) ∧ is_u8 (B c) ∧ is_u8 (A c).
End color.

(** ** Images

    The quantizer reads an image through its bounds and through [colorAt],
    which has a fast path for two concrete image types. *)

Module image.
Record Point : Type := mkPoint { X : Z; Y : Z }.
Record Rectangle : Type := mkRectangle { Min : Point; Max : Point }.

(** The three cases [colorAt] tells apart: [*image.YCbCr] with its
    [Y], [Cb], [Cr] samples at a coordinate, [*image.RGBA] with its four
    [Pix] bytes at a coordinate, and any other image, read through [At]
    and converted by [color.RGBAModel]. *)
Inductive Image : Type :=
  | YCbCr (r : Rectangle) (samples : Z → Z → Z * Z * Z)
  | RGBA (r : Rectangle) (pix : Z → Z → color.RGBA)
  | Other (r : Rectangle) (converted : Z → Z → color.RGBA).

Definition Bounds (m : Image) : Rectangle :=
  match m with
  | YCbCr r _ => r
  | RGBA r _ => r
  | Other r _ => r
  end.

Definition is_YCbCr (m : Image) : bool :=
  match m with
  | YCbCr _ _ => true
  | _ => false
  end.
End image.

(** ** bucket.go *)

Inductive colorAxis : Type := red | green | blue.

#[global] Instance colorAxis_eq_dec : EqDecision colorAxis.
Proof. solve_decision. Defined.

(** [gt] returns whether [c] is greater than [other] on the given channel. *)
Definition gt (c : Z) (other : color.RGBA) (span : colorAxis) : bool :=
  match span with
  | red => bool_decide (c > color.R other)
  | green => bool_decide (c > color.G other)
  | blue => bool_decide (c > color.B other)
  end.

Record colorPriority : Type := mkColorPriority { p : Z; RGBA : color.RGBA }.

#[global] Instance colorPriority_eq_dec : EqDecision colorPriority.
Proof. solve_decision. Defined.

(** The zero value [colorPriority{}]. *)
Definition zeroColor : colorPriority := mkColorPriority 0 (color.mkRGBA 0 0 0 0).

(** The backing array shared by all the slices cut from it. *)
Abbreviation store := (list colorPriority).

(** [colorBucket] is [[]colorPriority]: a window into the backing array. *)
Record colorBucket : Type := mkBucket { off : nat; len : nat }.

#[global] Instance colorBucket_eq_dec : EqDecision colorBucket.
Proof. solve_decision. Defined.

(** The members a slice shows. *)
Definition contents (st : store) (cb : colorBucket) : list colorPriority :=
  take (len cb) (drop (off cb) st).

(** [cb[i]], with its bounds check against [len(cb)]. *)
Definition read (st : store) (cb : colorBucket) (i : Z) : result colorPriority :=
  if bool_decide (0 ≤ i < Z.of_nat (len cb)) then
    match st !! (off cb + Z.to_nat i)%nat with
    | Some c => Ok c
    | None => Panic
    end
  else Panic.

(** [cb[i] = c]; the bounds are those of the preceding read. *)
Definition write (st : store) (cb : colorBucket) (i : Z) (c : colorPriority) : store :=
  <[(off cb + Z.to_nat i)%nat := c]> st.

(** [cb[lo:hi]], within the length of [cb]. *)
Definition reslice (cb : colorBucket) (lo hi : Z) : result colorBucket :=
  if bool_decide (0 ≤ lo ≤ hi ∧ hi ≤ Z.of_nat (len cb)) then
    Ok (mkBucket (off cb + Z.to_nat lo) (Z.to_nat (hi - lo)))
  else Panic.

Module constraint.
Record t : Type := mk { min : Z; max : Z; vals : list Z }.

(** The zero value, a 256-entry histogram of zeros. *)
Definition zero : t := mk 0 0 (replicate 256 0).

Definition with_min (c : t) (m : Z) : t := mk m (max c) (vals c).

Definition update (c : t) (index : Z) (p : Z) : t :=
  mk (if bool_decide (index < min c) then index else min c)
     (if bool_decide (index > max c) then index else max c)
     (alter (λ v, wrap_u64 (v + p)) (Z.to_nat index) (vals c)).

Definition span (c : t) : Z := wrap_u8 (max c - min c).
End constraint.

(** The last loop of [span]: [for i, c = range toCount.vals], leaving in [i]
    the index at which it broke, or the last index. *)
Fixpoint median_scan (vals : list Z) (p counted : Z) (i : Z) : Z :=
  match vals with
  | [] => i
  | c :: rest =>
      if bool_decide (counted > p `quot` 2) || bool_decide (wrap_u64 (counted + c) = p)
      then i
      else match rest with
           | [] => i
           | _ => median_scan rest p (wrap_u64 (counted + c)) (i + 1)
           end
  end.

Definition span_step (acc : constraint.t * constraint.t * constraint.t * Z)
    (c : colorPriority) : constraint.t * constraint.t * constraint.t * Z :=
  let '(cR, cG, cB, total) := acc in
  (constraint.update cR (color.R (RGBA c)) (p c),
   constraint.update cG (color.G (RGBA c)) (p c),
   constraint.update cB (color.B (RGBA c)) (p c),
   wrap_u64 (total + p c)).

Definition span_init : constraint.t * constraint.t * constraint.t * Z :=
  (constraint.with_min constraint.zero 255,
   constraint.with_min constraint.zero 255,
   constraint.with_min constraint.zero 255, 0).

Definition span_choose (cR cG cB : constraint.t) : colorAxis * constraint.t :=
  if bool_decide (constraint.span cR > constraint.span cG)
     && bool_decide (constraint.span cR > constraint.span cB)
  then (red, cR)
  else if bool_decide (constraint.span cG > constraint.span cB)
  then (green, cG)
  else (blue, cB).

Definition span_of (members : list colorPriority) : Z * colorAxis :=
  let '(cR, cG, cB, total) := foldl span_step span_init members in
  let '(axis, toCount) := span_choose cR cG cB in
  (wrap_u8 (median_scan (constraint.vals toCount) total 0 0), axis).

Definition span (st : store) (cb : colorBucket) : Z * colorAxis :=
  span_of (contents st cb).

(** [for gt(mean, cb[left].RGBA, span) { left++ }] *)
Fixpoint scan_left (fuel : nat) (st : store) (cb : colorBucket)
    (mean : Z) (axis : colorAxis) (left : Z) : result Z :=
  match fuel with
  | O => Timeout
  | S fuel =>
      c ← read st cb left;
      if gt mean (RGBA c) axis
      then scan_left fuel st cb mean axis (left + 1)
      else Ok left
  end.

(** [for !gt(mean, cb[right].RGBA, span) { right-- }] *)
Fixpoint scan_right (fuel : nat) (st : store) (cb : colorBucket)
    (mean : Z) (axis : colorAxis) (right : Z) : result Z :=
  match fuel with
  | O => Timeout
  | S fuel =>
      c ← read st cb right;
      if gt mean (RGBA c) axis
      then Ok right
      else scan_right fuel st cb mean axis (right - 1)
  end.

(** [cb[left], cb[right] = cb[right], cb[left]] *)
Definition swap (st : store) (cb : colorBucket) (left right : Z) : result store :=
  a ← read st cb left;
  b ← read st cb right;
  Ok (write (write st cb left b) cb right a).

Fixpoint partition_loop (fuel : nat) (st : store) (cb : colorBucket)
    (mean : Z) (axis : colorAxis) (left right : Z) : result (store * Z) :=
  if bool_decide (left < right) then
    match fuel with
    | O => Timeout
    | S fuel =>
        left' ← scan_left fuel st cb mean axis left;
        right' ← scan_right fuel st cb mean axis right;
        st' ← swap st cb left' right';
        partition_loop fuel st' cb mean axis left' right'
    end
  else Ok (st, left).

Definition partition (fuel : nat) (st : store) (cb : colorBucket)
    : result (store * colorBucket * colorBucket) :=
  let '(mean, axis) := span st cb in
  '(st', left') ← partition_loop fuel st cb mean axis 0 (Z.of_nat (len cb) - 1);
  l ← reslice cb 0 left';
  r ← reslice cb left' (Z.of_nat (len cb));
  Ok (st', l, r).

(** [mean]: the weighted mean of a bucket, always opaque.  The division
    panics when the weights sum to zero. *)
Definition mean_step (acc : Z * Z * Z * Z) (c : colorPriority) : Z * Z * Z * Z :=
  let '(r, g, b, total) := acc in
  (wrap_u64 (r + wrap_u64 (color.R (RGBA c) * p c)),
   wrap_u64 (g + wrap_u64 (color.G (RGBA c) * p c)),
   wrap_u64 (b + wrap_u64 (color.B (RGBA c) * p c)),
   wrap_u64 (total + p c)).

Definition mean_of (members : list colorPriority) : result color.RGBA :=
  let '(r, g, b, total) := foldl mean_step (0, 0, 0, 0) members in
  if bool_decide (total = 0) then Panic
  else Ok (color.mkRGBA (wrap_u8 (r `quot` total)) (wrap_u8 (g `quot` total))
                        (wrap_u8 (b `quot` total)) 255).

Definition mean (st : store) (cb : colorBucket) : result color.RGBA :=
  mean_of (contents st cb).

(** ** mediancut.go *)

(** [AggregationType] is a [uint8]; only two of its values are named. *)
Definition AggregationType : Type := Z.
Definition Mode : AggregationType := 0.
Definition Mean : AggregationType := 1.

(** ** Allocation *)

(** [maxAlloc] of the runtime (runtime/malloc.go), the greatest size in bytes
    an allocation may have: [1 << 48] on the 64-bit targets, for which [int]
    has the 64 bits assumed throughout. *)
Definition maxAlloc : Z := 2 ^ 48.

(** The size in bytes of a [colorPriority] (a [uint32] and four [uint8]) and
    of a [colorBucket] (a slice header of three words). *)
Definition sizeof_colorPriority : Z := 8.
Definition sizeof_colorBucket : Z := 24.

(** Whether [makeslice] of the runtime returns for [make([]T, len, cap)] with
    elements of [size] bytes.  It panics (len out of range, cap out of range)
    when the length is negative or above the capacity, or the capacity takes
    more than [maxAlloc] bytes; a negative capacity is among these cases.  An
    allocation that [makeslice] lets through is taken to succeed: the memory
    of the machine is not part of the model. *)
Definition makeslice (size len cap : Z) : bool :=
  bool_decide (0 ≤ len ≤ cap) && bool_decide (size * cap ≤ maxAlloc).

(** ** Median cut and the palette *)

(** [bucket[:1]] and [bucket[1:]] of a two-member bucket, and the general
    cut of a bucket at [k]. *)
Definition cut (cb : colorBucket) (k : nat) : colorBucket * colorBucket :=
  (mkBucket (off cb) k, mkBucket (off cb + k) (len cb - k)).

(** The loop of [bucketize].  [buckets] is the queue, [n] is [len(colors)]. *)
Fixpoint bucketize_loop (fuel : nat) (st : store) (buckets : list colorBucket)
    (num : Z) (n : nat) : result (store * list colorBucket) :=
  if bool_decide (Z.of_nat (length buckets) < num)
     && bool_decide (length buckets < n)%nat then
    match fuel with
    | O => Timeout
    | S fuel =>
        match buckets with
        | [] => Panic
        | bucket :: buckets =>
            if bool_decide (len bucket < 2)%nat then
              bucketize_loop fuel st (buckets ++ [bucket]) num n
            else if bool_decide (len bucket = 2)%nat then
              bucketize_loop fuel st
                (buckets ++ [(cut bucket 1).1; (cut bucket 1).2]) num n
            else
              '(st', l, r) ← partition fuel st bucket;
              bucketize_loop fuel st' (buckets ++ [l; r]) num n
        end
    end
  else Ok (st, buckets).

(** [bucketize] performs median cut on a bucket to obtain the target number
    of grouped buckets.  [make([]colorBucket, 1, num*2)] panics when the
    capacity [num*2] is below the length 1 or takes more than [maxAlloc]
    bytes. *)
Definition bucketize (fuel : nat) (st : store) (colors : colorBucket) (num : Z)
    : result (store * list colorBucket) :=
  if bool_decide (len colors = 0)%nat || bool_decide (num = 0) then Ok (st, [])
  else if negb (makeslice sizeof_colorBucket 1 (wrap_int (num * 2))) then Panic
  else bucketize_loop fuel st [colors] num (len colors).

Record MedianCutQuantizer : Type := mkQuantizer {
  Aggregation : AggregationType;
  Weighting : option (image.Image → Z → Z → Z);
  AddTransparent : bool
}.

(** The [Mode] case of [palettize]: the member of highest priority, the
    first one among equals, starting from the zero value. *)
Definition mode_step (best c : colorPriority) : colorPriority :=
  if bool_decide (p c > p best) then c else best.

Definition mode_of (members : list colorPriority) : colorPriority :=
  foldl mode_step zeroColor members.

(** One turn of the loop of [palettize]. *)
Definition palettize_bucket (agg : AggregationType) (st : store)
    (pal : list color.Color) (bucket : colorBucket) : result (list color.Color) :=
  if bool_decide (agg = Mean) then
    m ← mean st bucket; Ok (pal ++ [color.OfRGBA m])
  else if bool_decide (agg = Mode) then
    Ok (pal ++ [color.OfRGBA (RGBA (mode_of (contents st bucket)))])
  else Ok pal.

(** [palettize] finds a single colour to represent each bucket. *)
Fixpoint palettize (agg : AggregationType) (st : store)
    (pal : list color.Color) (buckets : list colorBucket) : result (list color.Color) :=
  match buckets with
  | [] => Ok pal
  | bucket :: buckets =>
      pal' ← palettize_bucket agg st pal bucket;
      palettize agg st pal' buckets
  end.

Definition transparent : color.Color := color.OfRGBA (color.mkRGBA 0 0 0 0).

(** Whether some entry of the prefix has alpha zero. *)
Definition has_transparent (pal : list color.Color) : bool :=
  existsb (λ c, bool_decide ((color.Color_RGBA c).2 = 0)) pal.

(** [quantizeSlice] expands the bucket and then palettizes the result.
    [pal] and [cap_pal] are the elements and the capacity of the palette
    slice handed in. *)
Definition quantizeSlice (q : MedianCutQuantizer) (fuel : nat) (st : store)
    (pal : list color.Color) (cap_pal : Z) (colors : colorBucket)
    : result (store * list color.Color) :=
  let numColors := cap_pal - Z.of_nat (length pal) in
  let addTransparent := AddTransparent q && negb (has_transparent pal) in
  let numColors := if addTransparent then numColors - 1 else numColors in
  '(st', buckets) ← bucketize fuel st colors numColors;
  pal' ← palettize (Aggregation q) st' pal buckets;
  Ok (st', if addTransparent then pal' ++ [transparent] else pal').

(** ** The bucket pool *)

(** [bucketPool]: the high-water mark and the buffers released so far.  A
    released buffer is kept as the backing array seen from the start of the
    slice, so its length is the capacity of that slice. *)
Record bucketPool : Type := mkPool { maxCap : Z; Pool : list store }.

(** [sync.Pool.Get] returns any of the released buffers, or nothing, at its
    own choice; [pick] is that choice. *)
Definition Pool_Get (items : list store) (pick : option nat)
    : option store * list store :=
  match pick with
  | Some k =>
      match items !! k with
      | Some buf => (Some buf, delete k items)
      | None => (None, items)
      end
  | None => (None, items)
  end.

Definition Pool_Put (bp : bucketPool) (st : store) (cb : colorBucket) : bucketPool :=
  mkPool (maxCap bp) (drop (off cb) st :: Pool bp).

(** [for i := range slice { slice[i] = colorPriority{} }] *)
Definition clear (st : store) (cb : colorBucket) : store :=
  foldl (λ st i, write st cb (Z.of_nat i) zeroColor) st (seq 0 (len cb)).

(** [make(colorBucket, maxCap)[0:c]]: [make] panics when [maxCap] is negative
    or takes more than [maxAlloc] bytes, and slicing the new buffer panics
    unless [0 <= c <= maxCap]. *)
Definition make_bucket (maxCap c : Z) : result (store * colorBucket) :=
  if makeslice sizeof_colorPriority maxCap maxCap && bool_decide (0 ≤ c ≤ maxCap)
  then Ok (replicate (Z.to_nat maxCap) zeroColor, mkBucket 0 (Z.to_nat c))
  else Panic.

Definition getBucket (bp : bucketPool) (pick : option nat) (c : Z)
    : result (bucketPool * store * colorBucket) :=
  let m1 := if bool_decide (maxCap bp > c)
            then wrap_int (maxCap bp * 99) `quot` 100 else maxCap bp in
  let m2 := if bool_decide (m1 < c) then c else m1 in
  let '(val, rest) := Pool_Get (Pool bp) pick in
  let bp' := mkPool m2 rest in
  match val with
  | Some buf =>
      if bool_decide (Z.of_nat (length buf) < c) then
        '(st, slice) ← make_bucket m2 c; Ok (bp', st, slice)
      else if bool_decide (0 ≤ c) then
        let slice := mkBucket 0 (Z.to_nat c) in
        Ok (bp', clear buf slice, slice)
      else Panic
  | None => '(st, slice) ← make_bucket m2 c; Ok (bp', st, slice)
  end.

(** ** Aggregation of the pixels *)

Definition MaxInt32 : Z := 2 ^ 31 - 1.

(** A loop over a list whose body may panic. *)
Fixpoint for_each {S X : Type} (body : S → X → result S) (s : S) (l : list X)
    : result S :=
  match l with
  | [] => Ok s
  | x :: l => s' ← body s x; for_each body s' l
  end.

Definition colorAt (m : image.Image) (x y : Z) : color.RGBA :=
  match m with
  | image.YCbCr _ samples =>
      let '(cy, cb, cr) := samples x y in color.mkRGBA cy cb cr 255
  | image.RGBA _ pix => pix x y
  | image.Other _ converted => converted x y
  end.

(** The first loop of [buildBucketMultiple]: the least and greatest bounds
    over all the images. *)
Definition bounds_step (acc : Z * Z * Z * Z) (m : image.Image) : Z * Z * Z * Z :=
  let '(leastX, greatestX, leastY, greatestY) := acc in
  let b := image.Bounds m in
  (if bool_decide (image.X (image.Min b) < leastX) then image.X (image.Min b) else leastX,
   if bool_decide (image.X (image.Max b) > greatestX) then image.X (image.Max b) else greatestX,
   if bool_decide (image.Y (image.Min b) < leastY) then image.Y (image.Min b) else leastY,
   if bool_decide (image.Y (image.Max b) > greatestY) then image.Y (image.Max b) else greatestY).

Definition table_size (ms : list image.Image) : Z :=
  let '(leastX, greatestX, leastY, greatestY) :=
    foldl bounds_step (MaxInt32, 0, MaxInt32, 0) ms in
  wrap_int (wrap_int (wrap_int (greatestX - leastX) * wrap_int (greatestY - leastY)) * 2).

(** The pixels of an image in scanning order: rows from [Min.Y], and in each
    row from [Min.X]. *)
Definition coords (m : image.Image) : list (Z * Z) :=
  let b := image.Bounds m in
  y ← seqZ (image.Y (image.Min b)) (image.Y (image.Max b) - image.Y (image.Min b));
  x ← seqZ (image.X (image.Min b)) (image.X (image.Max b) - image.X (image.Min b));
  [(x, y)].

Definition priority_at (q : MedianCutQuantizer) (m : image.Image) (x y : Z) : Z :=
  match Weighting q with
  | Some w => w m x y
  | None => 1
  end.

(** [int(c.R)<<16 | int(c.G)<<8 | int(c.B)] *)
Definition pack (c : color.RGBA) : Z :=
  Z.lor (Z.lor (Z.shiftl (color.R c) 16) (Z.shiftl (color.G c) 8)) (color.B c).

(** The probing loop [for i := 1; ; i++].  [index%size] is Go's remainder,
    of the sign of [index], and panics when [size] is zero. *)
Fixpoint probe (fuel : nat) (st : store) (sparseBucket : colorBucket) (size : Z)
    (c : color.RGBA) (priority : Z) (index i : Z) : result store :=
  match fuel with
  | O => Timeout
  | S fuel =>
      if bool_decide (size = 0) then Panic
      else
        slot ← read st sparseBucket (index `rem` size);
        if bool_decide (p slot = 0) || bool_decide (RGBA slot = c)
        then Ok (write st sparseBucket (index `rem` size)
                   (mkColorPriority (wrap_u32 (p slot + priority)) c))
        else probe fuel st sparseBucket size c priority
               (wrap_int (index + wrap_int (1 + i))) (wrap_int (i + 1))
  end.

(** The body of the two inner loops, for one pixel. *)
Definition visit (q : MedianCutQuantizer) (fuel : nat) (sparseBucket : colorBucket)
    (size : Z) (m : image.Image) (st : store) (xy : Z * Z) : result store :=
  let priority := priority_at q m xy.1 xy.2 in
  if bool_decide (priority ≠ 0) then
    let c := colorAt m xy.1 xy.2 in
    probe fuel st sparseBucket size c priority (pack c) 1
  else Ok st.

Definition scan_image (q : MedianCutQuantizer) (fuel : nat) (sparseBucket : colorBucket)
    (size : Z) (st : store) (m : image.Image) : result store :=
  for_each (visit q fuel sparseBucket size m) st (coords m).

Section Aggregator.
(** [color.YCbCrToRGB] of Go's standard library. *)
Variable YCbCrToRGB : Z → Z → Z → Z * Z * Z.

(** What the last loop appends for a slot of non-zero priority. *)
Definition emit (ycbcr : bool) (c : colorPriority) : colorPriority :=
  if ycbcr then
    let '(r, g, b) := YCbCrToRGB (color.R (RGBA c)) (color.G (RGBA c)) (color.B (RGBA c)) in
    mkColorPriority (p c) (color.mkRGBA r g b (color.A (RGBA c)))
  else c.

(** [bucket = sparseBucket[:0]] and the loop appending to it: the bucket
    shares the backing array of the table, so every append overwrites a
    slot of the table, at or before the one being read. *)
Definition compact_step (ycbcr : bool) (sparseBucket : colorBucket)
    (acc : store * nat) (i : nat) : store * nat :=
  let '(st, n) := acc in
  match st !! (off sparseBucket + i)%nat with
  | Some c =>
      if bool_decide (p c ≠ 0)
      then (<[(off sparseBucket + n)%nat := emit ycbcr c]> st, S n)
      else (st, n)
  | None => (st, n)
  end.

Definition compact (ycbcr : bool) (st : store) (sparseBucket : colorBucket)
    : store * colorBucket :=
  let '(st', n) :=
    foldl (compact_step ycbcr sparseBucket) (st, 0%nat) (seq 0 (len sparseBucket)) in
  (st', mkBucket (off sparseBucket) n).

(** [buildBucketMultiple] creates a prioritized colour slice with all the
    colours in the images. *)
Definition buildBucketMultiple (q : MedianCutQuantizer) (fuel : nat)
    (bp : bucketPool) (pick : option nat) (ms : list image.Image)
    : result (bucketPool * store * colorBucket) :=
  match ms with
  | [] => Ok (bp, [], mkBucket 0 0)
  | first :: _ =>
      let size := table_size ms in
      '(bp', st, sparseBucket) ← getBucket bp pick size;
      st' ← for_each (scan_image q fuel sparseBucket size) st ms;
      let '(st'', bucket) := compact (image.is_YCbCr first) st' sparseBucket in
      Ok (bp', st'', bucket)
  end.

(** [QuantizeMultiple] quantizes several images at once to a palette.  The
    bucket goes back to the pool when the call returns. *)
Definition QuantizeMultiple (q : MedianCutQuantizer) (fuel : nat)
    (bp : bucketPool) (pick : option nat)
    (pal : list color.Color) (cap_pal : Z) (ms : list image.Image)
    : result (bucketPool * list color.Color) :=
  '(bp', st, bucket) ← buildBucketMultiple q fuel bp pick ms;
  '(st', pal') ← quantizeSlice q fuel st pal cap_pal bucket;
  Ok (Pool_Put bp' st' bucket, pal').

(** [Quantize] quantizes an image to a palette. *)
Definition Quantize (q : MedianCutQuantizer) (fuel : nat)
    (bp : bucketPool) (pick : option nat)
    (pal : list color.Color) (cap_pal : Z) (m : image.Image)
    : result (bucketPool * list color.Color) :=
  '(bp', st, bucket) ← buildBucketMultiple q fuel bp pick [m];
  '(st', pal') ← quantizeSlice q fuel st pal cap_pal bucket;
  Ok (Pool_Put bp' st' bucket, pal').
End Aggregator.

(** ** Notions used in the statements *)

(** *** Weights and members *)

(** The total weight of a list of members, as an exact integer. *)
Definition weight (members : list colorPriority) : Z :=
  foldr (λ c s, p c + s) 0 members.

(** A priority a slot of the table can hold while in use. *)
Definition positive_u32 (c : colorPriority) : Prop := 0 < p c < 2 ^ 32.

(** A member as the aggregation produces it: channels of 8 bits and a
    positive priority of 32 bits. *)
Definition good (c : colorPriority) : Prop := positive_u32 c ∧ color.wf (RGBA c).

(** The red, green and blue of a member. *)
Definition rgb (c : colorPriority) : Z * Z * Z :=
  (color.R (RGBA c), color.G (RGBA c), color.B (RGBA c)).

(** The palette entry of a member. *)
Definition entry (c : colorPriority) : color.Color := color.OfRGBA (RGBA c).

(** A palette entry holding an opaque [color.RGBA]. *)
Definition opaque (e : color.Color) : Prop :=
  ∃ c, e = color.OfRGBA c ∧ color.A c = 255.

(** *** Channels *)

(** The value of a member on a channel. *)
Definition chan (axis : colorAxis) (c : colorPriority) : Z :=
  match axis with
  | red => color.R (RGBA c)
  | green => color.G (RGBA c)
  | blue => color.B (RGBA c)
  end.

(** The range of a channel over the members: greatest value minus least. *)
Definition channel_range (axis : colorAxis) (members : list colorPriority) : Z :=
  foldr Z.max 0 (chan axis <$> members) - foldr Z.min 255 (chan axis <$> members).

(** The rule as the specification words it: the widest channel, red before
    green before blue among equals. *)
Definition spec_axis (members : list colorPriority) : colorAxis :=
  let rR := channel_range red members in
  let rG := channel_range green members in
  let rB := channel_range blue members in
  if bool_decide (rG ≤ rR) && bool_decide (rB ≤ rR) then red
  else if bool_decide (rB ≤ rG) then green
  else blue.

(** The weight of the members whose channel is below a value, and of those
    whose channel is that value. *)
Definition below (axis : colorAxis) (j : Z) (l : list colorPriority) : Z :=
  weight (filter (λ c, chan axis c < j) l).

Definition at_value (axis : colorAxis) (j : Z) (l : list colorPriority) : Z :=
  weight (filter (λ c, chan axis c = j) l).

(** The histogram [span] builds for a channel. *)
Definition hist (axis : colorAxis) (l : list colorPriority) (v0 : list Z) : list Z :=
  foldl (λ v c, alter (λ x, wrap_u64 (x + p c)) (Z.to_nat (chan axis c)) v) v0 l.

(** *** Slices and the queue of buckets *)

(** A slice lies within its backing array. *)
Definition within (st : store) (cb : colorBucket) : Prop :=
  (off cb + len cb ≤ length st)%nat.

(** Two slices share no slot. *)
Definition disjoint (b1 b2 : colorBucket) : Prop :=
  (off b1 + len b1 ≤ off b2 ∨ off b2 + len b2 ≤ off b1)%nat.

Fixpoint pairwise_disjoint (q : list colorBucket) : Prop :=
  match q with
  | [] => True
  | b :: q => Forall (disjoint b) q ∧ pairwise_disjoint q
  end.

(** The state of the queue of [bucketize]: slices of the backing array, no
    two of them overlapping. *)
Definition queue_ok (st : store) (q : list colorBucket) : Prop :=
  Forall (within st) q ∧ pairwise_disjoint q.

(** All the members held by the buckets of a queue. *)
Definition members (st : store) (q : list colorBucket) : list colorPriority :=
  concat (contents st <$> q).

(** The sum of the total weights of the buckets of a queue. *)
Definition buckets_weight (st : store) (q : list colorBucket) : Z :=
  foldr (λ b s, weight (contents st b) + s) 0 q.

(** The queue of [bucketize] over good members of distinct red, green and
    blue: non-empty buckets that share no slot. *)
Definition queue_good (st : store) (q : list colorBucket) : Prop :=
  queue_ok st q
  ∧ Forall (λ b, 1 ≤ len b)%nat q
  ∧ Forall good (members st q)
  ∧ NoDup (rgb <$> members st q).

(** The number of buckets of at most one member at the head of the queue. *)
Fixpoint lead (q : list colorBucket) : nat :=
  match q with
  | [] => 0
  | b :: q => if decide (len b < 2)%nat then S (lead q) else 0
  end.

(** Slot [j] of a bucket holds a member below the cut, or one at or above
    it. *)
Definition low_at (st : store) (cb : colorBucket) (m : Z) (ax : colorAxis) (j : Z) : Prop :=
  ∃ c, read st cb j = Ok c ∧ gt m (RGBA c) ax = true.

Definition high_at (st : store) (cb : colorBucket) (m : Z) (ax : colorAxis) (j : Z) : Prop :=
  ∃ c, read st cb j = Ok c ∧ gt m (RGBA c) ax = false.

(** *** Pixels *)

(** The pixels the scan visits, in scanning order, each with the priority
    and the colour read for it. *)
Definition samples_of (q : MedianCutQuantizer) (m : image.Image)
    : list (Z * color.RGBA) :=
  (λ xy, (priority_at q m xy.1 xy.2, colorAt m xy.1 xy.2)) <$> coords m.

Definition samples (q : MedianCutQuantizer) (ms : list image.Image)
    : list (Z * color.RGBA) :=
  concat (samples_of q <$> ms).

(** The body of the scan in terms of a sample. *)
Definition add_sample (fuel : nat) (sparseBucket : colorBucket) (size : Z)
    (st : store) (s : Z * color.RGBA) : result store :=
  if bool_decide (s.1 ≠ 0) then probe fuel st sparseBucket size s.2 s.1 (pack s.2) 1
  else Ok st.

(** The sum of the priorities of a list of pixels (a pixel of priority zero
    adds nothing), and the part of it that falls on one colour. *)
Definition pixel_weight (l : list (Z * color.RGBA)) : Z :=
  foldr (λ s acc, s.1 + acc) 0 l.

Definition color_weight (c : color.RGBA) (l : list (Z * color.RGBA)) : Z :=
  pixel_weight (filter (λ s, s.2 = c) l).

(** Bounds as the image types of the standard library have them: [Min] not
    beyond [Max], and coordinates of 31 bits. *)
Definition sane_bounds (r : image.Rectangle) : Prop :=
  - 2 ^ 30 ≤ image.X (image.Min r) ≤ image.X (image.Max r) ∧ image.X (image.Max r) < 2 ^ 30
  ∧ - 2 ^ 30 ≤ image.Y (image.Min r) ≤ image.Y (image.Max r) ∧ image.Y (image.Max r) < 2 ^ 30.

(** ** Inputs used in the examples *)

(** An image whose bounds are [0,0]-[w,h]. *)
Definition rect (w h : Z) : image.Rectangle :=
  image.mkRectangle (image.mkPoint 0 0) (image.mkPoint w h).

Definition black : color.RGBA := color.mkRGBA 0 0 0 255.
Definition white : color.RGBA := color.mkRGBA 255 255 255 255.

(** A 2x2 image: a black row over a white row. *)
Definition two_rows : image.Image :=
  image.RGBA (rect 2 2) (λ x y, if bool_decide (y = 0) then black else white).

(** A conversion to stand for [color.YCbCrToRGB] where no image is a
    [YCbCr] one and the conversion is never called. *)
Definition unused_conversion (y cb cr : Z) : Z * Z * Z := (y, cb, cr).

Definition empty_pool : bucketPool := mkPool 0 [].

(** A pool holding one released buffer of eight slots, all in use. *)
Definition used_pool : bucketPool :=
  mkPool 8 [replicate 8 (mkColorPriority 3 (color.mkRGBA 1 2 3 255))].

Definition uniform : MedianCutQuantizer := mkQuantizer Mode None false.

(** A weighting giving every pixel half of the 32-bit range. *)
Definition heavy : MedianCutQuantizer := mkQuantizer Mode (Some (λ _ _ _, 2 ^ 31)) false.

(** A quantizer asked for a transparent entry. *)
Definition with_transparent : MedianCutQuantizer := mkQuantizer Mode None true.

(** A 3x1 image of black pixels of alpha 255, 128 and 0. *)
Definition three_alphas : image.Image :=
  image.RGBA (rect 3 1)
    (λ x y, color.mkRGBA 0 0 0
              (if bool_decide (x = 0) then 255 else if bool_decide (x = 1) then 128 else 0)).

(** Three opaque colours whose red and green ranges are equal and widest. *)
Definition tie_store : store :=
  [mkColorPriority 1 (color.mkRGBA 0 0 0 255);
   mkColorPriority 1 (color.mkRGBA 10 10 1 255);
   mkColorPriority 1 (color.mkRGBA 20 20 2 255)].
Definition tie_bucket : colorBucket := mkBucket 0 3.

(** A queue with a singleton bucket at its head, over [tie_store]. *)
Definition tie_queue : list colorBucket := [mkBucket 0 1; mkBucket 1 2].

(** A 3x3 opaque image of nine colours that differ in blue only. *)
Definition nine_blues : image.Image :=
  image.RGBA (rect 3 3)
    (λ x y, color.mkRGBA 0 0 (nth (Z.to_nat (y * 3 + x)) [0; 2; 5; 8; 9; 11; 14; 17; 18] 0) 255).

(** The colour of its last pixel, and the table of 18 slots. *)
Definition last_blue : color.RGBA := color.mkRGBA 0 0 18 255.
Definition table18 : colorBucket := mkBucket 0 18.

(** The table once the first eight pixels are in. *)
Definition eight_in : store :=
  Eval vm_compute in
    match for_each (visit uniform 1 table18 18 nine_blues)
            (replicate 18 zeroColor) (take 8 (coords nine_blues)) with
    | Ok st => st
    | _ => []
    end.

(** *** The probes of the last pixel of [nine_blues] *)

(** The index of the probing loop after [k] turns, starting from 18. *)
Definition probe_index (k : Z) : Z := 18 + (k * (k + 3)) `div` 2.

(** The last turn before the index leaves the range of [int]. *)
Definition last_turn : Z := 4294967294.

(** The residues modulo 18 of the index and of the turn, turn after turn. *)
Definition residue_step (s : Z * Z) : Z * Z :=
  ((s.1 + s.2 + 2) `mod` 18, (s.2 + 1) `mod` 18).

Definition residues : list (Z * Z) :=
  Eval vm_compute in
    (fix go (n : nat) (s : Z * Z) : list (Z * Z) :=
       match n with
       | O => []
       | S n => s :: go n (residue_step s)
       end) 36%nat (0, 0).

(** A slot in use by a colour other than [c]. *)
Definition taken_by_other (st : store) (cb : colorBucket) (c : color.RGBA) (slot : Z) : bool :=
  match read st cb slot with
  | Ok old => negb (bool_decide (p old = 0) || bool_decide (RGBA old = c))
  | _ => false
  end.

(** ** Notions used in the further properties *)

(** *** The probing loop and the table *)

(** The index and the counter of the probing loop after [k] turns. *)
Fixpoint turns (index i : Z) (k : nat) : Z * Z :=
  match k with
  | O => (index, i)
  | S k => turns (wrap_int (index + wrap_int (1 + i))) (wrap_int (i + 1)) k
  end.

(** The slot of a table of [size] slots that a colour probes at turn [k]. *)
Definition probed (c : color.RGBA) (size : Z) (k : nat) : Z :=
  (turns (pack c) 1 k).1 `rem` size.

(** The offset of the probing loop from its first index after [k] turns:
    0, 2, 5, 9, 14, ... *)
Definition probe_offset (k : Z) : Z := (k * (k + 3)) `div` 2.

(** The slot a colour probes first. *)
Definition home (c : color.RGBA) (size : Z) : Z := pack c `rem` size.

(** The state of the table while the scan runs, [done] being the pixels
    seen so far: a slot in use holds the weight of the pixels of its colour,
    it is the first slot on the path of its colour that was not in use by
    another colour, and every colour that has weight has a slot. *)
Definition table_inv (done : list (Z * color.RGBA)) (st : store)
    (sb : colorBucket) (size : Z) : Prop :=
  (∀ j e, read st sb j = Ok e → p e ≠ 0 →
     p e = color_weight (RGBA e) done
     ∧ ∃ k, probed (RGBA e) size k = j
            ∧ ∀ k', (k' < k)%nat →
                taken_by_other st sb (RGBA e) (probed (RGBA e) size k') = true)
  ∧ (∀ c, 0 < color_weight c done →
       ∃ j e, read st sb j = Ok e ∧ p e ≠ 0 ∧ RGBA e = c).

(** A table in which every slot in use is the home slot of its colour, a
    colour of one of the pixels seen so far. *)
Definition homed (done : list (Z * color.RGBA)) (st : store) (sb : colorBucket)
    (size : Z) : Prop :=
  ∀ j e, read st sb j = Ok e → p e ≠ 0 →
    j = home (RGBA e) size ∧ ∃ s, s ∈ done ∧ s.1 ≠ 0 ∧ s.2 = RGBA e.

(** The number of slots of a table that are in use. *)
Definition used (st : store) (sb : colorBucket) : nat :=
  length (filter (λ e, p e ≠ 0) (contents st sb)).

(** The number of pixels within the bounds of an image. *)
Definition area (m : image.Image) : Z :=
  (image.X (image.Max (image.Bounds m)) - image.X (image.Min (image.Bounds m)))
  * (image.Y (image.Max (image.Bounds m)) - image.Y (image.Min (image.Bounds m))).

(** The colours of the pixels of non-zero priority, each once, in the order
    in which the scan meets them. *)
Definition distinct_colours (q : MedianCutQuantizer) (ms : list image.Image)
    : list color.RGBA :=
  remove_dups ((λ s, s.2) <$> filter (λ s, s.1 ≠ 0) (samples q ms)).

(** *** Reductions, cuts and counts *)

(** The sum of the values of a channel over the members, each counted with
    its weight. *)
Definition weighted_sum (axis : colorAxis) (members : list colorPriority) : Z :=
  foldr (λ c s, chan axis c * p c + s) 0 members.

(** A member that is the first of the heaviest of a list. *)
Definition first_heaviest (c : colorPriority) (members : list colorPriority) : Prop :=
  ∃ before after,
    members = before ++ c :: after
    ∧ Forall (λ c', p c' < p c) before
    ∧ Forall (λ c', p c' ≤ p c) after.

(** The test on which the last loop of [span] breaks at a value [v] of the
    channel: the members below [v] weigh more than half of the total, or no
    member lies above [v]. *)
Definition cut_reached (axis : colorAxis) (members : list colorPriority) (v : Z) : Prop :=
  weight members `quot` 2 < below axis v members
  ∨ below axis (v + 1) members = weight members.

(** The target count [quantizeSlice] hands to [bucketize]: the room left
    in the palette, less one when a transparent entry is to be added. *)
Definition target (q : MedianCutQuantizer) (pal : list color.Color) (cap_pal : Z) : Z :=
  cap_pal - Z.of_nat (length pal)
  - if AddTransparent q && negb (has_transparent pal) then 1 else 0.

(** The value of a colour on a channel. *)
Definition channel_of (axis : colorAxis) (c : color.RGBA) : Z :=
  match axis with
  | red => color.R c
  | green => color.G c
  | blue => color.B c
  end.

(** *** Backing arrays seen through a slice *)

(** Two backing arrays that show the same first [n] slots. *)
Definition agree (n : nat) (st1 st2 : store) : Prop :=
  (n ≤ length st1)%nat ∧ (n ≤ length st2)%nat ∧ take n st1 = take n st2.

(** A slice that lies within the first [n] slots. *)
Definition fits (n : nat) (cb : colorBucket) : Prop := (off cb + len cb ≤ n)%nat.

(** Two outcomes of the same kind, with related results. *)
Definition related {T} (rel : T → T → Prop) (r1 r2 : result T) : Prop :=
  match r1, r2 with
  | Ok a, Ok b => rel a b
  | Panic, Panic => True
  | Timeout, Timeout => True
  | _, _ => False
  end.

(** The palette of an outcome of [Quantize] or [QuantizeMultiple], without
    the state the pool is left in. *)
Definition palette_of (r : result (bucketPool * list color.Color))
    : result (list color.Color) :=
  '(_, pal) ← r; Ok pal.

(** A pool whose high-water mark and released buffers are of sizes [make]
    accepts.  The pool starts so (mark zero, no buffer) and every call that
    returns leaves it so; a call that panics in [make] has raised the mark
    before, and leaves a pool that is not of this kind. *)
Definition sane_pool (bp : bucketPool) : Prop :=
  sizeof_colorPriority * maxCap bp ≤ maxAlloc
  ∧ Forall (λ buf, sizeof_colorPriority * Z.of_nat (length buf) ≤ maxAlloc) (Pool bp).

(** ** Further inputs used in the examples *)

(** Three images of one pixel each, of three colours. *)
Definition one_pixel (c : color.RGBA) : image.Image := image.RGBA (rect 1 1) (λ _ _, c).
Definition grey : color.RGBA := color.mkRGBA 128 128 128 255.
Definition three_frames : list image.Image := [one_pixel black; one_pixel grey; one_pixel white].

(** Four grey levels in increasing order, each of weight one. *)
Definition grey_level (v : Z) : colorPriority := mkColorPriority 1 (color.mkRGBA v v v 255).
Definition sorted_four : store := [grey_level 1; grey_level 2; grey_level 8; grey_level 9].
Definition four_bucket : colorBucket := mkBucket 0 4.

(** Three members that differ in alpha only. *)
Definition alpha_store : store :=
  [mkColorPriority 1 (color.mkRGBA 7 7 7 255);
   mkColorPriority 1 (color.mkRGBA 7 7 7 128);
   mkColorPriority 1 (color.mkRGBA 7 7 7 0)].

(** A quantizer whose aggregation is neither of the two named ones. *)
Definition odd_quantizer : MedianCutQuantizer := mkQuantizer 7 None true.

(** A table of four slots of which the first two are in use. *)
Definition half_full : store :=
  [mkColorPriority 2 black; mkColorPriority 1 white; zeroColor; zeroColor].

(** * Properties *)

(** ** Reasoning about outcomes *)

Lemma bind_Ok {T U} (m : result T) (f : T → result U) (u : U) :
  m ≫= f = Ok u → ∃ t, m = Ok t ∧ f t = Ok u.
Proof. destruct m; simpl; [eauto | discriminate | discriminate]. Qed.

(** Splits a hypothesis [m ≫= f = Ok u] into its two halves. *)
Ltac inv_bind H :=
  let t := fresh "t" in
  let Ht := fresh "Ht" in
  apply bind_Ok in H as (t & Ht & H); simpl in H.

(** ** Arithmetic of the fixed-width types *)

Lemma wrap_u64_small z : 0 ≤ z < 2 ^ 64 → wrap_u64 z = z.
Proof. intros. unfold wrap_u64. by apply Z.mod_small. Qed.

Lemma wrap_u64_add_l a b : wrap_u64 (wrap_u64 a + b) = wrap_u64 (a + b).
Proof. unfold wrap_u64. by rewrite Zplus_mod_idemp_l. Qed.

Lemma wrap_u32_small z : 0 ≤ z < 2 ^ 32 → wrap_u32 z = z.
Proof. intros. unfold wrap_u32. by apply Z.mod_small. Qed.

Lemma wrap_u8_small z : 0 ≤ z < 2 ^ 8 → wrap_u8 z = z.
Proof. intros. unfold wrap_u8. by apply Z.mod_small. Qed.

Lemma wrap_int_small z : - 2 ^ 63 ≤ z < 2 ^ 63 → wrap_int z = z.
Proof. intros. unfold wrap_int. rewrite Z.mod_small; lia. Qed.

(** ** Weights *)

Lemma weight_app l1 l2 : weight (l1 ++ l2) = weight l1 + weight l2.
Proof. induction l1 as [|c l1 IH]; simpl; lia. Qed.

Lemma weight_perm l1 l2 : l1 ≡ₚ l2 → weight l1 = weight l2.
Proof. induction 1; simpl; lia. Qed.

Lemma weight_bounds members :
  Forall positive_u32 members →
  Z.of_nat (length members) ≤ weight members ≤ Z.of_nat (length members) * (2 ^ 32 - 1).
Proof.
  induction 1 as [|c l Hc _ IH]; simpl; [lia|].
  unfold positive_u32 in Hc. lia.
Qed.

(** ** Mean reduction *)

Lemma mean_step_total acc members :
  (foldl mean_step acc members).2 = wrap_u64 (acc.2 + weight members) ∨
  (foldl mean_step acc members).2 = acc.2 ∧ members = [].
Proof.
  revert acc. induction members as [|c l IH]; intros acc; [by right|left].
  simpl. destruct (IH (mean_step acc c)) as [->| [-> ->]];
    destruct acc as [[[r g] b] t]; simpl.
  - rewrite wrap_u64_add_l. f_equal. lia.
  - f_equal. lia.
Qed.

Lemma mean_of_opaque members c : mean_of members = Ok c → color.A c = 255.
Proof.
  unfold mean_of. destruct (foldl mean_step _ members) as [[[r g] b] t].
  case_bool_decide; [discriminate|]. by intros [= <-].
Qed.

Lemma mean_of_total members :
  members ≠ [] → Forall positive_u32 members →
  Z.of_nat (length members) < 2 ^ 32 →
  ∃ c, mean_of members = Ok c.
Proof.
  intros Hne Hpos Hlen. unfold mean_of.
  pose proof (mean_step_total (0, 0, 0, 0) members) as Ht.
  destruct (foldl mean_step _ members) as [[[r g] b] t]. simpl in Ht.
  destruct Ht as [Ht | [_ ?]]; [|done].
  pose proof (weight_bounds members Hpos) as Hw.
  assert (0 < length members)%nat by (destruct members; [done | simpl; lia]).
  rewrite wrap_u64_small in Ht by nia.
  rewrite bool_decide_false by lia. eauto.
Qed.

Lemma palettize_Mean_entries st buckets : ∀ pal pal',
  palettize Mean st pal buckets = Ok pal' →
  ∃ ext, pal' = pal ++ ext ∧ length ext = length buckets ∧ Forall opaque ext.
Proof.
  induction buckets as [|b bs IH]; intros pal pal' H; simpl in H.
  - injection H as <-. exists []. by rewrite app_nil_r.
  - inv_bind H. unfold palettize_bucket in Ht. simpl in Ht.
    inv_bind Ht. injection Ht as <-.
    apply IH in H as (ext & -> & Hlen & Hop).
    exists (color.OfRGBA t0 :: ext). rewrite <- app_assoc. simpl.
    split_and!; [done | lia |].
    constructor; [|done]. exists t0. split; [done|]. by eapply mean_of_opaque.
Qed.

Lemma palettize_Mean_total st buckets : ∀ pal,
  Forall (λ b, contents st b ≠ [] ∧ Forall positive_u32 (contents st b)
               ∧ Z.of_nat (length (contents st b)) < 2 ^ 32) buckets →
  ∃ pal', palettize Mean st pal buckets = Ok pal'.
Proof.
  induction buckets as [|b bs IH]; intros pal Hall; simpl; [eauto|].
  inversion Hall as [|? ? (Hne & Hpos & Hlen) Hrest]; subst.
  destruct (mean_of_total _ Hne Hpos Hlen) as [c Hc].
  unfold palettize_bucket, mean. simpl. rewrite Hc. simpl. by apply IH.
Qed.

(** C10. Every entry the Mean reduction appends to the palette is an opaque
    colour, alpha exactly 255, whatever the alpha of the members; and for
    buckets that are non-empty, with priorities as the table holds them
    (positive, 32 bits), the reduction does produce one entry per bucket. *)
Theorem palettize_Mean_opaque st pal buckets :
  (∀ pal', palettize Mean st pal buckets = Ok pal' →
     ∃ ext, pal' = pal ++ ext ∧ length ext = length buckets ∧ Forall opaque ext)
  ∧ (Forall (λ b, contents st b ≠ [] ∧ Forall positive_u32 (contents st b)
                  ∧ Z.of_nat (length (contents st b)) < 2 ^ 32) buckets →
     ∃ pal', palettize Mean st pal buckets = Ok pal').
Proof.
  split; [apply palettize_Mean_entries | apply palettize_Mean_total].
Qed.

Lemma palettize_Mean_opaque_witness :
  ∃ ext, palettize Mean tie_store [] tie_queue = Ok ([] ++ ext)
         ∧ length ext = length tie_queue ∧ Forall opaque ext.
Proof.
  destruct (palettize_Mean_opaque tie_store [] tie_queue) as [Hop Htot].
  destruct Htot as [pal' Hpal'].
  - repeat (apply Forall_cons; split); [| |constructor];
      (split_and!; [done | | simpl; lia]);
      repeat (apply Forall_cons; split); try constructor;
      unfold positive_u32; simpl; lia.
  - destruct (Hop pal' Hpal') as (ext & -> & Hlen & Hopq). by exists ext.
Defined.

(** ** The splitting axis *)

Lemma foldr_min_comm x m l : foldr Z.min (Z.min x m) l = Z.min x (foldr Z.min m l).
Proof. induction l as [|y l IH]; simpl; [done|]. rewrite IH. lia. Qed.

Lemma foldr_max_comm x m l : foldr Z.max (Z.max x m) l = Z.max x (foldr Z.max m l).
Proof. induction l as [|y l IH]; simpl; [done|]. rewrite IH. lia. Qed.

Lemma update_min c i w : constraint.min (constraint.update c i w) = Z.min i (constraint.min c).
Proof. unfold constraint.update. simpl. case_bool_decide; lia. Qed.

Lemma update_max c i w : constraint.max (constraint.update c i w) = Z.max i (constraint.max c).
Proof. unfold constraint.update. simpl. case_bool_decide; lia. Qed.

(** After the first loop of [span] the three constraints hold the least and
    the greatest value of their channel. *)
Lemma span_step_minmax members : ∀ cR cG cB t,
  match foldl span_step (cR, cG, cB, t) members with
  | (cR', cG', cB', _) =>
      (constraint.min cR' = foldr Z.min (constraint.min cR) (chan red <$> members)
       ∧ constraint.max cR' = foldr Z.max (constraint.max cR) (chan red <$> members))
      ∧ (constraint.min cG' = foldr Z.min (constraint.min cG) (chan green <$> members)
         ∧ constraint.max cG' = foldr Z.max (constraint.max cG) (chan green <$> members))
      ∧ (constraint.min cB' = foldr Z.min (constraint.min cB) (chan blue <$> members)
         ∧ constraint.max cB' = foldr Z.max (constraint.max cB) (chan blue <$> members))
  end.
Proof.
  induction members as [|c l IH]; intros cR cG cB t; [done|].
  cbn [foldl span_step fmap list_fmap foldr].
  specialize (IH (constraint.update cR (color.R (RGBA c)) (p c))
                 (constraint.update cG (color.G (RGBA c)) (p c))
                 (constraint.update cB (color.B (RGBA c)) (p c))
                 (wrap_u64 (t + p c))).
  destruct (foldl span_step _ l) as [[[cR' cG'] cB'] t'].
  rewrite !update_min, !update_max, !foldr_min_comm, !foldr_max_comm in IH.
  exact IH.
Qed.

Lemma channel_range_u8 axis members :
  members ≠ [] → Forall (λ c, color.wf (RGBA c)) members →
  0 ≤ foldr Z.min 255 (chan axis <$> members)
    ≤ foldr Z.max 0 (chan axis <$> members) ∧
  foldr Z.max 0 (chan axis <$> members) < 2 ^ 8.
Proof.
  intros Hne Hwf.
  assert (Hc : ∀ c, color.wf (RGBA c) → 0 ≤ chan axis c < 2 ^ 8).
  { intros c (?&?&?&?). unfold is_u8 in *. destruct axis; cbn [chan]; lia. }
  induction Hwf as [|c l Hcw Hl IH]; [done|].
  specialize (Hc c Hcw). cbn [fmap list_fmap foldr].
  destruct l as [|c' l]; [cbn [fmap list_fmap foldr]; lia|].
  specialize (IH ltac:(done)). lia.
Qed.

(** The axis [span] picks, in terms of the three ranges. *)
Lemma span_of_axis members :
  members ≠ [] → Forall (λ c, color.wf (RGBA c)) members →
  match (span_of members).2 with
  | red => channel_range green members < channel_range red members
           ∧ channel_range blue members < channel_range red members
  | green => channel_range red members ≤ channel_range green members
             ∧ channel_range blue members < channel_range green members
  | blue => channel_range red members ≤ channel_range blue members
            ∧ channel_range green members ≤ channel_range blue members
  end.
Proof.
  intros Hne Hwf. unfold span_of, span_init.
  pose proof (span_step_minmax members (constraint.with_min constraint.zero 255)
    (constraint.with_min constraint.zero 255) (constraint.with_min constraint.zero 255) 0) as H.
  destruct (foldl span_step _ members) as [[[cR cG] cB] t].
  destruct H as ((HR1 & HR2) & (HG1 & HG2) & (HB1 & HB2)). simpl in *.
  pose proof (channel_range_u8 red members Hne Hwf).
  pose proof (channel_range_u8 green members Hne Hwf).
  pose proof (channel_range_u8 blue members Hne Hwf).
  assert (constraint.span cR = channel_range red members) as ER.
  { unfold constraint.span, channel_range. rewrite HR1, HR2. apply wrap_u8_small. lia. }
  assert (constraint.span cG = channel_range green members) as EG.
  { unfold constraint.span, channel_range. rewrite HG1, HG2. apply wrap_u8_small. lia. }
  assert (constraint.span cB = channel_range blue members) as EB.
  { unfold constraint.span, channel_range. rewrite HB1, HB2. apply wrap_u8_small. lia. }
  unfold span_choose. rewrite ER, EG, EB.
  repeat case_bool_decide; simpl; lia.
Qed.

(** C5, as amended.  When splitting a bucket with at least 3 members, the
    axis chosen is a channel with the greatest range (max - min), and among
    equals the order is blue, then green, then red: blue is chosen whenever
    its range is a greatest one, green when its range is greater than blue's
    and at least red's, red only when its range is greater than both. *)
Theorem span_axis_greatest_blue_first st cb :
  (3 ≤ length (contents st cb))%nat →
  Forall (λ c, color.wf (RGBA c)) (contents st cb) →
  match (span st cb).2 with
  | red => channel_range green (contents st cb) < channel_range red (contents st cb)
           ∧ channel_range blue (contents st cb) < channel_range red (contents st cb)
  | green => channel_range red (contents st cb) ≤ channel_range green (contents st cb)
             ∧ channel_range blue (contents st cb) < channel_range green (contents st cb)
  | blue => channel_range red (contents st cb) ≤ channel_range blue (contents st cb)
            ∧ channel_range green (contents st cb) ≤ channel_range blue (contents st cb)
  end.
Proof.
  intros Hlen Hwf. apply span_of_axis; [|done].
  intros E. rewrite E in Hlen. simpl in Hlen. lia.
Qed.

Lemma span_axis_greatest_blue_first_witness :
  channel_range red (contents tie_store tie_bucket)
    ≤ channel_range green (contents tie_store tie_bucket)
  ∧ channel_range blue (contents tie_store tie_bucket)
    < channel_range green (contents tie_store tie_bucket).
Proof.
  apply (span_axis_greatest_blue_first tie_store tie_bucket).
  - simpl. lia.
  - repeat constructor; simpl; lia.
Defined.

(** C5 as stated fails: red and green tie for the widest range, and the axis
    chosen is green where the stated rule gives red. *)
Lemma span_axis_red_loses_tie :
  (span tie_store tie_bucket).2 = green
  ∧ spec_axis (contents tie_store tie_bucket) = red
  ∧ channel_range red (contents tie_store tie_bucket)
    = channel_range green (contents tie_store tie_bucket).
Proof. by vm_compute. Qed.

(** ** Slices of the backing array *)

Lemma read_Ok st cb i c :
  read st cb i = Ok c →
  0 ≤ i < Z.of_nat (len cb) ∧ contents st cb !! Z.to_nat i = Some c.
Proof.
  unfold read, contents. case_bool_decide as Hi; [|discriminate].
  destruct (st !! _) as [c'|] eqn:E; [|discriminate]. intros [= <-].
  split; [done|]. rewrite lookup_take_lt by lia. by rewrite lookup_drop.
Qed.

Lemma length_write st cb i c : length (write st cb i c) = length st.
Proof. apply length_insert. Qed.

Lemma contents_write_in st cb i c :
  0 ≤ i < Z.of_nat (len cb) →
  contents (write st cb i c) cb = <[Z.to_nat i := c]> (contents st cb).
Proof.
  intros Hi. unfold contents, write.
  rewrite drop_insert_ge by lia. rewrite take_insert_lt by lia.
  f_equal. lia.
Qed.

Lemma contents_write_out st cb b i c :
  0 ≤ i < Z.of_nat (len cb) → disjoint b cb →
  contents (write st cb i c) b = contents st b.
Proof.
  intros Hi [Hd|Hd]; unfold contents, write.
  - rewrite drop_insert_ge by lia. by rewrite take_insert_ge by lia.
  - by rewrite drop_insert_lt by lia.
Qed.

Lemma length_contents st cb : within st cb → length (contents st cb) = len cb.
Proof.
  unfold within, contents. intros. rewrite length_take, length_drop. lia.
Qed.

Lemma within_length st st' cb : length st' = length st → within st cb → within st' cb.
Proof. unfold within. by intros ->. Qed.

Lemma contents_cut st cb k :
  (k ≤ len cb)%nat →
  contents st (cut cb k).1 ++ contents st (cut cb k).2 = contents st cb.
Proof.
  intros Hk. unfold contents, cut. simpl.
  rewrite <- drop_drop, take_take_drop. f_equal. lia.
Qed.

Lemma disjoint_sym b1 b2 : disjoint b1 b2 → disjoint b2 b1.
Proof. unfold disjoint. lia. Qed.

Lemma disjoint_cut cb k : disjoint (cut cb k).1 (cut cb k).2.
Proof. unfold disjoint, cut. simpl. lia. Qed.

Lemma disjoint_cut_l b cb k :
  (k ≤ len cb)%nat → disjoint b cb → disjoint b (cut cb k).1 ∧ disjoint b (cut cb k).2.
Proof. unfold disjoint, cut. simpl. lia. Qed.

Lemma within_cut st cb k :
  (k ≤ len cb)%nat → within st cb → within st (cut cb k).1 ∧ within st (cut cb k).2.
Proof. unfold within, cut. simpl. lia. Qed.

(** ** Exchanging two slots *)

Lemma insert_cons_perm {T} (l : list T) j a b :
  l !! j = Some b → b :: <[j:=a]> l ≡ₚ a :: l.
Proof.
  revert j. induction l as [|x l IH]; intros [|j] H; simplify_eq/=.
  - apply perm_swap.
  - rewrite perm_swap, (IH _ H). apply perm_swap.
Qed.

Lemma insert_swap_perm {T} (l : list T) i j a b :
  l !! i = Some a → l !! j = Some b → <[j:=a]> (<[i:=b]> l) ≡ₚ l.
Proof.
  revert i j. induction l as [|x l IH]; intros [|i] [|j] Hi Hj; simplify_eq/=.
  - done.
  - by apply insert_cons_perm.
  - by apply insert_cons_perm.
  - f_equiv. by apply IH.
Qed.

Lemma swap_spec st cb l r st' :
  swap st cb l r = Ok st' →
  length st' = length st
  ∧ contents st' cb ≡ₚ contents st cb
  ∧ ∀ b, disjoint b cb → contents st' b = contents st b.
Proof.
  unfold swap. intros H. inv_bind H. inv_bind H. injection H as <-.
  apply read_Ok in Ht as [Hl Hlv]. apply read_Ok in Ht0 as [Hr Hrv].
  split_and!.
  - by rewrite !length_write.
  - rewrite !contents_write_in by done. by apply insert_swap_perm.
  - intros b Hb. by rewrite !contents_write_out.
Qed.

(** ** The two scans and the loop of [partition] *)

Lemma scan_left_Ok fuel st cb m ax : ∀ left k,
  scan_left fuel st cb m ax left = Ok k →
  left ≤ k ∧ ∃ c, read st cb k = Ok c ∧ gt m (RGBA c) ax = false.
Proof.
  induction fuel as [|fuel IH]; intros left k H; simpl in H; [discriminate|].
  destruct (read st cb left) as [c| |] eqn:E; simpl in H; try discriminate.
  destruct (gt m (RGBA c) ax) eqn:Eg.
  - apply IH in H as [? ?]. split; [lia|done].
  - injection H as <-. split; [lia|]. eauto.
Qed.

Lemma scan_right_Ok fuel st cb m ax : ∀ right k,
  scan_right fuel st cb m ax right = Ok k →
  k ≤ right ∧ ∃ c, read st cb k = Ok c ∧ gt m (RGBA c) ax = true.
Proof.
  induction fuel as [|fuel IH]; intros right k H; simpl in H; [discriminate|].
  destruct (read st cb right) as [c| |] eqn:E; simpl in H; try discriminate.
  destruct (gt m (RGBA c) ax) eqn:Eg.
  - injection H as <-. split; [lia|]. eauto.
  - apply IH in H as [? ?]. split; [lia|done].
Qed.

Lemma partition_loop_spec fuel cb m ax : ∀ st left right st' k,
  partition_loop fuel st cb m ax left right = Ok (st', k) →
  length st' = length st
  ∧ contents st' cb ≡ₚ contents st cb
  ∧ (∀ b, disjoint b cb → contents st' b = contents st b)
  ∧ (left < right → 0 < k < Z.of_nat (len cb))
  ∧ (¬ left < right → k = left).
Proof.
  induction fuel as [|fuel IH]; intros st left right st' k H; simpl in H.
  - case_bool_decide; [discriminate|]. simplify_eq. by split_and!.
  - case_bool_decide as Hlr; [|simplify_eq; by split_and!].
    inv_bind H. inv_bind H. inv_bind H.
    rename t into left', t0 into right', t1 into st1.
    apply scan_left_Ok in Ht as (Hl & cl & Hcl & Hgl).
    apply scan_right_Ok in Ht0 as (Hr & cr & Hcr & Hgr).
    apply swap_spec in Ht1 as (Hlen & Hperm & Hframe).
    pose proof (read_Ok _ _ _ _ Hcl) as [Hlb _].
    pose proof (read_Ok _ _ _ _ Hcr) as [Hrb _].
    assert (left' ≠ right') by (intros ->; congruence).
    apply IH in H as (Hlen' & Hperm' & Hframe' & Hin & Hout).
    split_and!.
    + congruence.
    + by rewrite Hperm'.
    + intros b Hb. rewrite Hframe' by done. by apply Hframe.
    + intros _. destruct (decide (left' < right')) as [Hlt|Hge]; [by apply Hin|].
      rewrite (Hout Hge). lia.
    + done.
Qed.

(** [partition] cuts a bucket of two members or more into two non-empty
    halves, after permuting its members in place; no slot outside of the
    bucket is written. *)
Lemma partition_spec fuel st cb st' l r :
  (2 ≤ len cb)%nat →
  partition fuel st cb = Ok (st', l, r) →
  ∃ k, (0 < k < len cb)%nat ∧ l = (cut cb k).1 ∧ r = (cut cb k).2
       ∧ length st' = length st
       ∧ contents st' cb ≡ₚ contents st cb
       ∧ ∀ b, disjoint b cb → contents st' b = contents st b.
Proof.
  intros Hlen H. unfold partition in H.
  destruct (span st cb) as [m ax].
  inv_bind H. destruct t as [st1 k]. inv_bind H. inv_bind H.
  injection H as <- <- <-.
  apply partition_loop_spec in Ht as (Hl & Hperm & Hframe & Hin & _).
  specialize (Hin ltac:(lia)).
  unfold reslice in Ht0, Ht1.
  repeat case_bool_decide; simplify_eq.
  exists (Z.to_nat k). split_and!; try done; try lia.
  - unfold cut. simpl. f_equal; lia.
  - unfold cut. simpl. f_equal; lia.
Qed.

(** ** The queue of [bucketize] *)

Lemma pairwise_disjoint_app q1 q2 :
  pairwise_disjoint (q1 ++ q2) ↔
  pairwise_disjoint q1 ∧ pairwise_disjoint q2
  ∧ Forall (λ b1, Forall (disjoint b1) q2) q1.
Proof.
  induction q1 as [|b q1 IH]; simpl.
  - intuition constructor.
  - rewrite Forall_app, IH, Forall_cons. tauto.
Qed.

Lemma members_cons st b q : members st (b :: q) = contents st b ++ members st q.
Proof. done. Qed.

Lemma members_app st q1 q2 : members st (q1 ++ q2) = members st q1 ++ members st q2.
Proof. unfold members. by rewrite fmap_app, concat_app. Qed.

Lemma members_one st b : members st [b] = contents st b.
Proof. unfold members. simpl. apply app_nil_r. Qed.

Lemma members_two st a b : members st [a; b] = contents st a ++ contents st b.
Proof. unfold members. simpl. by rewrite app_nil_r. Qed.

Lemma members_frame st st' q :
  Forall (λ b, contents st' b = contents st b) q → members st' q = members st q.
Proof.
  induction 1 as [|b q Hb _ IH]; [done|]. rewrite !members_cons. congruence.
Qed.

(** What one run of the loop of [bucketize] guarantees, from any state of the
    queue. *)
Lemma bucketize_loop_spec num n fuel : ∀ st q st' res,
  queue_ok st q →
  bucketize_loop fuel st q num n = Ok (st', res) →
  queue_ok st' res
  ∧ length st' = length st
  ∧ members st' res ≡ₚ members st q
  ∧ (q ≠ [] → res ≠ [])
  ∧ (Forall (λ b, 1 ≤ len b)%nat q → Forall (λ b, 1 ≤ len b)%nat res)
  ∧ (∀ b, b ∈ q → (len b ≤ 1)%nat → b ∈ res ∧ contents st' b = contents st b)
  ∧ (Z.of_nat (length q) ≤ num → Z.of_nat (length res) ≤ num)
  ∧ ¬ (Z.of_nat (length res) < num ∧ (length res < n)%nat).
Proof.
  induction fuel as [|fuel IH]; intros st q st' res Hq H; simpl in H.
  { destruct (_ && _) eqn:Hc; [discriminate|]. simplify_eq.
    split_and!; try done.
    rewrite andb_false_iff, !bool_decide_eq_false in Hc. lia. }
  destruct (_ && _) eqn:Hc.
  2:{ simplify_eq. split_and!; try done.
      rewrite andb_false_iff, !bool_decide_eq_false in Hc. lia. }
  rewrite andb_true_iff, !bool_decide_eq_true in Hc. destruct Hc as [Hnum Hn].
  destruct q as [|bucket rest]; [discriminate|].
  destruct Hq as [Hin Hdis]. simpl in Hdis. destruct Hdis as [Hb Hrest].
  apply Forall_cons in Hin as [Hbin Hrin].
  case_bool_decide as H1.
  - (* a bucket of at most one member goes back to the queue *)
    apply IH in H as (Hq' & Hlen & Hperm & Hne & Hpos & Hkeep & Hcap & Hstop).
    2:{ split; [apply Forall_app; by repeat constructor|].
        apply pairwise_disjoint_app. split_and!; [done|by repeat constructor|].
        eapply Forall_impl; [exact Hb|]. intros b' Hb'. simpl in Hb'.
        apply Forall_cons. split; [by apply disjoint_sym|constructor]. }
    split_and!; try done.
    + rewrite Hperm, members_app, members_one, members_cons.
      apply Permutation_app_comm.
    + intros _. apply Hne. by destruct rest.
    + intros Hall. apply Hpos. apply Forall_cons in Hall as [? ?].
      apply Forall_app. by repeat constructor.
    + intros b Hbq. apply Hkeep. rewrite elem_of_app, list_elem_of_singleton.
      apply elem_of_cons in Hbq. tauto.
    + intros Hle. apply Hcap. rewrite length_app. simpl in *. lia.
  - case_bool_decide as H2.
    + (* a bucket of two members is cut in the middle *)
      pose proof (within_cut st bucket 1 ltac:(lia) Hbin) as [Hw1 Hw2].
      change (bucketize_loop fuel st
                (rest ++ [(cut bucket 1).1; (cut bucket 1).2]) num n
              = Ok (st', res)) in H.
      apply IH in H as (Hq' & Hlen & Hperm & Hne & Hpos & Hkeep & Hcap & Hstop).
      2:{ split; [apply Forall_app; by repeat constructor|].
          apply pairwise_disjoint_app. split_and!; [done| |].
          - simpl. split_and!; try done.
            apply Forall_cons. split; [apply disjoint_cut|constructor].
          - eapply Forall_impl; [exact Hb|]. intros b' Hb'. simpl in Hb'.
            apply disjoint_sym in Hb'.
            destruct (disjoint_cut_l b' bucket 1 ltac:(lia) Hb').
            apply Forall_cons. split; [done|].
            apply Forall_cons. split; [done|constructor]. }
      split_and!; try done.
      * rewrite Hperm, members_app, members_two, members_cons.
        rewrite contents_cut by lia. apply Permutation_app_comm.
      * intros _. apply Hne. by destruct rest.
      * intros Hall. apply Hpos. apply Forall_cons in Hall as [? ?].
        apply Forall_app. split; [done|]. repeat constructor; simpl; lia.
      * intros b Hbq Hb1. apply Hkeep; [|done]. rewrite elem_of_app.
        apply elem_of_cons in Hbq as [->|?]; [lia|tauto].
      * intros Hle. apply Hcap. rewrite length_app. simpl in *. lia.
    + (* a larger bucket is partitioned *)
      inv_bind H. destruct t as [[st1 l] r].
      apply partition_spec in Ht as (k & Hk & -> & -> & Hl1 & Hp1 & Hf1); [|lia].
      pose proof (within_cut st bucket k ltac:(lia) Hbin) as [Hw1 Hw2].
      assert (Hframe : Forall (λ b, contents st1 b = contents st b) rest).
      { eapply Forall_impl; [exact Hb|]. intros b' Hb'. simpl in Hb'.
        apply Hf1. by apply disjoint_sym. }
      apply IH in H as (Hq' & Hlen & Hperm & Hne & Hpos & Hkeep & Hcap & Hstop).
      2:{ split.
          - apply Forall_app. split.
            + eapply Forall_impl; [exact Hrin|]. intros b'. by apply within_length.
            + repeat constructor; by eapply within_length.
          - apply pairwise_disjoint_app. split_and!; [done| |].
            + simpl. split_and!; try done.
              apply Forall_cons. split; [apply disjoint_cut|constructor].
            + eapply Forall_impl; [exact Hb|]. intros b' Hb'. simpl in Hb'.
              apply disjoint_sym in Hb'.
              destruct (disjoint_cut_l b' bucket k ltac:(lia) Hb').
              apply Forall_cons. split; [done|].
              apply Forall_cons. split; [done|constructor]. }
      split_and!; try done.
      * congruence.
      * rewrite Hperm, members_app, members_two, members_cons.
        rewrite contents_cut by lia.
        rewrite (members_frame _ _ _ Hframe), Hp1. apply Permutation_app_comm.
      * intros _. apply Hne. by destruct rest.
      * intros Hall. apply Hpos. apply Forall_cons in Hall as [? ?].
        apply Forall_app. split; [done|]. repeat constructor; simpl; lia.
      * intros b Hbq Hb1.
        apply elem_of_cons in Hbq as [->|Hbr]; [lia|].
        destruct (Hkeep b) as [? Hsame]; [rewrite elem_of_app; tauto|done|].
        split; [done|]. rewrite Hsame.
        rewrite Forall_forall in Hframe. by apply Hframe.
      * intros Hle. apply Hcap. rewrite length_app. simpl in *. lia.
Qed.

Lemma buckets_weight_members st q : buckets_weight st q = weight (members st q).
Proof.
  induction q as [|b q IH]; [done|].
  rewrite members_cons, weight_app. simpl. lia.
Qed.

Lemma queue_ok_one st colors : within st colors → queue_ok st [colors].
Proof. intros H. split; [by repeat constructor|]. simpl. split; [constructor|done]. Qed.

(** [bucketize] hands out the members it was given: its buckets hold a
    permutation of them, each bucket lying in the backing array apart from
    the others. *)
Lemma bucketize_spec fuel st colors num st' buckets :
  within st colors → num ≠ 0 →
  bucketize fuel st colors num = Ok (st', buckets) →
  queue_ok st' buckets
  ∧ length st' = length st
  ∧ members st' buckets ≡ₚ contents st colors
  ∧ ((1 ≤ len colors)%nat → buckets ≠ [] ∧ Forall (λ b, 1 ≤ len b)%nat buckets)
  ∧ (1 ≤ num → Z.of_nat (length buckets) ≤ num)
  ∧ ¬ (Z.of_nat (length buckets) < num ∧ (length buckets < len colors)%nat).
Proof.
  intros Hin Hnum H. unfold bucketize in H.
  case_bool_decide as H0; simpl in H.
  { simplify_eq. split_and!.
    - split; [constructor|done].
    - done.
    - unfold contents. by rewrite H0.
    - lia.
    - simpl. lia.
    - simpl. lia. }
  rewrite bool_decide_false in H by done. simpl in H.
  destruct (makeslice _ _ _) eqn:Hcap; [|discriminate]. simpl in H.
  apply bucketize_loop_spec in H
    as (Hq & Hlen & Hperm & Hne & Hpos & _ & Hle & Hstop); [|by apply queue_ok_one].
  rewrite members_one in Hperm.
  split_and!; try done.
  intros ?. split; [by apply Hne|]. apply Hpos. by repeat constructor.
Qed.

(** C6. Every bucket [bucketize] delivers has at least one member, for every
    non-empty colour list and every positive target count; and it delivers
    at least one bucket. *)
Theorem bucketize_buckets_nonempty fuel st colors num st' buckets :
  within st colors → (1 ≤ len colors)%nat → 0 < num →
  bucketize fuel st colors num = Ok (st', buckets) →
  buckets ≠ [] ∧ Forall (λ b, 1 ≤ length (contents st' b))%nat buckets.
Proof.
  intros Hin Hlen Hnum H.
  apply bucketize_spec in H as ((Hw & _) & _ & _ & Hne & _); [|done|lia].
  destruct (Hne Hlen) as [? Hpos]. split; [done|].
  rewrite Forall_forall in Hw, Hpos. apply Forall_forall. intros b Hb.
  rewrite length_contents by auto. auto.
Qed.

Lemma bucketize_buckets_nonempty_witness :
  match bucketize 10 tie_store tie_bucket 2 with
  | Ok (st', buckets) =>
      buckets ≠ [] ∧ Forall (λ b, 1 ≤ length (contents st' b))%nat buckets
  | _ => False
  end.
Proof.
  destruct (bucketize 10 tie_store tie_bucket 2) as [[st' buckets]| |] eqn:E.
  - apply (bucketize_buckets_nonempty 10 tie_store tie_bucket 2 st' buckets);
      [unfold within; simpl; lia | simpl; lia | lia | exact E].
  - vm_compute in E. discriminate E.
  - vm_compute in E. discriminate E.
Defined.

(** C8. In the loop of [bucketize] a dequeued bucket with at most one member
    is not split: the next state of the loop is the same backing array with
    that bucket moved, as it is, to the back of the queue.  Hence a bucket
    of at most one member that is in the queue is among the buckets handed
    to synthesis, with the members it had when it was in the queue. *)
Theorem bucketize_singleton_kept fuel st q num n :
  (∀ bucket rest,
     q = bucket :: rest → (len bucket ≤ 1)%nat →
     Z.of_nat (length q) < num → (length q < n)%nat →
     bucketize_loop (S fuel) st q num n
     = bucketize_loop fuel st (rest ++ [bucket]) num n)
  ∧ (∀ st' res,
       queue_ok st q →
       bucketize_loop fuel st q num n = Ok (st', res) →
       ∀ b, b ∈ q → (len b ≤ 1)%nat → b ∈ res ∧ contents st' b = contents st b).
Proof.
  split.
  - intros bucket rest -> Hlen Hnum Hn.
    cbn [bucketize_loop].
    rewrite !bool_decide_true by done. cbn [andb].
    by rewrite bool_decide_true by lia.
  - intros st' res Hq H.
    by apply bucketize_loop_spec in H as (_ & _ & _ & _ & _ & Hkeep & _).
Qed.

Lemma bucketize_singleton_kept_witness :
  bucketize_loop 11 tie_store tie_queue 3 3
  = bucketize_loop 10 tie_store [mkBucket 1 2; mkBucket 0 1] 3 3
  ∧ match bucketize_loop 10 tie_store tie_queue 3 3 with
    | Ok (st', res) =>
        mkBucket 0 1 ∈ res
        ∧ contents st' (mkBucket 0 1) = contents tie_store (mkBucket 0 1)
    | _ => False
    end.
Proof.
  destruct (bucketize_singleton_kept 10 tie_store tie_queue 3 3) as [Hstep Hkeep].
  split.
  - apply (Hstep (mkBucket 0 1) [mkBucket 1 2]); [done | simpl; lia ..].
  - destruct (bucketize_loop 10 tie_store tie_queue 3 3) as [[st' res]| |] eqn:E.
    + apply (Hkeep st' res); [| done | left | simpl; lia].
      split.
      * repeat (apply Forall_cons; split); [unfold within; simpl; lia ..|constructor].
      * simpl. split_and!; try done.
        apply Forall_cons. split; [unfold disjoint; simpl; lia|constructor].
    + vm_compute in E. discriminate E.
    + vm_compute in E. discriminate E.
Defined.

(** ** The bucket pool *)

Lemma clear_loop buf cb n :
  off cb = 0%nat → (n ≤ length buf)%nat →
  foldl (λ st i, write st cb (Z.of_nat i) zeroColor) buf (seq 0 n)
  = replicate n zeroColor ++ drop n buf.
Proof.
  intros Hoff. induction n as [|n IH]; intros Hn; [done|].
  rewrite seq_S, foldl_app, IH by lia. simpl.
  unfold write. rewrite Hoff, Nat2Z.id. simpl.
  rewrite insert_app_r_alt by (rewrite length_replicate; lia).
  rewrite length_replicate, Nat.sub_diag.
  destruct (drop n buf) as [|x rest] eqn:E.
  { apply (f_equal length) in E. rewrite length_drop in E. simpl in E. lia. }
  simpl. rewrite cons_middle, app_assoc, <- replicate_S_end. simpl. do 2 f_equal.
  replace (S n) with (n + 1)%nat by lia. by rewrite <- drop_drop, E.
Qed.

Lemma clear_prefix buf n :
  (n ≤ length buf)%nat →
  clear buf (mkBucket 0 n) = replicate n zeroColor ++ drop n buf.
Proof. intros. unfold clear. by apply clear_loop. Qed.

Lemma contents_from_start (st : store) n : contents st (mkBucket 0 n) = take n st.
Proof. unfold contents. simpl. by rewrite drop_0. Qed.

Lemma makeslice_true size len cap :
  0 ≤ len ≤ cap → size * cap ≤ maxAlloc → makeslice size len cap = true.
Proof. intros. unfold makeslice. by rewrite !bool_decide_true by lia. Qed.

Lemma makeslice_inv size len cap :
  makeslice size len cap = true → 0 ≤ len ≤ cap ∧ size * cap ≤ maxAlloc.
Proof.
  unfold makeslice. intros H. apply andb_true_iff in H as [H1 H2].
  apply bool_decide_eq_true in H1, H2. lia.
Qed.

Lemma make_bucket_Ok m c :
  0 ≤ c ≤ m → 8 * m ≤ maxAlloc →
  make_bucket m c = Ok (replicate (Z.to_nat m) zeroColor, mkBucket 0 (Z.to_nat c)).
Proof.
  intros. unfold make_bucket, sizeof_colorPriority.
  rewrite makeslice_true by lia. by rewrite bool_decide_true by lia.
Qed.

Lemma make_bucket_inv m c st slice :
  make_bucket m c = Ok (st, slice) →
  0 ≤ c ≤ m ∧ 8 * m ≤ maxAlloc
  ∧ st = replicate (Z.to_nat m) zeroColor ∧ slice = mkBucket 0 (Z.to_nat c).
Proof.
  unfold make_bucket, sizeof_colorPriority. intros H.
  destruct (makeslice 8 m m) eqn:E; [|done].
  apply makeslice_inv in E. simpl in H. case_bool_decide; simplify_eq.
  split_and!; (done || lia).
Qed.

(** The high-water mark [getBucket] computes stays within the larger of the
    request and the mark it found. *)
Lemma mark_bound (m c : Z) :
  0 ≤ c → 8 * c ≤ maxAlloc → 8 * m ≤ maxAlloc →
  let m1 := if bool_decide (m > c) then wrap_int (m * 99) `quot` 100 else m in
  let m2 := if bool_decide (m1 < c) then c else m1 in
  c ≤ m2 ∧ 8 * m2 ≤ maxAlloc.
Proof.
  intros Hc Hcl Hm. unfold maxAlloc in *. simpl.
  destruct (decide (m > c)) as [H1|H1].
  - rewrite (bool_decide_true (m > c)) by done.
    rewrite wrap_int_small by lia.
    assert (0 ≤ (m * 99) `quot` 100 ≤ m).
    { rewrite Z.quot_div_nonneg by lia.
      split; [apply Z.div_pos; lia|]. apply Z.div_le_upper_bound; lia. }
    case_bool_decide; lia.
  - rewrite (bool_decide_false (m > c)) by done.
    case_bool_decide; lia.
Qed.

(** What [getBucket] returns, in both of its cases: the released buffer the
    pool handed back, cleared over its first [c] slots, or a new buffer of
    the size of the high-water mark. *)
Lemma getBucket_returns bp pick c :
  0 ≤ c → 8 * c ≤ maxAlloc → 8 * maxCap bp ≤ maxAlloc →
  ∃ bp' st,
    getBucket bp pick c = Ok (bp', st, mkBucket 0 (Z.to_nat c))
    ∧ c ≤ maxCap bp'
    ∧ match (Pool_Get (Pool bp) pick).1 with
      | Some buf =>
          if bool_decide (c ≤ Z.of_nat (length buf))
          then st = replicate (Z.to_nat c) zeroColor ++ drop (Z.to_nat c) buf
          else st = replicate (Z.to_nat (maxCap bp')) zeroColor
      | None => st = replicate (Z.to_nat (maxCap bp')) zeroColor
      end.
Proof.
  intros Hc Hcl Hm. unfold getBucket.
  destruct (mark_bound (maxCap bp) c Hc Hcl Hm) as [? ?].
  set (m1 := if bool_decide (maxCap bp > c) then _ else _) in *.
  set (m2 := if bool_decide (m1 < c) then c else m1) in *.
  destruct (Pool_Get (Pool bp) pick) as [[buf|] rest]; simpl.
  - case_bool_decide as Hcap.
    + rewrite make_bucket_Ok by lia. simpl.
      eexists _, _. split_and!; [done|done|].
      by rewrite bool_decide_false by lia.
    + rewrite bool_decide_true by done.
      rewrite clear_prefix by lia.
      eexists _, _. split_and!; [done|done|].
      by rewrite bool_decide_true by lia.
  - rewrite make_bucket_Ok by lia. simpl.
    eexists _, _. by split_and!.
Qed.

Lemma contents_fresh c m :
  0 ≤ c ≤ m →
  contents (replicate (Z.to_nat m) zeroColor) (mkBucket 0 (Z.to_nat c))
  = replicate (Z.to_nat c) zeroColor.
Proof. intros. rewrite contents_from_start, take_replicate. f_equal. lia. Qed.

Lemma contents_cleared (buf : store) n :
  contents (replicate n zeroColor ++ drop n buf) (mkBucket 0 n) = replicate n zeroColor.
Proof.
  rewrite contents_from_start. by rewrite take_app_length' by (by rewrite length_replicate).
Qed.

(** The buffer [getBucket] returns shows [c] zero values. *)
Lemma getBucket_spec bp pick c :
  0 ≤ c → 8 * c ≤ maxAlloc → 8 * maxCap bp ≤ maxAlloc →
  ∃ bp' st,
    getBucket bp pick c = Ok (bp', st, mkBucket 0 (Z.to_nat c))
    ∧ contents st (mkBucket 0 (Z.to_nat c)) = replicate (Z.to_nat c) zeroColor.
Proof.
  intros Hc Hcl Hm.
  destruct (getBucket_returns bp pick c Hc Hcl Hm) as (bp' & st & E & Hcap & Hst).
  exists bp', st. split; [done|].
  destruct (Pool_Get (Pool bp) pick).1 as [buf|]; [case_bool_decide|]; subst st;
    auto using contents_cleared, contents_fresh.
Qed.

Lemma getBucket_Ok bp pick c bp' st sb :
  getBucket bp pick c = Ok (bp', st, sb) →
  0 ≤ c ∧ sb = mkBucket 0 (Z.to_nat c)
  ∧ contents st sb = replicate (Z.to_nat c) zeroColor.
Proof.
  intros H. unfold getBucket in H.
  destruct (Pool_Get (Pool bp) pick) as [[buf|] rest].
  - case_bool_decide as Hcap.
    + inv_bind H. destruct t as [st1 sl]. simplify_eq.
      apply make_bucket_inv in Ht as (? & ? & -> & ->).
      split_and!; [lia|done|by apply contents_fresh].
    + case_bool_decide; simplify_eq.
      split_and!; [done|done|].
      rewrite clear_prefix by lia. apply contents_cleared.
  - inv_bind H. destruct t as [st1 sl]. simplify_eq.
    apply make_bucket_inv in Ht as (? & ? & -> & ->).
    split_and!; [lia|done|by apply contents_fresh].
Qed.

(** What a call of [getBucket] that returns has done. *)
Lemma getBucket_inv bp pick c bp' st slice :
  getBucket bp pick c = Ok (bp', st, slice) →
  0 ≤ c ∧ slice = mkBucket 0 (Z.to_nat c) ∧ c ≤ maxCap bp'
  ∧ match (Pool_Get (Pool bp) pick).1 with
    | Some buf =>
        if bool_decide (c ≤ Z.of_nat (length buf))
        then st = replicate (Z.to_nat c) zeroColor ++ drop (Z.to_nat c) buf
        else st = replicate (Z.to_nat (maxCap bp')) zeroColor
             ∧ 8 * maxCap bp' ≤ maxAlloc
    | None => st = replicate (Z.to_nat (maxCap bp')) zeroColor
              ∧ 8 * maxCap bp' ≤ maxAlloc
    end.
Proof.
  intros H. unfold getBucket in H.
  set (m1 := if bool_decide (maxCap bp > c) then _ else _) in *.
  set (m2 := if bool_decide (m1 < c) then c else m1) in *.
  destruct (Pool_Get (Pool bp) pick) as [[buf|] rest]; simpl.
  - case_bool_decide as Hcap.
    + inv_bind H. destruct t as [st1 sl]. simplify_eq.
      apply make_bucket_inv in Ht as (? & ? & -> & ->). simpl.
      rewrite bool_decide_false by lia. split_and!; (done || lia).
    + case_bool_decide; simplify_eq. simpl.
      rewrite bool_decide_true by lia. rewrite clear_prefix by lia.
      split_and!; [done|done| |done].
      unfold m2. case_bool_decide; lia.
  - inv_bind H. destruct t as [st1 sl]. simplify_eq.
    apply make_bucket_inv in Ht as (? & ? & -> & ->). simpl.
    split_and!; (done || lia).
Qed.

(** C9. Every call [getBucket(c)] that returns hands out a buffer of length
    exactly [c] whose entries are all the zero value.  When the pool hands
    back a released buffer of capacity at least [c], that buffer is the one
    returned, trimmed to [c] and cleared over that length, with its
    capacity; otherwise the buffer is a new one, allocated at the high-water
    mark the pool then holds, which is at least [c].  The call returns for
    every length [c] from zero on, as long as [c] entries and the mark found
    in the pool are sizes that [make] accepts (8 bytes an entry, at most
    [maxAlloc] bytes). *)
Theorem getBucket_zeroed bp pick c :
  (∀ bp' st slice,
     getBucket bp pick c = Ok (bp', st, slice) →
     Z.of_nat (len slice) = c
     ∧ length (contents st slice) = len slice
     ∧ Forall (λ e, e = zeroColor) (contents st slice)
     ∧ c ≤ maxCap bp'
     ∧ match (Pool_Get (Pool bp) pick).1 with
       | Some buf =>
           if bool_decide (c ≤ Z.of_nat (length buf))
           then drop (len slice) st = drop (len slice) buf ∧ length st = length buf
           else Z.of_nat (length st) = maxCap bp'
       | None => Z.of_nat (length st) = maxCap bp'
       end)
  ∧ (0 ≤ c → sizeof_colorPriority * c ≤ maxAlloc →
     sizeof_colorPriority * maxCap bp ≤ maxAlloc →
     ∃ bp' st slice, getBucket bp pick c = Ok (bp', st, slice)).
Proof.
  split.
  - intros bp' st slice E.
    destruct (getBucket_Ok _ _ _ _ _ _ E) as (Hc & -> & Hzero).
    apply getBucket_inv in E as (_ & _ & Hcap & Hst).
    split_and!; [simpl; lia| | |done|].
    + by rewrite Hzero, length_replicate.
    + rewrite Hzero. apply Forall_forall. intros e He.
      by apply elem_of_replicate in He as [-> _].
    + simpl. destruct (Pool_Get (Pool bp) pick).1 as [buf|]; [case_bool_decide|].
      * subst st. split.
        -- by rewrite drop_app_length' by (by rewrite length_replicate).
        -- rewrite length_app, length_replicate, length_drop. lia.
      * destruct Hst as [-> _]. rewrite length_replicate. lia.
      * destruct Hst as [-> _]. rewrite length_replicate. lia.
  - intros Hc Hcl Hm.
    destruct (getBucket_returns bp pick c Hc Hcl Hm) as (bp' & st & E & _).
    eauto.
Qed.

Lemma getBucket_zeroed_witness :
  ∃ bp' st slice,
    getBucket used_pool (Some 0%nat) 5 = Ok (bp', st, slice)
    ∧ Z.of_nat (len slice) = 5
    ∧ length (contents st slice) = len slice
    ∧ Forall (λ e, e = zeroColor) (contents st slice)
    ∧ 5 ≤ maxCap bp'
    ∧ drop (len slice) st
      = drop (len slice) (replicate 8 (mkColorPriority 3 (color.mkRGBA 1 2 3 255)))
    ∧ length st = 8%nat.
Proof.
  destruct (getBucket_zeroed used_pool (Some 0%nat) 5) as [Hall Hret].
  destruct Hret as (bp' & st & slice & E);
    [lia | vm_compute; discriminate | vm_compute; discriminate |].
  exists bp', st, slice. split; [exact E|]. exact (Hall bp' st slice E).
Defined.

(** ** The scan of the pixels *)

Lemma for_each_app {S X} (body : S → X → result S) l1 l2 : ∀ s,
  for_each body s (l1 ++ l2) = for_each body s l1 ≫= λ s', for_each body s' l2.
Proof.
  induction l1 as [|x l1 IH]; intros s; simpl; [done|].
  destruct (body s x); simpl; auto.
Qed.

Lemma for_each_fmap {S X Y} (body : S → Y → result S) (f : X → Y) l : ∀ s,
  for_each body s (f <$> l) = for_each (λ s x, body s (f x)) s l.
Proof.
  induction l as [|x l IH]; intros s; simpl; [done|].
  destruct (body s (f x)); simpl; auto.
Qed.


(** The nested loops visit the samples one after the other. *)
Lemma scan_flat q fuel sb size ms : ∀ st,
  for_each (scan_image q fuel sb size) st ms
  = for_each (add_sample fuel sb size) st (samples q ms).
Proof.
  unfold samples. induction ms as [|m ms IH]; intros st; simpl; [done|].
  rewrite for_each_app.
  assert (scan_image q fuel sb size st m
          = for_each (add_sample fuel sb size) st (samples_of q m)) as ->.
  { unfold scan_image, samples_of. by rewrite for_each_fmap. }
  destruct (for_each _ st (samples_of q m)); simpl; auto.
Qed.

(** A probe that returns has written one slot: a slot that was free, or the
    slot of the colour. *)
Lemma probe_Ok fuel st sb size c w : ∀ index i st',
  probe fuel st sb size c w index i = Ok st' →
  ∃ slot old,
    read st sb slot = Ok old
    ∧ (p old = 0 ∨ RGBA old = c)
    ∧ st' = write st sb slot (mkColorPriority (wrap_u32 (p old + w)) c).
Proof.
  induction fuel as [|fuel IH]; intros index i st' H; simpl in H; [discriminate|].
  case_bool_decide; [discriminate|].
  destruct (read st sb (index `rem` size)) as [old| |] eqn:E; simpl in H;
    try discriminate.
  destruct (_ || _) eqn:Hc.
  - injection H as <-. exists (index `rem` size), old. split_and!; [done| |done].
    apply orb_true_iff in Hc as [Hc|Hc]; apply bool_decide_eq_true in Hc; auto.
  - by apply IH in H.
Qed.

Lemma weight_insert l i a b :
  l !! i = Some a → weight (<[i:=b]> l) = weight l - p a + p b.
Proof.
  revert i. induction l as [|x l IH]; intros [|i] H; simplify_eq/=; [lia|].
  rewrite (IH _ H). lia.
Qed.

Lemma weight_replicate_zero n : weight (replicate n zeroColor) = 0.
Proof. induction n as [|n IH]; simpl; [done|]. rewrite IH. done. Qed.

Lemma pixel_weight_app l1 l2 : pixel_weight (l1 ++ l2) = pixel_weight l1 + pixel_weight l2.
Proof. induction l1 as [|s l1 IH]; simpl; lia. Qed.

Lemma pixel_weight_nonneg l : Forall (λ s, 0 ≤ s.1) l → 0 ≤ pixel_weight l.
Proof. induction 1; simpl; lia. Qed.

Lemma color_weight_app c l1 l2 :
  color_weight c (l1 ++ l2) = color_weight c l1 + color_weight c l2.
Proof. unfold color_weight. by rewrite filter_app, pixel_weight_app. Qed.

Lemma color_weight_nonneg c l : Forall (λ s, 0 ≤ s.1) l → 0 ≤ color_weight c l.
Proof.
  intros H. apply pixel_weight_nonneg.
  apply Forall_forall. intros s Hs. apply list_elem_of_filter in Hs as [_ Hs].
  rewrite Forall_forall in H. auto.
Qed.

Lemma color_weight_cons c s l :
  color_weight c (s :: l) = (if decide (s.2 = c) then s.1 else 0) + color_weight c l.
Proof.
  unfold color_weight. rewrite filter_cons. destruct (decide (s.2 = c)); simpl; lia.
Qed.

(** While the scan runs, every slot of the table holds at most the weight of
    the pixels of its colour seen so far, and the table as a whole holds the
    weight of all the pixels seen so far; no 32-bit sum wraps as long as the
    weight of each colour fits in 32 bits. *)
Lemma scan_invariant fuel sb size : ∀ todo done st st',
  Forall (λ s, 0 ≤ s.1) (done ++ todo) →
  (∀ c, color_weight c (done ++ todo) < 2 ^ 32) →
  Forall (λ e, 0 ≤ p e ≤ color_weight (RGBA e) done) (contents st sb) →
  weight (contents st sb) = pixel_weight done →
  for_each (add_sample fuel sb size) st todo = Ok st' →
  length st' = length st
  ∧ Forall (λ e, 0 ≤ p e ≤ color_weight (RGBA e) (done ++ todo)) (contents st' sb)
  ∧ weight (contents st' sb) = pixel_weight (done ++ todo).
Proof.
  induction todo as [|s todo IH]; intros done st st' Hpos Hfit Hslots Hsum H.
  { simpl in H. injection H as <-. by rewrite app_nil_r. }
  simpl in H. inv_bind H. rename t into st1.
  replace (done ++ s :: todo) with ((done ++ [s]) ++ todo) in *
    by by rewrite <- app_assoc.
  assert (Hs : 0 ≤ s.1).
  { rewrite Forall_forall in Hpos. apply Hpos.
    rewrite !elem_of_app, list_elem_of_singleton. auto. }
  assert (Hmono : ∀ c, color_weight c done ≤ color_weight c (done ++ [s])
                       ∧ color_weight c (done ++ [s]) < 2 ^ 32).
  { intros c. specialize (Hfit c). rewrite !color_weight_app in *.
    assert (0 ≤ color_weight c todo).
    { apply color_weight_nonneg. by apply Forall_app in Hpos as [_ ?]. }
    assert (0 ≤ color_weight c [s]).
    { apply color_weight_nonneg. by repeat constructor. }
    lia. }
  unfold add_sample in Ht. case_bool_decide as Hw.
  - apply probe_Ok in Ht as (slot & old & Hread & Hfree & ->).
    apply read_Ok in Hread as [Hslot Hold].
    assert (Hnew : 0 ≤ p old ∧ p old + s.1 ≤ color_weight s.2 (done ++ [s])).
    { rewrite Forall_forall in Hslots.
      specialize (Hslots old ltac:(by eapply list_elem_of_lookup_2)).
      rewrite color_weight_app, color_weight_cons.
      rewrite decide_True by done. unfold color_weight at 2. simpl.
      destruct Hfree as [Hz| <-]; [|lia].
      assert (0 ≤ color_weight s.2 done).
      { apply color_weight_nonneg. apply Forall_app in Hpos as [Hd _].
        by apply Forall_app in Hd as [? _]. }
      lia. }
    pose proof (Hmono s.2) as [_ ?].
    apply (IH (done ++ [s])) in H as (Hlen & Hslots' & Hsum'); try done.
    + by rewrite Hlen, length_write.
    + rewrite contents_write_in by done.
      apply Forall_insert; [|simpl; rewrite wrap_u32_small by lia; lia].
      eapply Forall_impl; [exact Hslots|]. intros e He. simpl in He.
      pose proof (Hmono (RGBA e)). lia.
    + rewrite contents_write_in by done.
      rewrite (weight_insert _ _ old) by done. simpl.
      rewrite wrap_u32_small by lia. rewrite pixel_weight_app. simpl. lia.
  - injection Ht as <-.
    apply (IH (done ++ [s])) in H as (Hlen & Hslots' & Hsum'); try done.
    + eapply Forall_impl; [exact Hslots|]. intros e He. simpl in He.
      pose proof (Hmono (RGBA e)). lia.
    + rewrite pixel_weight_app. simpl. lia.
Qed.

(** ** The compaction of the table *)

Lemma compact_loop_spec conv ycbcr sb st : ∀ i st' n,
  (i ≤ len sb)%nat → within st sb →
  foldl (compact_step conv ycbcr sb) (st, 0%nat) (seq 0 i) = (st', n) →
  (n ≤ i)%nat
  ∧ length st' = length st
  ∧ take n (drop (off sb) st')
    = emit conv ycbcr <$> filter (λ c, p c ≠ 0) (take i (drop (off sb) st))
  ∧ drop (off sb + i) st' = drop (off sb + i) st.
Proof.
  induction i as [|i IH]; intros st' n Hi Hin H.
  { simpl in H. injection H as <- <-. by split_and!. }
  rewrite seq_S, foldl_app in H. simpl in H.
  destruct (foldl _ _ (seq 0 i)) as [st1 n1] eqn:E.
  destruct (IH st1 n1 ltac:(lia) Hin eq_refl) as (Hn & Hlen & Htake & Hdrop).
  unfold within in Hin.
  assert (Hlook : st1 !! (off sb + i)%nat = st !! (off sb + i)%nat).
  { rewrite <- (Nat.add_0_r (off sb + i)), <- !lookup_drop. by rewrite Hdrop. }
  destruct (lookup_lt_is_Some_2 st (off sb + i)) as [c Hc]; [lia|].
  assert (Hnext : take (S i) (drop (off sb) st) = take i (drop (off sb) st) ++ [c]).
  { apply take_S_r. by rewrite lookup_drop. }
  simpl in H. rewrite Hlook, Hc in H.
  rewrite Hnext, filter_app, fmap_app.
  assert (Hrest : ∀ st2 : store,
            drop (off sb + S i) st2 = drop 1 (drop (off sb + i) st2)).
  { intros st2. rewrite drop_drop. f_equal. lia. }
  case_bool_decide as Hp; injection H as <- <-.
  - rewrite filter_cons_True, filter_nil by done. simpl.
    split_and!.
    + lia.
    + by rewrite length_insert.
    + erewrite take_S_r.
      * rewrite drop_insert_ge, take_insert_ge by lia. by rewrite Htake.
      * rewrite lookup_drop. apply list_lookup_insert_eq. lia.
    + rewrite drop_insert_lt by lia. by rewrite !Hrest, Hdrop.
  - rewrite filter_cons_False, filter_nil by (intros ?; done).
    simpl. rewrite app_nil_r.
    split_and!; [lia | done | done |].
    by rewrite !Hrest, Hdrop.
Qed.

(** The bucket [compact] returns holds the slots of non-zero priority, in the
    order of the table. *)
Lemma compact_spec conv ycbcr st sb st' bucket :
  within st sb →
  compact conv ycbcr st sb = (st', bucket) →
  length st' = length st
  ∧ within st' bucket
  ∧ off bucket = off sb
  ∧ contents st' bucket = emit conv ycbcr <$> filter (λ c, p c ≠ 0) (contents st sb).
Proof.
  intros Hin H. unfold compact in H.
  destruct (foldl _ _ _) as [st1 n] eqn:E. injection H as <- <-.
  apply compact_loop_spec in E as (Hn & Hlen & Htake & _); [|done|done].
  unfold within in *. simpl. split_and!; [done|lia|done|].
  unfold contents. simpl. done.
Qed.

(** ** [buildBucketMultiple] *)

Lemma within_zeroed (st : store) n x :
  contents st (mkBucket 0 n) = replicate n x → within st (mkBucket 0 n).
Proof.
  intros H. apply (f_equal length) in H.
  rewrite contents_from_start, length_take, length_replicate in H.
  unfold within. simpl. lia.
Qed.

Lemma weight_nonzero conv ycbcr l :
  weight (emit conv ycbcr <$> filter (λ c, p c ≠ 0) l) = weight l.
Proof.
  induction l as [|c l IH]; [done|].
  rewrite filter_cons. destruct (decide (p c ≠ 0)) as [Hc|Hc].
  - rewrite fmap_cons. simpl. rewrite IH.
    unfold emit. destruct ycbcr; [|done].
    by destruct (conv _ _ _) as [[? ?] ?].
  - simpl. rewrite IH. lia.
Qed.

Lemma emit_p conv ycbcr c : p (emit conv ycbcr c) = p c.
Proof. unfold emit. destruct ycbcr; [|done]. by destruct (conv _ _ _) as [[? ?] ?]. Qed.

(** The colour list [buildBucketMultiple] returns: a slice of the backing
    array whose members have positive 32-bit priorities, of total weight the
    weight of the pixels, provided the weight of each colour fits 32 bits. *)
Lemma buildBucketMultiple_spec conv q fuel bp pick ms bp' st bucket :
  Forall (λ s, 0 ≤ s.1) (samples q ms) →
  (∀ c, color_weight c (samples q ms) < 2 ^ 32) →
  buildBucketMultiple conv q fuel bp pick ms = Ok (bp', st, bucket) →
  within st bucket
  ∧ Forall positive_u32 (contents st bucket)
  ∧ weight (contents st bucket) = pixel_weight (samples q ms).
Proof.
  intros Hpos Hfit H. unfold buildBucketMultiple in H.
  destruct ms as [|first rest].
  { simplify_eq. split_and!; [unfold within; simpl; lia|constructor|done]. }
  remember (first :: rest) as ms eqn:Ems.
  inv_bind H. destruct t as [[bp1 st0] sb]. inv_bind H. rename t into st1.
  destruct (compact conv (image.is_YCbCr first) st1 sb) as [st2 b] eqn:Ec.
  simplify_eq.
  apply getBucket_Ok in Ht as (Hsize & -> & Hzero).
  pose proof (within_zeroed _ _ _ Hzero) as Hin.
  rewrite scan_flat in Ht0.
  apply (scan_invariant _ _ _ _ []) in Ht0 as (Hlen & Hslots & Hsum); try done.
  - apply compact_spec in Ec as (Hlen2 & Hin2 & _ & Hcont);
      [|by eapply within_length].
    split_and!; [done| |].
    + rewrite Hcont. apply Forall_fmap, Forall_forall. intros e He.
      apply list_elem_of_filter in He as [Hne He].
      rewrite Forall_forall in Hslots. specialize (Hslots e He).
      specialize (Hfit (RGBA e)). unfold positive_u32. simpl.
      rewrite emit_p. simpl in Hslots. lia.
    + by rewrite Hcont, weight_nonzero.
  - rewrite Hzero. apply Forall_forall. intros e He.
    apply elem_of_replicate in He as [-> _]. done.
  - by rewrite Hzero, weight_replicate_zero.
Qed.

Lemma color_weight_le c l :
  Forall (λ s, 0 ≤ s.1) l → color_weight c l ≤ pixel_weight l.
Proof.
  induction 1 as [|s l Hs _ IH]; [done|].
  rewrite color_weight_cons. simpl. destruct (decide _); lia.
Qed.

(** C4, as amended.  When the colour list comes out of the aggregation of
    pixels whose weight, colour by colour, fits the 32-bit accumulators, and
    [bucketize] is asked for a positive number of buckets, the sum of the
    total weights of the buckets it returns is the sum of the weights of the
    aggregated colours, which is the sum of the weights of the pixels. *)
Theorem weight_conserved conv q fuel bp pick ms bp' st colors fuel' num st' buckets :
  Forall (λ s, 0 ≤ s.1) (samples q ms) →
  (∀ c, color_weight c (samples q ms) < 2 ^ 32) →
  0 < num →
  buildBucketMultiple conv q fuel bp pick ms = Ok (bp', st, colors) →
  bucketize fuel' st colors num = Ok (st', buckets) →
  buckets_weight st' buckets = weight (contents st colors)
  ∧ weight (contents st colors) = pixel_weight (samples q ms).
Proof.
  intros Hpos Hfit Hnum Hbuild Hsplit.
  apply buildBucketMultiple_spec in Hbuild as (Hin & _ & Hsum); [|done|done].
  apply bucketize_spec in Hsplit as (_ & _ & Hperm & _); [|done|lia].
  split; [|done].
  rewrite buckets_weight_members. by apply weight_perm.
Qed.

Lemma weight_conserved_witness :
  match buildBucketMultiple unused_conversion uniform 10 empty_pool None [two_rows] with
  | Ok (_, st, colors) =>
      match bucketize 10 st colors 2 with
      | Ok (st', buckets) =>
          buckets_weight st' buckets = weight (contents st colors)
          ∧ weight (contents st colors) = pixel_weight (samples uniform [two_rows])
      | _ => False
      end
  | _ => False
  end.
Proof.
  destruct (buildBucketMultiple unused_conversion uniform 10 empty_pool None [two_rows])
    as [[[bp' st] colors]| |] eqn:E1; [|vm_compute in E1; discriminate E1 ..].
  destruct (bucketize 10 st colors 2) as [[st' buckets]| |] eqn:E2.
  - assert (Hpos : Forall (λ s : Z * color.RGBA, 0 ≤ s.1) (samples uniform [two_rows])).
    { vm_compute. repeat constructor; discriminate. }
    apply (weight_conserved unused_conversion uniform 10 empty_pool None [two_rows]
             bp' st colors 10 2 st' buckets); [exact Hpos | | lia | exact E1 | exact E2].
    intros c. eapply Z.le_lt_trans; [apply (color_weight_le c _ Hpos)|].
    vm_compute. reflexivity.
  - vm_compute in E1. injection E1 as <- <- <-. vm_compute in E2. discriminate E2.
  - vm_compute in E1. injection E1 as <- <- <-. vm_compute in E2. discriminate E2.
Defined.

(** C4 as stated fails in two ways.  With every pixel weighing 2^31 the two
    pixels of each colour add up to 2^32, which a 32-bit priority holds as
    zero: the aggregated list is empty while the pixels weigh 2^33.  And
    asked for zero buckets, [bucketize] returns none, of total weight zero,
    for colours that weigh 4. *)
Lemma weight_lost_by_wrap_and_by_zero_target :
  match buildBucketMultiple unused_conversion heavy 10 empty_pool None [two_rows] with
  | Ok (_, st, colors) =>
      weight (contents st colors) = 0
      ∧ pixel_weight (samples heavy [two_rows]) = 2 ^ 33
  | _ => False
  end
  ∧ match buildBucketMultiple unused_conversion uniform 10 empty_pool None [two_rows] with
    | Ok (_, st, colors) =>
        weight (contents st colors) = 4
        ∧ match bucketize 10 st colors 0 with
          | Ok (st', buckets) => buckets_weight st' buckets = 0
          | _ => False
          end
    | _ => False
    end.
Proof. by vm_compute. Qed.

(** ** Pixels of weight zero *)

Lemma elem_of_samples q ms s :
  s ∈ samples q ms →
  ∃ m xy, m ∈ ms ∧ xy ∈ coords m
          ∧ s = (priority_at q m xy.1 xy.2, colorAt m xy.1 xy.2).
Proof.
  unfold samples. induction ms as [|m ms IH]; simpl; intros H.
  - by apply elem_of_nil in H.
  - apply elem_of_app in H as [H|H].
    + apply list_elem_of_fmap in H as (xy & -> & Hxy).
      exists m, xy. split_and!; [left|done|done].
    + destruct (IH H) as (m' & xy & ? & ? & ?).
      exists m', xy. split_and!; [by right|done|done].
Qed.

Lemma filter_replicate_zero n : filter (λ c, p c ≠ 0) (replicate n zeroColor) = [].
Proof.
  induction n as [|n IH]; [done|]. simpl. by rewrite filter_cons_False by (intros ?; done).
Qed.





(** ** The capacity of the palette *)

Lemma palettize_length agg st buckets : ∀ pal pal',
  palettize agg st pal buckets = Ok pal' →
  (length pal ≤ length pal' ≤ length pal + length buckets)%nat.
Proof.
  induction buckets as [|b bs IH]; intros pal pal' H; simpl in H.
  - injection H as <-. simpl. lia.
  - inv_bind H. apply IH in H. unfold palettize_bucket in Ht.
    repeat case_bool_decide; [inv_bind Ht| |]; simplify_eq;
      rewrite ?length_app in H; simpl in *; lia.
Qed.

(** X1. Outside of the case of C1 the capacity is respected: when a
    transparent entry is to be appended only if a unit of capacity is left
    for it, the palette [quantizeSlice] returns has grown by at most
    [cap(p) - len(p)]. *)
Theorem palette_within_capacity q fuel st pal cap_pal colors st' pal' :
  within st colors →
  (AddTransparent q && negb (has_transparent pal) = true →
   Z.of_nat (length pal) < cap_pal) →
  Z.of_nat (length pal) ≤ cap_pal →
  quantizeSlice q fuel st pal cap_pal colors = Ok (st', pal') →
  Z.of_nat (length pal') - Z.of_nat (length pal) ≤ cap_pal - Z.of_nat (length pal).
Proof.
  intros Hin Hroom Hcap H. unfold quantizeSlice in H.
  inv_bind H. destruct t as [st1 buckets]. inv_bind H. rename t into pal1.
  injection H as <- <-.
  apply palettize_length in Ht0.
  set (num := if AddTransparent q && negb (has_transparent pal)
              then cap_pal - Z.of_nat (length pal) - 1
              else cap_pal - Z.of_nat (length pal)) in *.
  assert (0 ≤ num) by (unfold num; destruct (_ && _); [specialize (Hroom eq_refl)|]; lia).
  assert (Z.of_nat (length buckets) ≤ num) as Hb.
  { destruct (decide (num = 0)) as [Hz|Hz].
    - unfold bucketize in Ht. rewrite (bool_decide_true (num = 0)) in Ht by done.
      rewrite orb_true_r in Ht. simplify_eq. simpl. lia.
    - apply bucketize_spec in Ht as (_ & _ & _ & _ & Hle & _); [|done|done].
      apply Hle. lia. }
  unfold num in Hb. destruct (_ && _); rewrite ?length_app; simpl; lia.
Qed.

Lemma palette_within_capacity_witness :
  match quantizeSlice with_transparent 10 tie_store [] 3 tie_bucket with
  | Ok (_, pal') => Z.of_nat (length pal') - Z.of_nat 0 ≤ 3 - Z.of_nat 0
  | _ => False
  end.
Proof.
  destruct (quantizeSlice with_transparent 10 tie_store [] 3 tie_bucket)
    as [[st' pal']| |] eqn:E.
  - apply (palette_within_capacity with_transparent 10 tie_store [] 3 tie_bucket st' pal');
      [unfold within; simpl; lia | simpl; lia | simpl; lia | exact E].
  - vm_compute in E. discriminate E.
  - vm_compute in E. discriminate E.
Defined.

(** C1 fails on the code.  A palette with no room left, a request for a
    transparent entry and no pixel to aggregate: the target count becomes -1,
    nothing is split, and the transparent entry is appended all the same, so
    the palette grows by one where the capacity was zero.  With pixels to
    aggregate the same call panics, on the negative capacity of the queue. *)
Theorem full_palette_gets_transparent :
  QuantizeMultiple unused_conversion with_transparent 0 empty_pool None [] 0 []
  = Ok (mkPool 0 [[]], [transparent])
  ∧ Quantize unused_conversion with_transparent 10 empty_pool None [] 0 two_rows
    = Panic.
Proof. by vm_compute. Qed.

(** ** Colours that differ in alpha only *)

(** C3 fails on the code.  Three pixels of one red, green and blue and of
    three alphas are three aggregated colours.  Every range is zero, [span]
    returns the common blue value as the median, no member is below it, and
    the second scan of [partition] runs off the front of the bucket: with
    room for 256 colours the call panics, whatever the fuel, and no palette
    is produced. *)
Theorem same_rgb_three_alphas_panics fuel :
  Quantize unused_conversion uniform (10 + fuel) empty_pool None [] 256 three_alphas
  = Panic
  ∧ match buildBucketMultiple unused_conversion uniform 10 empty_pool None [three_alphas] with
    | Ok (_, st, colors) =>
        RGBA <$> contents st colors
        = [color.mkRGBA 0 0 0 255; color.mkRGBA 0 0 0 128; color.mkRGBA 0 0 0 0]
    | _ => False
    end.
Proof. split; by vm_compute. Qed.

(** ** A probing loop that finds no slot *)

Lemma probe_index_next k : probe_index (k + 1) = probe_index k + (k + 2).
Proof.
  unfold probe_index.
  replace ((k + 1) * (k + 1 + 3)) with (k * (k + 3) + (k + 2) * 2) by lia.
  rewrite Z.div_add by lia. lia.
Qed.

Lemma probe_index_mono k : 0 ≤ k ≤ last_turn → 18 ≤ probe_index k ≤ probe_index last_turn.
Proof.
  intros Hk. unfold probe_index, last_turn in *. split.
  - assert (0 ≤ (k * (k + 3)) `div` 2) by (apply Z.div_pos; nia). lia.
  - apply Z.add_le_mono_l, Z.div_le_mono; nia.
Qed.

Lemma residues_closed :
  forallb (λ s, existsb (λ s', bool_decide (s' = residue_step s)) residues) residues = true.
Proof. by vm_compute. Qed.

Lemma residues_taken :
  forallb (λ s, taken_by_other eight_in table18 last_blue s.1) residues = true.
Proof. by vm_compute. Qed.

(** The residues of the index never leave the recorded ones. *)
Lemma probe_index_residue k :
  0 ≤ k → (probe_index k `mod` 18, k `mod` 18) ∈ residues.
Proof.
  revert k. apply natlike_ind.
  - by vm_compute; left.
  - intros k Hk IH.
    pose proof residues_closed as Hc. rewrite forallb_forall in Hc.
    apply list_elem_of_In in IH. specialize (Hc _ IH).
    apply existsb_exists in Hc as (s' & Hs' & Heq).
    apply bool_decide_eq_true in Heq. subst s'.
    apply list_elem_of_In in Hs'.
    replace (Z.succ k) with (k + 1) by lia.
    rewrite probe_index_next.
    unfold residue_step in Hs'. simpl in Hs'.
    replace ((probe_index k + (k + 2)) `mod` 18)
      with ((probe_index k `mod` 18 + k `mod` 18 + 2) `mod` 18).
    2:{ rewrite <- Z.add_assoc, Zplus_mod_idemp_l.
        rewrite (Z.add_comm (k `mod` 18) 2), Z.add_assoc, Zplus_mod_idemp_r.
        f_equal. lia. }
    replace ((k + 1) `mod` 18) with ((k `mod` 18 + 1) `mod` 18)
      by by rewrite Zplus_mod_idemp_l.
    done.
Qed.

(** From its start on the last pixel the loop finds every slot it probes
    taken by another colour, until its index wraps around and the probe
    falls before the table. *)
Lemma probe_stuck fuel : ∀ k,
  0 ≤ k ≤ last_turn →
  probe fuel eight_in table18 18 last_blue 1 (probe_index k) (k + 1) = Timeout
  ∨ probe fuel eight_in table18 18 last_blue 1 (probe_index k) (k + 1) = Panic.
Proof.
  induction fuel as [|fuel IH]; intros k Hk; [by left|].
  cbn [probe]. rewrite bool_decide_false by done.
  pose proof (probe_index_mono k Hk) as Hi.
  pose proof residues_taken as Ht. rewrite forallb_forall in Ht.
  specialize (Ht _ (proj1 (list_elem_of_In _ _) (probe_index_residue k ltac:(lia)))).
  simpl in Ht. rewrite Z.rem_mod_nonneg by lia.
  unfold taken_by_other in Ht.
  destruct (read eight_in table18 (probe_index k `mod` 18)) as [old| |];
    [|discriminate ..].
  simpl. apply negb_true_iff in Ht. rewrite Ht.
  assert (Hlast : probe_index last_turn < 2 ^ 63) by by vm_compute.
  rewrite (wrap_int_small (1 + (k + 1))) by (unfold last_turn in *; lia).
  rewrite (wrap_int_small (k + 1 + 1)) by (unfold last_turn in *; lia).
  replace (probe_index k + (1 + (k + 1))) with (probe_index (k + 1))
    by (rewrite probe_index_next; lia).
  destruct (decide (k < last_turn)) as [Hlt|Hge].
  - rewrite wrap_int_small.
    + replace (k + 1 + 1) with ((k + 1) + 1) by lia. apply IH. lia.
    + pose proof (probe_index_mono (k + 1) ltac:(lia)). lia.
  - assert (k = last_turn) as -> by lia.
    destruct fuel as [|fuel]; [by left|right]. by vm_compute.
Qed.

Lemma coords_nine_blues :
  coords nine_blues = take 8 (coords nine_blues) ++ [(2, 2)].
Proof. by vm_compute. Qed.

Lemma eight_pixels_in fuel :
  for_each (visit uniform (S fuel) table18 18 nine_blues)
    (replicate 18 zeroColor) (take 8 (coords nine_blues)) = Ok eight_in.
Proof. by vm_compute. Qed.

(** C2 fails on the code.  A 3x3 image of nine distinct colours: the table
    has 18 slots, twice the area, and holds eight colours when the last pixel
    is probed.  The probes of that pixel fall on eight slots only, all of
    them taken, so no free slot and no slot of the colour is ever reached:
    with any fuel the call runs out of it, or, after the 4294967295 turns it
    takes the index to wrap around, panics on a negative slot. *)
Theorem nine_colours_probe_forever fuel :
  (Quantize unused_conversion uniform fuel empty_pool None [] 256 nine_blues = Timeout
   ∨ Quantize unused_conversion uniform fuel empty_pool None [] 256 nine_blues = Panic)
  ∧ table_size [nine_blues] = 18
  ∧ length (filter (λ c, p c ≠ 0) eight_in) = 8%nat.
Proof.
  split; [|by vm_compute].
  unfold Quantize, buildBucketMultiple.
  assert (getBucket empty_pool None (table_size [nine_blues])
          = Ok (mkPool 18 [], replicate 18 zeroColor, table18)) as -> by by vm_compute.
  assert (table_size [nine_blues] = 18) as -> by by vm_compute.
  cbn [mbind result_bind for_each]. unfold scan_image.
  rewrite coords_nine_blues, for_each_app.
  destruct fuel as [|fuel]; [by left|].
  rewrite eight_pixels_in. cbn [mbind result_bind for_each].
  assert (visit uniform (S fuel) table18 18 nine_blues eight_in (2, 2)
          = probe (S fuel) eight_in table18 18 last_blue 1 (probe_index 0) (0 + 1))
    as -> by done.
  destruct (probe_stuck (S fuel) 0) as [-> | ->]; [by vm_compute| |]; auto.
Qed.

(** ** The size of the table *)

Lemma bounds_step_range ms : ∀ lx gx ly gy,
  Forall (λ m, sane_bounds (image.Bounds m)) ms →
  - 2 ^ 30 ≤ lx ≤ MaxInt32 → 0 ≤ gx < 2 ^ 30 →
  - 2 ^ 30 ≤ ly ≤ MaxInt32 → 0 ≤ gy < 2 ^ 30 →
  match foldl bounds_step (lx, gx, ly, gy) ms with
  | (lx', gx', ly', gy') =>
      (- 2 ^ 30 ≤ lx' ≤ lx ∧ gx ≤ gx' < 2 ^ 30)
      ∧ (- 2 ^ 30 ≤ ly' ≤ ly ∧ gy ≤ gy' < 2 ^ 30)
      ∧ Forall (λ m, lx' ≤ image.X (image.Min (image.Bounds m))
                     ∧ image.X (image.Max (image.Bounds m)) ≤ gx'
                     ∧ ly' ≤ image.Y (image.Min (image.Bounds m))
                     ∧ image.Y (image.Max (image.Bounds m)) ≤ gy') ms
  end.
Proof.
  unfold MaxInt32.
  induction ms as [|m ms IH]; intros lx gx ly gy Hall Hlx Hgx Hly Hgy.
  { simpl. split_and!; try lia. constructor. }
  apply Forall_cons in Hall as [(?&?&?&?) Hall]. cbn [foldl].
  unfold bounds_step at 2.
  match goal with |- context [foldl bounds_step (?a, ?b, ?c, ?d) ms] =>
    specialize (IH a b c d Hall) end.
  destruct (foldl bounds_step _ ms) as [[[lx' gx'] ly'] gy'].
  destruct IH as ((?&?) & (?&?) & Hrest); try (repeat case_bool_decide; lia).
  split_and!; try (repeat case_bool_decide; lia).
  apply Forall_cons. split; [repeat case_bool_decide; lia|done].
Qed.

(** For images of sane bounds the size computed for the table is a length:
    twice the area of the box around the images and the origin. *)
Lemma table_size_sane ms :
  ms ≠ [] → Forall (λ m, sane_bounds (image.Bounds m)) ms → 0 ≤ table_size ms.
Proof.
  intros Hne Hall. unfold table_size.
  pose proof (bounds_step_range ms MaxInt32 0 MaxInt32 0 Hall) as H.
  unfold MaxInt32 in *.
  destruct (foldl bounds_step _ ms) as [[[lx gx] ly] gy].
  destruct H as ((?&?) & (?&?) & Hin); try lia.
  destruct ms as [|m ms]; [done|].
  apply Forall_cons in Hin as [(?&?&?&?) _].
  apply Forall_cons in Hall as [(?&?&?&?) _].
  rewrite (wrap_int_small (gx - lx)) by lia.
  rewrite (wrap_int_small (gy - ly)) by lia.
  rewrite (wrap_int_small ((gx - lx) * (gy - ly))) by nia.
  rewrite wrap_int_small by nia. nia.
Qed.

(** ** Mode reduction with room for every colour *)

Lemma length_members st q :
  Forall (within st) q → length (members st q) = sum_list (len <$> q).
Proof.
  induction 1 as [|b q Hb _ IH]; [done|].
  rewrite members_cons, length_app, length_contents, IH by done. done.
Qed.

Lemma all_singletons (q : list colorBucket) :
  Forall (λ b, 1 ≤ len b)%nat q → (sum_list (len <$> q) ≤ length q)%nat →
  Forall (λ b, len b = 1%nat) q.
Proof.
  induction 1 as [|b q Hb Hq IH]; intros Hsum; [constructor|].
  csimpl in Hsum.
  assert (length q ≤ sum_list (len <$> q))%nat.
  { clear -Hq. induction Hq; csimpl; lia. }
  constructor; [lia|]. apply IH. lia.
Qed.

Lemma mode_of_singleton c : 0 < p c → mode_of [c] = c.
Proof. intros. unfold mode_of, mode_step. simpl. by rewrite bool_decide_true by lia. Qed.

Lemma palettize_Mode_singletons st q : ∀ pal,
  Forall (within st) q → Forall (λ b, len b = 1%nat) q →
  Forall positive_u32 (members st q) →
  palettize Mode st pal q = Ok (pal ++ (entry <$> members st q)).
Proof.
  induction q as [|b q IH]; intros pal Hin Hone Hpos.
  { simpl. by rewrite app_nil_r. }
  apply Forall_cons in Hin as [Hb Hin]. apply Forall_cons in Hone as [Hb1 Hone].
  rewrite members_cons in Hpos. apply Forall_app in Hpos as [Hpb Hpos].
  pose proof (length_contents st b Hb) as Hlen. rewrite Hb1 in Hlen.
  destruct (contents st b) as [|c [|? ?]] eqn:E; try discriminate.
  apply Forall_cons in Hpb as [Hc _].
  cbn [palettize]. unfold palettize_bucket.
  rewrite bool_decide_false by done. rewrite bool_decide_true by done.
  cbn [mbind result_bind]. rewrite E, mode_of_singleton by (unfold positive_u32 in Hc; lia).
  rewrite IH by done. rewrite members_cons, E, <- app_assoc. done.
Qed.

(** When [bucketize] is asked for at least as many buckets as there are
    colours and returns, every bucket is a single colour, and the Mode
    reduction appends the colours of the list, each member once, in the
    order of the queue. *)
Lemma bucketize_Mode_each_once fuel st colors num st' buckets pal :
  within st colors → Forall positive_u32 (contents st colors) →
  Z.of_nat (len colors) ≤ num →
  bucketize fuel st colors num = Ok (st', buckets) →
  ∃ ext, palettize Mode st' pal buckets = Ok (pal ++ ext)
         ∧ ext ≡ₚ entry <$> contents st colors.
Proof.
  intros Hin Hpos Hnum H.
  destruct (decide (len colors = 0%nat)) as [Hz|Hz].
  { unfold bucketize in H. rewrite bool_decide_true in H by done. simplify_eq/=.
    exists []. rewrite app_nil_r. split; [done|].
    unfold contents. by rewrite Hz. }
  apply bucketize_spec in H as ((Hw & _) & _ & Hperm & Hne & _ & Hstop); [|done|lia].
  destruct (Hne ltac:(lia)) as [_ Hlen].
  assert (Hsum : sum_list (len <$> buckets) = len colors).
  { rewrite <- (length_members st') by done. rewrite Hperm. by apply length_contents. }
  assert (Hone : Forall (λ b, len b = 1%nat) buckets).
  { apply all_singletons; [done|]. lia. }
  exists (entry <$> members st' buckets). split.
  - apply palettize_Mode_singletons; try done. by rewrite Hperm.
  - by rewrite Hperm.
Qed.

(** ** The histogram and the cut of [span] *)

Lemma span_step_vals l : ∀ cR cG cB t,
  0 ≤ t < 2 ^ 64 →
  match foldl span_step (cR, cG, cB, t) l with
  | (cR', cG', cB', t') =>
      constraint.vals cR' = hist red l (constraint.vals cR)
      ∧ constraint.vals cG' = hist green l (constraint.vals cG)
      ∧ constraint.vals cB' = hist blue l (constraint.vals cB)
      ∧ t' = wrap_u64 (t + weight l)
  end.
Proof.
  induction l as [|c l IH]; intros cR cG cB t Ht.
  { simpl. rewrite Z.add_0_r, wrap_u64_small by done. by split_and!. }
  cbn [foldl]. unfold span_step at 2.
  match goal with |- context [foldl span_step (?a, ?b, ?c, ?d) l] =>
    specialize (IH a b c d) end.
  destruct (foldl span_step _ l) as [[[cR' cG'] cB'] t'].
  destruct IH as (-> & -> & -> & ->).
  { unfold wrap_u64. apply Z.mod_pos_bound. lia. }
  split_and!; try done.
  rewrite wrap_u64_add_l. simpl. f_equal. lia.
Qed.

Lemma at_value_cons ax j c l :
  at_value ax j (c :: l) = (if decide (chan ax c = j) then p c else 0) + at_value ax j l.
Proof. unfold at_value. rewrite filter_cons. destruct (decide _); simpl; lia. Qed.

Lemma below_cons ax j c l :
  below ax j (c :: l) = (if decide (chan ax c < j) then p c else 0) + below ax j l.
Proof. unfold below. rewrite filter_cons. destruct (decide _); simpl; lia. Qed.

Lemma below_succ ax j l : below ax (j + 1) l = below ax j l + at_value ax j l.
Proof.
  induction l as [|c l IH]; [done|].
  rewrite !below_cons, at_value_cons, IH. repeat destruct (decide _); lia.
Qed.

Lemma below_bounds ax j l :
  Forall good l → 0 ≤ below ax j l ≤ weight l.
Proof.
  induction 1 as [|c l [Hc _] _ IH]; [done|].
  rewrite below_cons. unfold positive_u32 in Hc. simpl. destruct (decide _); lia.
Qed.

Lemma at_value_bounds ax j l :
  Forall good l → 0 ≤ at_value ax j l ≤ weight l.
Proof.
  induction 1 as [|c l [Hc _] _ IH]; [done|].
  rewrite at_value_cons. unfold positive_u32 in Hc. simpl. destruct (decide _); lia.
Qed.

Lemma below_positive ax j l : 0 < below ax j l → ∃ c, c ∈ l ∧ chan ax c < j.
Proof.
  induction l as [|c l IH]; [done|]. rewrite below_cons.
  destruct (decide (chan ax c < j)) as [Hc|Hc].
  - intros _. exists c. split; [left|done].
  - intros H. destruct IH as (c' & ? & ?); [lia|]. exists c'. split; [by right|done].
Qed.

Lemma below_not_all ax j l :
  Forall good l → below ax j l < weight l → ∃ c, c ∈ l ∧ j ≤ chan ax c.
Proof.
  induction 1 as [|c l [Hc _] Hl IH]; [done|]. rewrite below_cons. simpl.
  destruct (decide (chan ax c < j)) as [Hlt|Hge].
  - intros H. destruct IH as (c' & ? & ?); [lia|]. exists c'. split; [by right|done].
  - intros _. exists c. split; [left|lia].
Qed.

Lemma below_all ax j l :
  Forall good l → below ax j l = weight l → ∀ c, c ∈ l → chan ax c < j.
Proof.
  induction 1 as [|c l [Hc Hw] Hl IH]; intros Heq c' Hc'; [by apply elem_of_nil in Hc'|].
  rewrite below_cons in Heq. simpl in Heq.
  pose proof (below_bounds ax j l Hl). unfold positive_u32 in Hc.
  destruct (decide (chan ax c < j)) as [Hlt|Hge]; [|lia].
  apply elem_of_cons in Hc' as [->|Hc']; [done|]. apply IH; [lia|done].
Qed.

Lemma hist_cons ax c l v0 :
  hist ax (c :: l) v0
  = hist ax l (alter (λ x, wrap_u64 (x + p c)) (Z.to_nat (chan ax c)) v0).
Proof. done. Qed.

(** Every entry of the histogram is the weight of the members at its value. *)
Lemma hist_lookup ax l : ∀ v0 (f : nat → Z),
  (∀ j, (j < 256)%nat → v0 !! j = Some (wrap_u64 (f j))) →
  Forall good l →
  ∀ j, (j < 256)%nat →
    hist ax l v0 !! j = Some (wrap_u64 (f j + at_value ax (Z.of_nat j) l)).
Proof.
  induction l as [|c l IH]; intros v0 f Hv Hl j Hj.
  { simpl. rewrite Hv by done. f_equal. f_equal. unfold at_value. simpl. lia. }
  apply Forall_cons in Hl as [Hc Hl]. rewrite hist_cons.
  rewrite (IH _ (λ j, f j + if decide (chan ax c = Z.of_nat j) then p c else 0));
    [|intros j' Hj'|done|done].
  - f_equal. f_equal. rewrite at_value_cons. lia.
  - destruct (decide (Z.to_nat (chan ax c) = j')) as [<-|Hne].
    + rewrite list_lookup_alter, Hv by done. simpl.
      rewrite wrap_u64_add_l. rewrite decide_True by done.
      rewrite decide_True; [done|].
      destruct Hc as [_ (?&?&?&?)]. unfold is_u8 in *. destruct ax; simpl; lia.
    + rewrite list_lookup_alter_ne, Hv by done.
      rewrite decide_False; [by rewrite Z.add_0_r|]. lia.
Qed.

Lemma hist_zero ax l j :
  Forall good l → weight l < 2 ^ 64 → (j < 256)%nat →
  hist ax l (replicate 256 0) !! j = Some (at_value ax (Z.of_nat j) l).
Proof.
  intros Hl Hw Hj.
  rewrite (hist_lookup ax l _ (λ _, 0)); [|intros j' Hj'|done|done].
  - pose proof (at_value_bounds ax (Z.of_nat j) l Hl).
    by rewrite Z.add_0_l, wrap_u64_small by lia.
  - by rewrite lookup_replicate_2.
Qed.

(** Where the last loop of [span] stops: some member is at or above the
    value, and either some member is below it or no member is above it. *)
Lemma median_scan_spec ax l vals : ∀ i,
  Forall good l → weight l < 2 ^ 64 →
  0 ≤ i < 256 →
  vals = drop (Z.to_nat i) (hist ax l (replicate 256 0)) →
  length (hist ax l (replicate 256 0)) = 256%nat →
  below ax i l < weight l →
  i ≤ median_scan vals (weight l) (below ax i l) i < 256
  ∧ below ax (median_scan vals (weight l) (below ax i l) i) l < weight l
  ∧ (0 < below ax (median_scan vals (weight l) (below ax i l) i) l
     ∨ ∀ c, c ∈ l → chan ax c ≤ median_scan vals (weight l) (below ax i l) i).
Proof.
  induction vals as [|c rest IH]; intros i Hl Hw Hi Hvals Hlen Hlt.
  { apply (f_equal length) in Hvals. rewrite length_drop, Hlen in Hvals.
    simpl in Hvals. lia. }
  assert (Hc : c = at_value ax i l).
  { pose proof (hist_zero ax l (Z.to_nat i) Hl Hw ltac:(lia)) as Hh.
    rewrite Z2Nat.id in Hh by lia.
    apply (f_equal (λ v, v !! 0%nat)) in Hvals.
    change ((c :: rest) !! 0%nat) with (Some c) in Hvals.
    rewrite lookup_drop, Nat.add_0_r, Hh in Hvals. by injection Hvals. }
  pose proof (below_bounds ax i l Hl) as Hb.
  pose proof (below_bounds ax (i + 1) l Hl) as Hb1.
  pose proof (below_succ ax i l) as Hs.
  assert (Hvlen : length (c :: rest) = (256 - Z.to_nat i)%nat).
  { rewrite Hvals, length_drop, Hlen. done. }
  assert (Hwf : ∀ c', c' ∈ l → chan ax c' ≤ 255).
  { intros c' Hc'. rewrite Forall_forall in Hl.
    destruct (Hl c' Hc') as [_ (?&?&?&?)]. unfold is_u8 in *. destruct ax; simpl; lia. }
  cbn [median_scan]. rewrite wrap_u64_small by lia.
  destruct (_ || _) eqn:Hbreak.
  { split_and!; [lia|lia|done|].
    apply orb_true_iff in Hbreak as [H1|H2].
    - apply bool_decide_eq_true in H1. left.
      assert (0 ≤ weight l `quot` 2) by (apply Z.quot_pos; lia). lia.
    - apply bool_decide_eq_true in H2. right. intros c' Hc'.
      pose proof (below_all ax (i + 1) l Hl ltac:(lia) c' Hc'). lia. }
  apply orb_false_iff in Hbreak as [_ H2]. apply bool_decide_eq_false in H2.
  destruct rest as [|c2 rest'].
  { simpl in Hvlen. split_and!; [lia|lia|done|]. right. intros c' Hc'.
    specialize (Hwf c' Hc'). lia. }
  simpl in Hvlen.
  replace (below ax i l + c) with (below ax (i + 1) l) by lia.
  destruct (IH (i + 1)) as (Hr & Hlt' & Hsplit); try done; try lia.
  - replace (Z.to_nat (i + 1)) with (Z.to_nat i + 1)%nat by lia.
    by rewrite <- drop_drop, <- Hvals.
  - split_and!; [lia|lia|done|done].
Qed.

Lemma length_hist ax l v0 : length (hist ax l v0) = length v0.
Proof.
  revert v0. induction l as [|c l IH]; intros v0; [done|].
  by rewrite hist_cons, IH, length_alter.
Qed.

Lemma chan_between ax l c :
  c ∈ l → Forall good l →
  foldr Z.min 255 (chan ax <$> l) ≤ chan ax c ≤ foldr Z.max 0 (chan ax <$> l).
Proof.
  intros Hc Hl. induction Hl as [|c' l _ _ IH]; [by apply elem_of_nil in Hc|].
  cbn [fmap list_fmap foldr].
  apply elem_of_cons in Hc as [->|Hc]; [lia|]. specialize (IH Hc). lia.
Qed.

(** With two members that differ in red, green or blue, the value [span]
    returns has a member below it and a member at or above it on the axis
    [span] returns: both scans of [partition] will stop. *)
Lemma span_of_splits l c1 c2 :
  Forall good l → Z.of_nat (length l) < 2 ^ 32 →
  c1 ∈ l → c2 ∈ l → rgb c1 ≠ rgb c2 →
  (∃ c, c ∈ l ∧ gt (span_of l).1 (RGBA c) (span_of l).2 = true)
  ∧ (∃ c, c ∈ l ∧ gt (span_of l).1 (RGBA c) (span_of l).2 = false).
Proof.
  intros Hl Hlen H1 H2 Hne.
  assert (Hne0 : l ≠ []) by (intros ->; by apply elem_of_nil in H1).
  assert (Hwf : Forall (λ c, color.wf (RGBA c)) l).
  { eapply Forall_impl; [exact Hl|]. by intros c [_ ?]. }
  assert (Hpos : Forall positive_u32 l).
  { eapply Forall_impl; [exact Hl|]. by intros c [? _]. }
  pose proof (weight_bounds l Hpos) as Hw.
  assert (0 < length l)%nat by (destruct l; [done|simpl; lia]).
  pose proof (span_of_axis l Hne0 Hwf) as Haxis.
  (* the axis chosen has a range above zero *)
  assert (Hrange : 0 < channel_range (span_of l).2 l).
  { assert (∃ ax, 0 < channel_range ax l) as [ax Hax].
    { destruct (decide (chan red c1 = chan red c2)) as [ER|ER];
        [destruct (decide (chan green c1 = chan green c2)) as [EG|EG];
          [destruct (decide (chan blue c1 = chan blue c2)) as [EB|EB]|]|].
      - exfalso. apply Hne. unfold rgb. simpl in *. congruence.
      - exists blue. pose proof (chan_between blue l c1 H1 Hl).
        pose proof (chan_between blue l c2 H2 Hl). unfold channel_range. lia.
      - exists green. pose proof (chan_between green l c1 H1 Hl).
        pose proof (chan_between green l c2 H2 Hl). unfold channel_range. lia.
      - exists red. pose proof (chan_between red l c1 H1 Hl).
        pose proof (chan_between red l c2 H2 Hl). unfold channel_range. lia. }
    pose proof (channel_range_u8 red l Hne0 Hwf).
    pose proof (channel_range_u8 green l Hne0 Hwf).
    pose proof (channel_range_u8 blue l Hne0 Hwf).
    unfold channel_range in *.
    destruct (span_of l).2, ax; lia. }
  (* the value returned, through the histogram of that axis *)
  unfold span_of in *.
  pose proof (span_step_vals l (constraint.with_min constraint.zero 255)
    (constraint.with_min constraint.zero 255)
    (constraint.with_min constraint.zero 255) 0 ltac:(lia)) as Hv.
  unfold span_init in *.
  destruct (foldl span_step _ l) as [[[cR cG] cB] total].
  destruct Hv as (HvR & HvG & HvB & Htot). simpl in HvR, HvG, HvB.
  rewrite Z.add_0_l, wrap_u64_small in Htot by nia. subst total.
  assert (Hvals : ∀ ax, (span_choose cR cG cB).1 = ax →
            constraint.vals (span_choose cR cG cB).2 = hist ax l (replicate 256 0)).
  { unfold span_choose. intros ax. repeat case_bool_decide; simpl; by intros <-. }
  destruct (span_choose cR cG cB) as [ax toCount]. simpl in *.
  specialize (Hvals ax eq_refl).
  assert (below ax 0 l = 0) as Hb0.
  { pose proof (below_bounds ax 0 l Hl).
    destruct (decide (0 < below ax 0 l)) as [Hp|Hp]; [|lia].
    apply below_positive in Hp as (c & Hc & Hlt).
    rewrite Forall_forall in Hwf. destruct (Hwf c Hc) as (?&?&?&?).
    unfold is_u8 in *. destruct ax; simpl in *; lia. }
  pose proof (median_scan_spec ax l (constraint.vals toCount) 0 Hl ltac:(nia)
    ltac:(lia)) as Hm.
  rewrite Hb0 in Hm. rewrite Hvals in Hm.
  specialize (Hm eq_refl ltac:(by rewrite length_hist, length_replicate) ltac:(lia)).
  rewrite <- Hvals in Hm.
  set (r := median_scan (constraint.vals toCount) (weight l) 0 0) in *.
  destruct Hm as (Hr & Hhigh & Hlow).
  rewrite wrap_u8_small by lia.
  assert (Hgt : ∀ c, gt r (RGBA c) ax = bool_decide (chan ax c < r)).
  { intros c. destruct ax; simpl; apply bool_decide_ext; lia. }
  split.
  - destruct Hlow as [Hlow|Hall].
    + apply below_positive in Hlow as (c & Hc & Hlt).
      exists c. split; [done|]. rewrite Hgt. by apply bool_decide_eq_true.
    + (* no member above the value: were none below it, the range would be zero *)
      destruct (decide (Exists (λ c, chan ax c < r) l)) as [He|Hno].
      * apply Exists_exists in He as (c & Hc & Hlt).
        exists c. split; [done|]. rewrite Hgt. by apply bool_decide_eq_true.
      * exfalso. apply Forall_Exists_neg in Hno. rewrite Forall_forall in Hno.
        assert (foldr Z.max 0 (chan ax <$> l) ≤ r
                ∧ r ≤ foldr Z.min 255 (chan ax <$> l)) as [? ?].
        { clearbody r. clear -Hall Hno Hr. induction l as [|c l IH]; csimpl; [lia|].
          pose proof (Hall c ltac:(left)). pose proof (Hno c ltac:(left)).
          destruct IH; [intros c' Hc'; apply Hall; by right
                       |intros c' Hc'; apply Hno; by right|]. lia. }
        unfold channel_range in Hrange. lia.
  - apply below_not_all in Hhigh as (c & Hc & Hge); [|done].
    exists c. split; [done|]. rewrite Hgt. apply bool_decide_eq_false. lia.
Qed.

(** ** [partition] returns *)

Lemma read_within st cb i :
  within st cb → 0 ≤ i < Z.of_nat (len cb) → ∃ c, read st cb i = Ok c.
Proof.
  intros Hin Hi. unfold read, within in *. rewrite bool_decide_true by done.
  destruct (lookup_lt_is_Some_2 st (off cb + Z.to_nat i)) as [c ->]; [lia|eauto].
Qed.

Lemma read_contents st cb j c :
  within st cb → contents st cb !! j = Some c → read st cb (Z.of_nat j) = Ok c.
Proof.
  intros Hin Hc. pose proof (lookup_lt_Some _ _ _ Hc) as Hj.
  rewrite length_contents in Hj by done.
  unfold read, contents in *. rewrite bool_decide_true by lia.
  rewrite lookup_take_lt, lookup_drop in Hc by done. by rewrite Nat2Z.id, Hc.
Qed.

Lemma read_write st cb i j c :
  within st cb → 0 ≤ i < Z.of_nat (len cb) → 0 ≤ j < Z.of_nat (len cb) →
  read (write st cb i c) cb j = if decide (i = j) then Ok c else read st cb j.
Proof.
  intros Hin Hi Hj. unfold read, write, within in *.
  rewrite bool_decide_true by done.
  destruct (decide (i = j)) as [->|Hne].
  - by rewrite list_lookup_insert_eq by lia.
  - by rewrite list_lookup_insert_ne by lia.
Qed.

Lemma low_not_high st cb m ax j : low_at st cb m ax j → high_at st cb m ax j → False.
Proof. intros (c & Hc & Hg) (c' & Hc' & Hg'). congruence. Qed.

Lemma scan_left_total st cb m ax fuel : ∀ left j,
  within st cb → 0 ≤ left ≤ j → high_at st cb m ax j →
  (Z.to_nat (j - left) < fuel)%nat →
  ∃ k, scan_left fuel st cb m ax left = Ok k ∧ left ≤ k ≤ j ∧ high_at st cb m ax k.
Proof.
  induction fuel as [|fuel IH]; intros left j Hin Hl Hhigh Hfuel; [lia|].
  pose proof Hhigh as (cj & Hj & Hgj).
  pose proof (read_Ok _ _ _ _ Hj) as [Hjb _].
  destruct (read_within st cb left Hin ltac:(lia)) as [c Hc].
  cbn [scan_left]. rewrite Hc. cbn [mbind result_bind].
  destruct (gt m (RGBA c) ax) eqn:Hg.
  - assert (left ≠ j) by (intros ->; congruence).
    destruct (IH (left + 1) j) as (k & Hk & ? & ?); [done|lia|done|lia|].
    exists k. split_and!; [done|lia|lia|done].
  - exists left. split_and!; [done|lia|lia|by exists c].
Qed.

Lemma scan_right_total st cb m ax fuel : ∀ right j,
  within st cb → 0 ≤ j ≤ right → right < Z.of_nat (len cb) → low_at st cb m ax j →
  (Z.to_nat (right - j) < fuel)%nat →
  ∃ k, scan_right fuel st cb m ax right = Ok k ∧ j ≤ k ≤ right ∧ low_at st cb m ax k.
Proof.
  induction fuel as [|fuel IH]; intros right j Hin Hl Hr Hlow Hfuel; [lia|].
  pose proof Hlow as (cj & Hj & Hgj).
  destruct (read_within st cb right Hin ltac:(lia)) as [c Hc].
  cbn [scan_right]. rewrite Hc. cbn [mbind result_bind].
  destruct (gt m (RGBA c) ax) eqn:Hg.
  - exists right. split_and!; [done|lia|lia|by exists c].
  - assert (right ≠ j) by (intros ->; congruence).
    destruct (IH (right - 1) j) as (k & Hk & ? & ?); [done|lia|lia|done|lia|].
    exists k. split_and!; [done|lia|lia|done].
Qed.

(** After the exchange the two slots hold what the other held. *)
Lemma swap_total st cb m ax left right :
  within st cb → left ≠ right →
  high_at st cb m ax left → low_at st cb m ax right →
  ∃ st', swap st cb left right = Ok st'
         ∧ within st' cb
         ∧ low_at st' cb m ax left ∧ high_at st' cb m ax right.
Proof.
  intros Hin Hne (cl & Hl & Hgl) (cr & Hr & Hgr).
  pose proof (read_Ok _ _ _ _ Hl) as [Hlb _].
  pose proof (read_Ok _ _ _ _ Hr) as [Hrb _].
  unfold swap. rewrite Hl, Hr. cbn [mbind result_bind].
  assert (within (write st cb left cr) cb) by (unfold within; by rewrite length_write).
  eexists. split; [done|]. split; [unfold within; by rewrite !length_write|].
  split.
  - exists cr. split; [|done].
    rewrite read_write by done. rewrite decide_False by done.
    rewrite read_write by done. by rewrite decide_True.
  - exists cl. split; [|done].
    rewrite read_write by done. by rewrite decide_True.
Qed.

(** From a state where the left slot is below the cut and the right one is
    not, the loop returns. *)
Lemma partition_loop_settled cb m ax d : ∀ fuel st left right,
  within st cb → 0 ≤ left < right → right - left ≤ Z.of_nat d →
  low_at st cb m ax left → high_at st cb m ax right →
  (2 * d + 2 ≤ fuel)%nat →
  ∃ res, partition_loop fuel st cb m ax left right = Ok res.
Proof.
  induction d as [|d IH]; intros fuel st left right Hin Hlr Hd Hlow Hhigh Hfuel; [lia|].
  destruct fuel as [|fuel]; [lia|].
  cbn [partition_loop]. rewrite bool_decide_true by lia.
  pose proof Hhigh as (ch & Hch & _). apply read_Ok in Hch as [Hrb _].
  destruct (scan_left_total st cb m ax fuel left right) as (left' & -> & Hl' & Hhl);
    [done|lia|done|lia|].
  destruct (scan_right_total st cb m ax fuel right left) as (right' & -> & Hr' & Hlr');
    [done|lia|lia|done|lia|].
  cbn [mbind result_bind].
  assert (left' ≠ left) by (intros ->; exact (low_not_high _ _ _ _ _ Hlow Hhl)).
  assert (right' ≠ right) by (intros ->; exact (low_not_high _ _ _ _ _ Hlr' Hhigh)).
  assert (left' ≠ right') by (intros ->; exact (low_not_high _ _ _ _ _ Hlr' Hhl)).
  destruct (swap_total st cb m ax left' right') as (st' & -> & Hin' & Hlow' & Hhigh');
    [done..|].
  cbn [mbind result_bind].
  destruct (decide (left' < right')) as [Hlt|Hge].
  - apply IH; try done; lia.
  - destruct fuel; cbn [partition_loop]; rewrite bool_decide_false by done; eauto.
Qed.

(** With a member below the cut and a member at or above it, the loop of
    [partition] returns for any fuel above twice the length of the bucket. *)
Lemma partition_loop_total cb m ax fuel st jl jh :
  within st cb → low_at st cb m ax jl → high_at st cb m ax jh →
  (2 * len cb + 4 ≤ fuel)%nat →
  ∃ res, partition_loop fuel st cb m ax 0 (Z.of_nat (len cb) - 1) = Ok res.
Proof.
  intros Hin Hlow Hhigh Hfuel.
  pose proof Hlow as (cl & Hcl & _). apply read_Ok in Hcl as [Hjl _].
  pose proof Hhigh as (ch & Hch & _). apply read_Ok in Hch as [Hjh _].
  destruct fuel as [|fuel]; [lia|].
  cbn [partition_loop].
  case_bool_decide as Hlen; [|eauto].
  destruct (scan_left_total st cb m ax fuel 0 jh) as (left' & -> & Hl' & Hhl);
    [done|lia|done|lia|].
  destruct (scan_right_total st cb m ax fuel (Z.of_nat (len cb) - 1) jl)
    as (right' & -> & Hr' & Hlr'); [done|lia|lia|done|lia|].
  cbn [mbind result_bind].
  assert (left' ≠ right') by (intros ->; exact (low_not_high _ _ _ _ _ Hlr' Hhl)).
  destruct (swap_total st cb m ax left' right') as (st' & -> & Hin' & Hlow' & Hhigh');
    [done..|].
  cbn [mbind result_bind].
  destruct (decide (left' < right')) as [Hlt|Hge].
  - apply (partition_loop_settled cb m ax (len cb)); try done; lia.
  - destruct fuel; cbn [partition_loop]; rewrite bool_decide_false by done; eauto.
Qed.

(** [partition] returns on every bucket of good members of which two differ
    in red, green or blue. *)
Lemma partition_total fuel st cb c1 c2 :
  within st cb → Forall good (contents st cb) → Z.of_nat (len cb) < 2 ^ 32 →
  c1 ∈ contents st cb → c2 ∈ contents st cb → rgb c1 ≠ rgb c2 →
  (2 * len cb + 4 ≤ fuel)%nat →
  ∃ st' l r, partition fuel st cb = Ok (st', l, r).
Proof.
  intros Hin Hgood Hlen H1 H2 Hne Hfuel.
  destruct (span_of_splits (contents st cb) c1 c2) as [(cl & Hcl & Hgl) (ch & Hch & Hgh)];
    [done|by rewrite length_contents|done..|].
  apply list_elem_of_lookup in Hcl as [jl Hjl]. apply list_elem_of_lookup in Hch as [jh Hjh].
  apply read_contents in Hjl; [|done]. apply read_contents in Hjh; [|done].
  unfold partition, span.
  destruct (span_of (contents st cb)) as [m ax]. simpl in *.
  destruct (partition_loop_total cb m ax fuel st (Z.of_nat jl) (Z.of_nat jh))
    as ([st' k] & Hk); [done|by exists cl|by exists ch|done|].
  rewrite Hk. cbn [mbind result_bind].
  apply partition_loop_spec in Hk as (_ & _ & _ & Hin' & Hout).
  assert (0 ≤ k ≤ Z.of_nat (len cb)).
  { destruct (decide (0 < Z.of_nat (len cb) - 1)); [specialize (Hin' ltac:(done))|
      specialize (Hout ltac:(done))]; lia. }
  unfold reslice. rewrite !bool_decide_true by lia. cbn [mbind result_bind]. eauto.
Qed.

(** ** [bucketize] returns *)

Lemma lead_le q : (lead q ≤ length q)%nat.
Proof. induction q as [|b q IH]; simpl; [done|]. destruct (decide _); lia. Qed.

Lemma lead_lt q :
  Forall (λ b, 1 ≤ len b)%nat q → (length q < sum_list (len <$> q))%nat →
  (lead q < length q)%nat.
Proof.
  induction 1 as [|b q Hb Hq IH]; csimpl; intros Hsum; [lia|].
  destruct (decide _); [|lia].
  assert (lead q < length q)%nat by (apply IH; lia). lia.
Qed.

Lemma lead_app q1 q2 : (lead q1 < length q1)%nat → lead (q1 ++ q2) = lead q1.
Proof.
  induction q1 as [|b q1 IH]; simpl; intros H; [lia|].
  destruct (decide _); [|done]. rewrite IH; [done|lia].
Qed.

Lemma queue_ok_rotate st b rest : queue_ok st (b :: rest) → queue_ok st (rest ++ [b]).
Proof.
  intros [Hin Hdis]. apply Forall_cons in Hin as [Hb Hrest].
  simpl in Hdis. destruct Hdis as [Hbd Hrd].
  split; [apply Forall_app; by repeat constructor|].
  apply pairwise_disjoint_app. split_and!; [done|by repeat constructor|].
  eapply Forall_impl; [exact Hbd|]. intros b' Hb'. simpl in Hb'.
  apply Forall_cons. split; [by apply disjoint_sym|constructor].
Qed.

Lemma queue_ok_cut st st' b rest k :
  length st' = length st → (k ≤ len b)%nat →
  queue_ok st (b :: rest) → queue_ok st' (rest ++ [(cut b k).1; (cut b k).2]).
Proof.
  intros Hlen Hk [Hin Hdis]. apply Forall_cons in Hin as [Hb Hrest].
  simpl in Hdis. destruct Hdis as [Hbd Hrd].
  destruct (within_cut st b k Hk Hb) as [Hw1 Hw2].
  split.
  - apply Forall_app. split.
    + eapply Forall_impl; [exact Hrest|]. intros b'. by apply within_length.
    + repeat (apply Forall_cons; split); [by eapply within_length..|constructor].
  - apply pairwise_disjoint_app. split_and!; [done| |].
    + simpl. split_and!; try done.
      apply Forall_cons. split; [apply disjoint_cut|constructor].
    + eapply Forall_impl; [exact Hbd|]. intros b' Hb'. simpl in Hb'.
      apply disjoint_sym in Hb'. destruct (disjoint_cut_l b' b k Hk Hb').
      apply Forall_cons. split; [done|].
      apply Forall_cons. split; [done|constructor].
Qed.

Lemma queue_good_perm st st' q q' :
  queue_ok st' q' → Forall (λ b, 1 ≤ len b)%nat q' →
  members st' q' ≡ₚ members st q →
  queue_good st q → queue_good st' q'.
Proof.
  intros Hok Hpos Hperm (_ & _ & Hgood & Hnd).
  split_and!; [done|done|by rewrite Hperm|by rewrite Hperm].
Qed.

Lemma first_two_differ st b rest :
  within st b → (2 ≤ len b)%nat → NoDup (rgb <$> members st (b :: rest)) →
  ∃ c1 c2, c1 ∈ contents st b ∧ c2 ∈ contents st b ∧ rgb c1 ≠ rgb c2.
Proof.
  intros Hin Hlen Hnd. pose proof (length_contents st b Hin) as Hl.
  rewrite members_cons, fmap_app in Hnd. apply NoDup_app in Hnd as [Hnd _].
  destruct (contents st b) as [|c1 [|c2 l]]; simpl in Hl; try lia.
  exists c1, c2. split_and!; [left|right; left|].
  csimpl in Hnd. apply NoDup_cons in Hnd as [Hnot _].
  intros Heq. apply Hnot. rewrite Heq. left.
Qed.

(** The loop of [bucketize] returns when the fuel covers its turns and the
    partition of its largest bucket. *)
Lemma bucketize_loop_total num n : ∀ M st q fuel,
  queue_good st q → sum_list (len <$> q) = n → Z.of_nat n < 2 ^ 32 →
  ((n - length q) * (n + 1) + lead q ≤ M)%nat →
  (M + 2 * n + 5 ≤ fuel)%nat →
  ∃ res, bucketize_loop fuel st q num n = Ok res.
Proof.
  induction M as [|M IH]; intros st q fuel Hq Hsum Hst HM Hfuel.
  - destruct fuel as [|fuel]; [lia|]. cbn [bucketize_loop].
    rewrite (bool_decide_false (length q < n)%nat) by nia.
    rewrite andb_false_r. eauto.
  - destruct fuel as [|fuel]; [lia|]. cbn [bucketize_loop].
    destruct (_ && _) eqn:Hc; [|eauto].
    rewrite andb_true_iff, !bool_decide_eq_true in Hc. destruct Hc as [Hnum Hn].
    destruct Hq as (Hok & Hpos & Hgood & Hnd).
    destruct q as [|b rest]; [simpl in *; lia|].
    pose proof Hok as [Hin _]. apply Forall_cons in Hin as [Hb Hrest].
    pose proof Hpos as Hpos'. apply Forall_cons in Hpos' as [Hb1 Hrest1].
    pose proof (lead_le rest).
    csimpl in Hsum. simpl in Hn, HM.
    case_bool_decide as H1.
    + (* rotation: the first larger bucket comes one place nearer *)
      rewrite decide_True in HM by done.
      assert (lead rest < length rest)%nat.
      { apply lead_lt; [done|]. lia. }
      apply IH; try done.
      * apply (queue_good_perm st st (b :: rest)); [by apply queue_ok_rotate| |
          |by split_and!].
        -- apply Forall_app. by repeat constructor.
        -- rewrite members_app, members_one, members_cons. apply Permutation_app_comm.
      * rewrite fmap_app, sum_list_with_app. csimpl. lia.
      * rewrite length_app, lead_app by done. simpl. lia.
      * lia.
    + assert (Hshrink : ∀ q', length q' = S (S (length rest)) →
                ((n - length q') * (n + 1) + lead q' ≤ M)%nat).
      { intros q' Hq'. pose proof (lead_le q'). rewrite decide_False in HM by done.
        rewrite Hq'. nia. }
      case_bool_decide as H2.
      * (* a bucket of two members *)
        apply IH; try done.
        -- apply (queue_good_perm st st (b :: rest));
             [by apply (queue_ok_cut st); [done|lia|]| | |by split_and!].
           ++ apply Forall_app. split; [done|]. repeat constructor; simpl; lia.
           ++ rewrite members_app, members_two, members_cons.
              change (mkBucket (off b) 1) with (cut b 1).1.
              change (mkBucket (off b + 1) (len b - 1)) with (cut b 1).2.
              rewrite contents_cut by lia. apply Permutation_app_comm.
        -- rewrite fmap_app, sum_list_with_app. csimpl. lia.
        -- apply Hshrink. rewrite length_app. simpl. lia.
        -- lia.
      * (* a larger bucket: [partition] returns, and the queue grows *)
        destruct (first_two_differ st b rest) as (c1 & c2 & Hc1 & Hc2 & Hne);
          [done|lia|done|].
        rewrite members_cons in Hgood. apply Forall_app in Hgood as [Hgb Hgr].
        unfold within in Hb.
        destruct (partition_total fuel st b c1 c2) as (st1 & l & r & Hp);
          [done|done|lia|done|done|done|lia|].
        rewrite Hp. cbn [mbind result_bind].
        apply partition_spec in Hp as (k & Hk & -> & -> & Hl1 & Hp1 & Hf1); [|lia].
        assert (Hframe : Forall (λ b', contents st1 b' = contents st b') rest).
        { destruct Hok as [_ [Hbd _]]. eapply Forall_impl; [exact Hbd|].
          intros b' Hb'. simpl in Hb'. apply Hf1. by apply disjoint_sym. }
        apply IH; try done.
        -- apply (queue_good_perm st st1 (b :: rest));
             [by apply (queue_ok_cut st); [done|lia|]| | |].
           ++ apply Forall_app. split; [done|]. repeat constructor; simpl; lia.
           ++ rewrite members_app, members_two, members_cons, contents_cut by lia.
              rewrite (members_frame _ _ _ Hframe), Hp1. apply Permutation_app_comm.
           ++ split_and!; try done. rewrite members_cons. by apply Forall_app.
        -- rewrite fmap_app, sum_list_with_app. csimpl. lia.
        -- apply Hshrink. rewrite length_app. simpl. lia.
        -- lia.
Qed.

(** On colours of distinct red, green and blue, [bucketize] returns for any
    fuel above the square of their number. *)
Lemma bucketize_total fuel st colors num :
  within st colors → Forall good (contents st colors) →
  NoDup (rgb <$> contents st colors) →
  Z.of_nat (len colors) < 2 ^ 32 → 0 ≤ num → 24 * (num * 2) ≤ maxAlloc →
  ((len colors + 2) * (len colors + 2) + 2 ≤ fuel)%nat →
  ∃ st' buckets, bucketize fuel st colors num = Ok (st', buckets).
Proof.
  intros Hin Hgood Hnd Hst Hnum Hcap Hfuel. unfold bucketize.
  destruct (_ || _) eqn:Hz; [eauto|].
  apply orb_false_iff in Hz as [Hz1 Hz2].
  apply bool_decide_eq_false in Hz1, Hz2.
  rewrite (wrap_int_small (num * 2)) by (unfold maxAlloc in Hcap; lia).
  rewrite makeslice_true by (unfold sizeof_colorBucket, maxAlloc in *; lia).
  cbn [negb].
  destruct (bucketize_loop_total num (len colors) ((len colors - 1) * (len colors + 1) + 1)
              st [colors] fuel) as ([st' buckets] & H); [| | | |nia|eauto].
  - split_and!; [by apply queue_ok_one|repeat constructor; lia
                 |by rewrite members_one|by rewrite members_one].
  - csimpl. lia.
  - done.
  - simpl. destruct (decide _); lia.
Qed.

Lemma entry_rgb_inj l : NoDup (rgb <$> l) → NoDup (entry <$> l).
Proof.
  induction l as [|c l IH]; csimpl; intros Hnd; [constructor|].
  apply NoDup_cons in Hnd as [Hnot Hnd]. apply NoDup_cons. split; [|by apply IH].
  intros Hin. apply Hnot.
  apply list_elem_of_fmap in Hin as (c' & Heq & Hc').
  apply list_elem_of_fmap. exists c'. split; [|done].
  unfold entry in Heq. injection Heq as Heq. unfold rgb. by rewrite Heq.
Qed.

Lemma NoDup_fmap_weaker {T U V} (f : T → U) (g : T → V) (l : list T) :
  (∀ a b, a ∈ l → b ∈ l → f a = f b → g a = g b) →
  NoDup (g <$> l) → NoDup (f <$> l).
Proof.
  induction l as [|x l IH]; csimpl; intros Hfg Hnd; [constructor|].
  apply NoDup_cons in Hnd as [Hnot Hnd]. apply NoDup_cons. split.
  - intros Hin. apply Hnot. apply list_elem_of_fmap in Hin as (y & Hf & Hy).
    apply list_elem_of_fmap. exists y. split; [|done].
    apply Hfg; [left|by right|done].
  - apply IH; [|done]. intros a b Ha Hb. apply Hfg; by right.
Qed.

(** The colours of distinct red, green and blue are 2^24 at most. *)
Lemma distinct_rgb_length l :
  Forall good l → NoDup (rgb <$> l) → Z.of_nat (length l) ≤ 2 ^ 24.
Proof.
  intros Hgood Hnd.
  set (f := λ c : colorPriority,
         color.R (RGBA c) * 65536 + color.G (RGBA c) * 256 + color.B (RGBA c)).
  assert (Hin : ∀ c, c ∈ l → 0 ≤ f c < 2 ^ 24).
  { intros c Hc. rewrite Forall_forall in Hgood.
    destruct (Hgood c Hc) as [_ (? & ? & ? & ?)]. unfold f, is_u8 in *. lia. }
  assert (Hf : NoDup (f <$> l)).
  { apply (NoDup_fmap_weaker f rgb); [|done].
    intros c1 c2 H1 H2 Heq. rewrite Forall_forall in Hgood.
    destruct (Hgood c1 H1) as [_ (? & ? & ? & ?)].
    destruct (Hgood c2 H2) as [_ (? & ? & ? & ?)].
    unfold f, is_u8 in *. cbv beta in Heq.
    unfold rgb. f_equal; [f_equal|]; lia. }
  assert (f <$> l ⊆+ seqZ 0 (2 ^ 24)) as Hsub.
  { apply NoDup_submseteq; [done|]. intros x Hx.
    apply list_elem_of_fmap in Hx as (c & -> & Hc). apply elem_of_seqZ.
    specialize (Hin c Hc). lia. }
  apply submseteq_length in Hsub. rewrite length_fmap, length_seqZ in Hsub. lia.
Qed.

(** X2. Outside of the case of C3 the Mode reduction reproduces the colours:
    for aggregated colours (positive 32-bit weights, 8-bit channels) no two
    of which share their red, green and blue, a target count [num] of at
    least their number for which [make([]colorBucket, 1, num*2)] is within
    [maxAlloc] (24 bytes a bucket), and fuel above the square of their
    number, [bucketize] returns, and [palettize] in Mode appends every
    colour exactly once.  For a greater target count [make] panics. *)
Theorem Mode_each_distinct_colour_once fuel st colors num pal :
  within st colors → Forall good (contents st colors) →
  NoDup (rgb <$> contents st colors) →
  Z.of_nat (len colors) ≤ num → sizeof_colorBucket * (num * 2) ≤ maxAlloc →
  ((len colors + 2) * (len colors + 2) + 2 ≤ fuel)%nat →
  ∃ st' buckets ext,
    bucketize fuel st colors num = Ok (st', buckets)
    ∧ palettize Mode st' pal buckets = Ok (pal ++ ext)
    ∧ ext ≡ₚ entry <$> contents st colors
    ∧ NoDup ext.
Proof.
  intros Hin Hgood Hnd Hnum Hcap Hfuel.
  pose proof (distinct_rgb_length _ Hgood Hnd) as Hlen.
  rewrite length_contents in Hlen by done.
  destruct (bucketize_total fuel st colors num) as (st' & buckets & H);
    [done|done|done|lia|lia|done|done|].
  assert (Hpos : Forall positive_u32 (contents st colors)).
  { eapply Forall_impl; [exact Hgood|]. by intros c [? _]. }
  destruct (bucketize_Mode_each_once fuel st colors num st' buckets pal)
    as (ext & Hpal & Hperm); [done|done|lia|done|].
  exists st', buckets, ext. split_and!; [done|done|done|].
  rewrite Hperm. by apply entry_rgb_inj.
Qed.

Lemma tie_store_good : Forall good (contents tie_store tie_bucket).
Proof.
  change (contents tie_store tie_bucket) with tie_store.
  assert (∀ c, p c = 1 → color.wf (RGBA c) → good c) as Hgood.
  { intros c Hp Hc. split; [unfold positive_u32; lia|done]. }
  unfold tie_store.
  repeat (apply Forall_cons; split;
          [apply Hgood; [done|unfold color.wf, is_u8; simpl; lia]|]).
  constructor.
Qed.

Lemma tie_store_distinct : NoDup (rgb <$> contents tie_store tie_bucket).
Proof. apply (bool_decide_unpack (NoDup _)). by vm_compute. Qed.

Lemma Mode_each_distinct_colour_once_witness :
  ∃ st' buckets ext,
    bucketize 30 tie_store tie_bucket 3 = Ok (st', buckets)
    ∧ palettize Mode st' [] buckets = Ok ([] ++ ext)
    ∧ ext ≡ₚ entry <$> contents tie_store tie_bucket
    ∧ NoDup ext.
Proof.
  apply (Mode_each_distinct_colour_once 30 tie_store tie_bucket 3 []).
  - unfold within. simpl. lia.
  - exact tie_store_good.
  - exact tie_store_distinct.
  - simpl. lia.
  - vm_compute. discriminate.
  - simpl. lia.
Defined.

(** ** Further properties *)

(** X3. On a non-empty list of aggregated colours (positive 32-bit weights,
    8-bit channels) no two of which share their red, green and blue,
    [bucketize] returns for every positive target count [num] for which
    [make([]colorBucket, 1, num*2)] is within [maxAlloc] (24 bytes a
    bucket), given fuel above the square of the number of colours: at least
    one and at most the target number of buckets, none empty, no two
    overlapping, holding the colours it was given, each once.  For a greater
    target count [make] panics. *)
Theorem bucketize_returns_partition fuel st colors num :
  within st colors → Forall good (contents st colors) →
  NoDup (rgb <$> contents st colors) →
  1 ≤ num → sizeof_colorBucket * (num * 2) ≤ maxAlloc → (1 ≤ len colors)%nat →
  ((len colors + 2) * (len colors + 2) + 2 ≤ fuel)%nat →
  ∃ st' buckets,
    bucketize fuel st colors num = Ok (st', buckets)
    ∧ buckets ≠ []
    ∧ Z.of_nat (length buckets) ≤ num
    ∧ Forall (λ b, 1 ≤ len b)%nat buckets
    ∧ queue_ok st' buckets
    ∧ members st' buckets ≡ₚ contents st colors.
Proof.
  intros Hin Hgood Hnd Hnum Hcap Hlen Hfuel.
  pose proof (distinct_rgb_length _ Hgood Hnd) as Hmax.
  rewrite length_contents in Hmax by done.
  destruct (bucketize_total fuel st colors num) as (st' & buckets & H);
    [done|done|done|lia|lia|done|done|].
  exists st', buckets. split; [done|].
  apply bucketize_spec in H as (Hok & _ & Hperm & Hne & Hle & _); [|done|lia].
  destruct (Hne Hlen) as [? ?]. split_and!; try done. apply Hle. lia.
Qed.

Lemma bucketize_returns_partition_witness :
  ∃ st' buckets,
    bucketize 30 tie_store tie_bucket 2 = Ok (st', buckets)
    ∧ buckets ≠ []
    ∧ Z.of_nat (length buckets) ≤ 2
    ∧ Forall (λ b, 1 ≤ len b)%nat buckets
    ∧ queue_ok st' buckets
    ∧ members st' buckets ≡ₚ contents tie_store tie_bucket.
Proof.
  apply (bucketize_returns_partition 30 tie_store tie_bucket 2).
  - unfold within. simpl. lia.
  - exact tie_store_good.
  - exact tie_store_distinct.
  - lia.
  - vm_compute. discriminate.
  - simpl. lia.
  - simpl. lia.
Defined.

(** * Further properties of the code *)

(** ** The two halves of [partition] *)

Lemma gt_chan m c ax : gt m (RGBA c) ax = bool_decide (chan ax c < m).
Proof. destruct ax; simpl; apply bool_decide_ext; lia. Qed.

Lemma scan_left_passed fuel st cb m ax : ∀ left k,
  scan_left fuel st cb m ax left = Ok k →
  ∀ j, left ≤ j < k → low_at st cb m ax j.
Proof.
  induction fuel as [|fuel IH]; intros left k H j Hj; simpl in H; [discriminate|].
  destruct (read st cb left) as [c| |] eqn:E; simpl in H; try discriminate.
  destruct (gt m (RGBA c) ax) eqn:Eg.
  - destruct (decide (j = left)) as [->|Hne]; [by exists c|].
    apply (IH _ _ H). lia.
  - injection H as <-. lia.
Qed.

Lemma scan_right_passed fuel st cb m ax : ∀ right k,
  scan_right fuel st cb m ax right = Ok k →
  ∀ j, k < j ≤ right → high_at st cb m ax j.
Proof.
  induction fuel as [|fuel IH]; intros right k H j Hj; simpl in H; [discriminate|].
  destruct (read st cb right) as [c| |] eqn:E; simpl in H; try discriminate.
  destruct (gt m (RGBA c) ax) eqn:Eg.
  - injection H as <-. lia.
  - destruct (decide (j = right)) as [->|Hne]; [by exists c|].
    apply (IH _ _ H). lia.
Qed.

(** The exchange leaves every other slot of the bucket as it was. *)
Lemma swap_others st cb left right st' j :
  within st cb → swap st cb left right = Ok st' →
  0 ≤ j < Z.of_nat (len cb) → j ≠ left → j ≠ right →
  read st' cb j = read st cb j.
Proof.
  intros Hin H Hj Hl Hr. unfold swap in H.
  inv_bind H. inv_bind H. injection H as <-.
  pose proof (read_Ok _ _ _ _ Ht) as [Hlb _].
  pose proof (read_Ok _ _ _ _ Ht0) as [Hrb _].
  assert (within (write st cb left t0) cb) by (unfold within; by rewrite length_write).
  rewrite read_write by done. rewrite decide_False by done.
  rewrite read_write by done. by rewrite decide_False.
Qed.

(** The loop of [partition], once entered, ends on an exchange of two
    neighbours that were in order: every slot before [k - 1] is below the
    cut and every slot after [k] is not, but slot [k - 1] holds a member at
    or above the cut and slot [k] one below it. *)
Lemma partition_loop_shape cb m ax fuel : ∀ st left right st' k,
  within st cb → 0 ≤ left → right < Z.of_nat (len cb) → left < right →
  (∀ j, 0 ≤ j < left → low_at st cb m ax j) →
  (∀ j, right < j < Z.of_nat (len cb) → high_at st cb m ax j) →
  partition_loop fuel st cb m ax left right = Ok (st', k) →
  0 < k < Z.of_nat (len cb)
  ∧ (∀ j, 0 ≤ j < k - 1 → low_at st' cb m ax j)
  ∧ high_at st' cb m ax (k - 1)
  ∧ low_at st' cb m ax k
  ∧ (∀ j, k < j < Z.of_nat (len cb) → high_at st' cb m ax j).
Proof.
  induction fuel as [|fuel IH]; intros st left right st' k Hin Hl Hr Hlr Hlow Hhigh H;
    simpl in H; rewrite bool_decide_true in H by done; [discriminate|].
  inv_bind H. inv_bind H. inv_bind H.
  rename t into left', t0 into right', t1 into st1.
  pose proof (scan_left_passed _ _ _ _ _ _ _ Ht) as Hpl.
  pose proof (scan_right_passed _ _ _ _ _ _ _ Ht0) as Hpr.
  apply scan_left_Ok in Ht as (Hl' & Hhl).
  apply scan_right_Ok in Ht0 as (Hr' & Hlr').
  pose proof Hhl as (cl & Hcl & _). apply read_Ok in Hcl as [Hlb _].
  pose proof Hlr' as (cr & Hcr & _). apply read_Ok in Hcr as [Hrb _].
  assert (left' ≠ right') as Hne by (intros ->; exact (low_not_high _ _ _ _ _ Hlr' Hhl)).
  pose proof (λ j, swap_others st cb left' right' st1 j Hin Ht1) as Hsame.
  destruct (swap_total st cb m ax left' right' Hin Hne Hhl Hlr')
    as (st1' & Hsw & Hin1 & Hlow1 & Hhigh1).
  rewrite Ht1 in Hsw. injection Hsw as <-.
  assert (∀ j, 0 ≤ j < left' → low_at st cb m ax j) as Hlow'.
  { intros j Hj. destruct (decide (j < left)); [apply Hlow; lia|apply Hpl; lia]. }
  assert (∀ j, right' < j < Z.of_nat (len cb) → high_at st cb m ax j) as Hhigh'.
  { intros j Hj. destruct (decide (right < j)); [apply Hhigh; lia|apply Hpr; lia]. }
  assert (∀ j, 0 ≤ j < Z.of_nat (len cb) → j ≠ left' → j ≠ right' →
            (low_at st1 cb m ax j ↔ low_at st cb m ax j)
            ∧ (high_at st1 cb m ax j ↔ high_at st cb m ax j)) as Hkeep.
  { intros j Hj H1 H2. unfold low_at, high_at. by rewrite Hsame. }
  destruct (decide (left' < right')) as [Hlt|Hge].
  - apply (IH st1 left' right'); try done; try lia.
    + intros j Hj. apply Hkeep; [lia..|]. by apply Hlow'.
    + intros j Hj. apply Hkeep; [lia..|]. by apply Hhigh'.
  - assert (partition_loop fuel st1 cb m ax left' right' = Ok (st1, left')) as Hend.
    { destruct fuel; simpl; by rewrite bool_decide_false. }
    rewrite Hend in H. injection H as <- <-.
    assert (right' = left' - 1) as ->.
    { destruct (decide (right' = left' - 1)) as [|Hgap]; [done|]. exfalso.
      apply (low_not_high st cb m ax (left' - 1)); [apply Hlow'|apply Hhigh']; lia. }
    split; [lia|]. split_and!; [|done|done|].
    + intros j Hj. apply Hkeep; [lia..|]. apply Hlow'. lia.
    + intros j Hj. apply Hkeep; [lia..|]. apply Hhigh'. lia.
Qed.

(** The members of a slice all have a property that each of its slots
    has. *)
Lemma Forall_contents (P : colorPriority → Prop) st cb :
  within st cb →
  (∀ j, 0 ≤ j < Z.of_nat (len cb) → ∃ c, read st cb j = Ok c ∧ P c) →
  Forall P (contents st cb).
Proof.
  intros Hin H. apply Forall_lookup. intros i c Hc.
  pose proof (lookup_lt_Some _ _ _ Hc) as Hi. rewrite length_contents in Hi by done.
  destruct (H (Z.of_nat i)) as (c' & Hc' & HP); [lia|].
  apply read_Ok in Hc' as [_ Hc']. rewrite Nat2Z.id in Hc'. congruence.
Qed.

(** Reading a slot of a part of a slice. *)
Lemma read_part st cb a n j :
  (a + n ≤ len cb)%nat → 0 ≤ j < Z.of_nat n →
  read st (mkBucket (off cb + a) n) j = read st cb (Z.of_nat a + j).
Proof.
  intros Ha Hj. unfold read. simpl.
  rewrite !bool_decide_true by lia.
  by replace (off cb + a + Z.to_nat j)%nat with (off cb + Z.to_nat (Z.of_nat a + j))%nat by lia.
Qed.

Lemma contents_one st cb c :
  len cb = 1%nat → read st cb 0 = Ok c → contents st cb = [c].
Proof.
  intros Hlen H. apply read_Ok in H as [_ H]. 
  unfold contents in *. rewrite Hlen in *.
  destruct (drop (off cb) st) as [|x l]; simpl in *; [done|]. 
  rewrite take_0. congruence.
Qed.

(** X4. Whenever [partition] returns on a bucket of two members or more, the
    two halves are not the members below the cut and the others: the loop
    tests [left < right] only before the two scans, so its last turn
    exchanges two neighbours that the scans had found in order.  The left
    half is made of members below the cut followed by one member at or above
    it, the right half of one member below the cut followed by members at or
    above it. *)
Theorem partition_misplaces_one_pair fuel st cb st' l r :
  within st cb → (2 ≤ len cb)%nat →
  partition fuel st cb = Ok (st', l, r) →
  ∃ lows h lo highs,
    contents st' l = lows ++ [h]
    ∧ contents st' r = lo :: highs
    ∧ Forall (λ c, chan (span st cb).2 c < (span st cb).1) lows
    ∧ (span st cb).1 ≤ chan (span st cb).2 h
    ∧ chan (span st cb).2 lo < (span st cb).1
    ∧ Forall (λ c, (span st cb).1 ≤ chan (span st cb).2 c) highs.
Proof.
  intros Hin Hlen H. unfold partition in H.
  destruct (span st cb) as [m ax]. cbn [fst snd].
  inv_bind H. destruct t as [st1 k]. inv_bind H. inv_bind H.
  injection H as <- <- <-.
  pose proof (partition_loop_spec _ _ _ _ _ _ _ _ _ Ht) as (Hl & _).
  assert (within st1 cb) as Hin1 by (unfold within in *; by rewrite Hl).
  apply partition_loop_shape in Ht as (Hk & Hlow & Hh & Hlo & Hhigh);
    [|done|lia|lia|lia|intros; lia|intros; lia].
  unfold reslice in Ht0, Ht1. repeat case_bool_decide; simplify_eq.
  replace (Z.to_nat (k - 0)) with (Z.to_nat k) by lia.
  replace (off cb + Z.to_nat 0)%nat with (off cb) by lia.
  destruct Hh as (h & Hh & Hgh). destruct Hlo as (lo & Hlo & Hglo).
  rewrite gt_chan in Hgh, Hglo.
  apply bool_decide_eq_false in Hgh. apply bool_decide_eq_true in Hglo.
  exists (contents st1 (mkBucket (off cb) (Z.to_nat k - 1))), h, lo,
         (contents st1 (mkBucket (off cb + Z.to_nat k + 1) (len cb - Z.to_nat k - 1))).
  split_and!.
  - rewrite <- (contents_cut st1 (mkBucket (off cb) (Z.to_nat k)) (Z.to_nat k - 1))
      by (simpl; lia).
    unfold cut. simpl. f_equal.
    apply contents_one; [simpl; lia|].
    pose proof (read_part st1 cb (Z.to_nat k - 1) (Z.to_nat k - (Z.to_nat k - 1)) 0) as Hp.
    simpl in Hp. rewrite Hp by lia.
    by replace (Z.of_nat (Z.to_nat k - 1) + 0) with (k - 1) by lia.
  - rewrite <- (contents_cut st1
      (mkBucket (off cb + Z.to_nat k) (Z.to_nat (Z.of_nat (len cb) - k))) 1)
      by (simpl; lia).
    unfold cut. simpl.
    replace (Z.to_nat (Z.of_nat (len cb) - k) - 1)%nat with (len cb - Z.to_nat k - 1)%nat
      by lia.
    change (lo :: ?x) with ([lo] ++ x). f_equal.
    apply contents_one; [done|].
    pose proof (read_part st1 cb (Z.to_nat k) 1 0) as Hp.
    simpl in Hp. rewrite Hp by lia.
    by replace (Z.of_nat (Z.to_nat k) + 0) with k by lia.
  - apply Forall_contents; [unfold within in *; simpl; lia|]. simpl. intros j Hj.
    destruct (Hlow j) as (c & Hc & Hg); [lia|]. exists c.
    rewrite gt_chan in Hg. apply bool_decide_eq_true in Hg. split; [|done].
    pose proof (read_part st1 cb 0 (Z.to_nat k - 1) j) as Hp.
    rewrite Nat.add_0_r in Hp. rewrite Hp by lia. by rewrite Z.add_0_l.
  - lia.
  - done.
  - apply Forall_contents; [unfold within in *; simpl; lia|]. simpl. intros j Hj.
    destruct (Hhigh (k + 1 + j)) as (c & Hc & Hg); [lia|]. exists c.
    rewrite gt_chan in Hg. apply bool_decide_eq_false in Hg. split; [|lia].
    pose proof (read_part st1 cb (Z.to_nat k + 1) (len cb - Z.to_nat k - 1) j) as Hp.
    rewrite Nat.add_assoc in Hp. rewrite Hp by lia.
    by replace (Z.of_nat (Z.to_nat k + 1) + j) with (k + 1 + j) by lia.
Qed.

Lemma partition_misplaces_one_pair_witness :
  match partition 20 sorted_four four_bucket with
  | Ok (st', l, r) =>
      ∃ lows h lo highs,
        contents st' l = lows ++ [h]
        ∧ contents st' r = lo :: highs
        ∧ Forall (λ c, chan (span sorted_four four_bucket).2 c
                       < (span sorted_four four_bucket).1) lows
        ∧ (span sorted_four four_bucket).1 ≤ chan (span sorted_four four_bucket).2 h
        ∧ chan (span sorted_four four_bucket).2 lo < (span sorted_four four_bucket).1
        ∧ Forall (λ c, (span sorted_four four_bucket).1
                       ≤ chan (span sorted_four four_bucket).2 c) highs
  | _ => False
  end.
Proof.
  destruct (partition 20 sorted_four four_bucket) as [[[st' l] r]| |] eqn:E.
  - apply (partition_misplaces_one_pair 20 sorted_four four_bucket st' l r);
      [unfold within; simpl; lia | simpl; lia | exact E].
  - vm_compute in E. discriminate E.
  - vm_compute in E. discriminate E.
Defined.

(** X5. On a bucket of two members or more as the aggregation produces
    them, two of which differ in red, green or blue, [partition] returns,
    given fuel above twice the length: it cuts the bucket in two adjacent
    halves, neither of them empty, after permuting the members in place,
    and writes no slot outside of the bucket. *)
Theorem partition_splits_in_place fuel st cb c1 c2 :
  within st cb → Forall good (contents st cb) → (2 ≤ len cb)%nat →
  Z.of_nat (len cb) < 2 ^ 32 →
  c1 ∈ contents st cb → c2 ∈ contents st cb → rgb c1 ≠ rgb c2 →
  (2 * len cb + 4 ≤ fuel)%nat →
  ∃ st' k,
    partition fuel st cb = Ok (st', (cut cb k).1, (cut cb k).2)
    ∧ (0 < k < len cb)%nat
    ∧ length st' = length st
    ∧ contents st' cb ≡ₚ contents st cb
    ∧ ∀ b, disjoint b cb → contents st' b = contents st b.
Proof.
  intros Hin Hgood Hlen Hfit H1 H2 Hne Hfuel.
  destruct (partition_total fuel st cb c1 c2) as (st' & l & r & H); [done..|].
  destruct (partition_spec _ _ _ _ _ _ Hlen H) as (k & Hk & -> & -> & ? & ? & ?).
  by exists st', k.
Qed.

Lemma partition_splits_in_place_witness :
  ∃ st' k,
    partition 20 sorted_four four_bucket = Ok (st', (cut four_bucket k).1, (cut four_bucket k).2)
    ∧ (0 < k < len four_bucket)%nat
    ∧ length st' = length sorted_four
    ∧ contents st' four_bucket ≡ₚ contents sorted_four four_bucket
    ∧ ∀ b, disjoint b four_bucket → contents st' b = contents sorted_four b.
Proof.
  apply (partition_splits_in_place 20 sorted_four four_bucket (grey_level 1) (grey_level 2)).
  - unfold within. simpl. lia.
  - change (contents sorted_four four_bucket) with sorted_four.
    unfold sorted_four.
    repeat (apply Forall_cons; split;
            [split; [unfold positive_u32; simpl; lia
                    |unfold color.wf, is_u8; simpl; lia]|]).
    constructor.
  - simpl. lia.
  - simpl. lia.
  - change (contents sorted_four four_bucket) with sorted_four. unfold sorted_four. left.
  - change (contents sorted_four four_bucket) with sorted_four. unfold sorted_four.
    right. left.
  - discriminate.
  - simpl. lia.
Defined.

(** ** The value [span] returns *)

Lemma below_256 ax l : Forall good l → below ax 256 l = weight l.
Proof.
  induction 1 as [|c l [_ (?&?&?&?)] _ IH]; [done|].
  rewrite below_cons. simpl. rewrite decide_True; [lia|].
  unfold is_u8 in *. destruct ax; simpl; lia.
Qed.

(** The last loop of [span] stops at the first value at which its test
    holds. *)
Lemma median_scan_least ax l vals : ∀ i,
  Forall good l → weight l < 2 ^ 64 →
  0 ≤ i < 256 →
  vals = drop (Z.to_nat i) (hist ax l (replicate 256 0)) →
  length (hist ax l (replicate 256 0)) = 256%nat →
  i ≤ median_scan vals (weight l) (below ax i l) i < 256
  ∧ cut_reached ax l (median_scan vals (weight l) (below ax i l) i)
  ∧ ∀ j, i ≤ j < median_scan vals (weight l) (below ax i l) i →
         below ax j l ≤ weight l `quot` 2 ∧ below ax (j + 1) l < weight l.
Proof.
  induction vals as [|c rest IH]; intros i Hl Hw Hi Hvals Hlen.
  { apply (f_equal length) in Hvals. rewrite length_drop, Hlen in Hvals.
    simpl in Hvals. lia. }
  assert (Hc : c = at_value ax i l).
  { pose proof (hist_zero ax l (Z.to_nat i) Hl Hw ltac:(lia)) as Hh.
    rewrite Z2Nat.id in Hh by lia.
    apply (f_equal (λ v, v !! 0%nat)) in Hvals.
    change ((c :: rest) !! 0%nat) with (Some c) in Hvals.
    rewrite lookup_drop, Nat.add_0_r, Hh in Hvals. by injection Hvals. }
  pose proof (below_bounds ax i l Hl) as Hb.
  pose proof (below_bounds ax (i + 1) l Hl) as Hb1.
  pose proof (below_succ ax i l) as Hs.
  assert (Hvlen : length (c :: rest) = (256 - Z.to_nat i)%nat).
  { rewrite Hvals, length_drop, Hlen. done. }
  cbn [median_scan]. rewrite wrap_u64_small by lia.
  destruct (_ || _) eqn:Hbreak.
  { split_and!; [lia|lia| |intros j Hj; lia].
    apply orb_true_iff in Hbreak as [H1|H2].
    - apply bool_decide_eq_true in H1. left. lia.
    - apply bool_decide_eq_true in H2. right. lia. }
  apply orb_false_iff in Hbreak as [H1 H2].
  apply bool_decide_eq_false in H1, H2.
  destruct rest as [|c2 rest'].
  { simpl in Hvlen. assert (i = 255) as -> by lia.
    split_and!; [lia|lia| |intros j Hj; lia].
    right. by apply below_256. }
  simpl in Hvlen.
  replace (below ax i l + c) with (below ax (i + 1) l) by lia.
  destruct (IH (i + 1)) as (Hr & Hcut & Hleast); try done; try lia.
  - replace (Z.to_nat (i + 1)) with (Z.to_nat i + 1)%nat by lia.
    by rewrite <- drop_drop, <- Hvals.
  - split_and!; [lia|lia|done|].
    intros j Hj. destruct (decide (j = i)) as [->|Hne]; [lia|].
    apply Hleast. lia.
Qed.

Lemma below_0 ax l : Forall good l → below ax 0 l = 0.
Proof.
  induction 1 as [|c l [_ (?&?&?&?)] _ IH]; [done|].
  rewrite below_cons. simpl. rewrite decide_False; [lia|].
  unfold is_u8 in *. destruct ax; simpl; lia.
Qed.

(** The value [span] returns is the least value of the chosen channel at
    which the test of its last loop holds. *)
Lemma span_of_least l :
  Forall good l → Z.of_nat (length l) < 2 ^ 32 →
  0 ≤ (span_of l).1 < 256
  ∧ cut_reached (span_of l).2 l (span_of l).1
  ∧ ∀ j, 0 ≤ j < (span_of l).1 →
         below (span_of l).2 j l ≤ weight l `quot` 2
         ∧ below (span_of l).2 (j + 1) l < weight l.
Proof.
  intros Hl Hlen.
  assert (Hpos : Forall positive_u32 l).
  { eapply Forall_impl; [exact Hl|]. by intros c [? _]. }
  pose proof (weight_bounds l Hpos) as Hw.
  unfold span_of in *.
  pose proof (span_step_vals l (constraint.with_min constraint.zero 255)
    (constraint.with_min constraint.zero 255)
    (constraint.with_min constraint.zero 255) 0 ltac:(lia)) as Hv.
  unfold span_init in *.
  destruct (foldl span_step _ l) as [[[cR cG] cB] total].
  destruct Hv as (HvR & HvG & HvB & Htot). simpl in HvR, HvG, HvB.
  rewrite Z.add_0_l, wrap_u64_small in Htot by nia. subst total.
  assert (Hvals : ∀ ax, (span_choose cR cG cB).1 = ax →
            constraint.vals (span_choose cR cG cB).2 = hist ax l (replicate 256 0)).
  { unfold span_choose. intros ax. repeat case_bool_decide; simpl; by intros <-. }
  destruct (span_choose cR cG cB) as [ax toCount]. simpl in *.
  specialize (Hvals ax eq_refl).
  pose proof (median_scan_least ax l (constraint.vals toCount) 0 Hl ltac:(nia)
    ltac:(lia)) as Hm.
  rewrite (below_0 ax l Hl) in Hm. rewrite Hvals in Hm.
  specialize (Hm eq_refl ltac:(by rewrite length_hist, length_replicate)).
  rewrite <- Hvals in Hm.
  set (r := median_scan (constraint.vals toCount) (weight l) 0 0) in *.
  destruct Hm as (Hr & Hcut & Hleast).
  rewrite wrap_u8_small by lia. done.
Qed.

(** X6. The value [span] returns is the least value [v] of the channel it
    chose at which the test of its last loop holds: the members whose
    channel is below [v] weigh more than half of the total (the half
    rounded down), or no member has a channel above [v].  At every smaller
    value the members below weigh at most half and some member lies
    above. *)
Theorem span_cut_is_least st cb :
  Forall good (contents st cb) → Z.of_nat (length (contents st cb)) < 2 ^ 32 →
  0 ≤ (span st cb).1 < 256
  ∧ cut_reached (span st cb).2 (contents st cb) (span st cb).1
  ∧ ∀ j, 0 ≤ j < (span st cb).1 →
         below (span st cb).2 j (contents st cb) ≤ weight (contents st cb) `quot` 2
         ∧ below (span st cb).2 (j + 1) (contents st cb) < weight (contents st cb).
Proof. intros Hgood Hlen. unfold span. by apply span_of_least. Qed.

Lemma span_cut_is_least_witness :
  0 ≤ (span tie_store tie_bucket).1 < 256
  ∧ cut_reached (span tie_store tie_bucket).2 (contents tie_store tie_bucket)
      (span tie_store tie_bucket).1
  ∧ ∀ j, 0 ≤ j < (span tie_store tie_bucket).1 →
         below (span tie_store tie_bucket).2 j (contents tie_store tie_bucket)
           ≤ weight (contents tie_store tie_bucket) `quot` 2
         ∧ below (span tie_store tie_bucket).2 (j + 1) (contents tie_store tie_bucket)
           < weight (contents tie_store tie_bucket).
Proof.
  apply (span_cut_is_least tie_store tie_bucket).
  - exact tie_store_good.
  - vm_compute. reflexivity.
Defined.

(** ** Buckets of one red, green and blue *)

Lemma below_all_lt ax j l : (∀ c, c ∈ l → chan ax c < j) → below ax j l = weight l.
Proof.
  induction l as [|c l IH]; intros H; [done|].
  rewrite below_cons, decide_True by (apply H; left).
  rewrite IH; [done|]. intros c' Hc'. apply H. by right.
Qed.

Lemma rgb_chan ax c1 c2 : rgb c1 = rgb c2 → chan ax c1 = chan ax c2.
Proof. unfold rgb. intros [= ? ? ?]. by destruct ax. Qed.

(** When all the members share their red, green and blue, no member is
    below the value [span] returns. *)
Lemma span_of_uniform l :
  Forall good l → Z.of_nat (length l) < 2 ^ 32 →
  (∀ c1 c2, c1 ∈ l → c2 ∈ l → rgb c1 = rgb c2) →
  ∀ c, c ∈ l → gt (span_of l).1 (RGBA c) (span_of l).2 = false.
Proof.
  intros Hl Hlen Hsame c Hc. rewrite gt_chan. apply bool_decide_eq_false. intros Hlt.
  destruct (span_of_least l Hl Hlen) as (_ & _ & Hleast).
  assert (0 ≤ chan (span_of l).2 c) as Hc0.
  { rewrite Forall_forall in Hl. destruct (Hl c Hc) as [_ (?&?&?&?)].
    unfold is_u8 in *. destruct (span_of l).2; simpl; lia. }
  destruct (Hleast (chan (span_of l).2 c) ltac:(lia)) as [_ Hnot].
  rewrite below_all_lt in Hnot; [lia|].
  intros c' Hc'. rewrite (rgb_chan _ c' c) by auto. lia.
Qed.

(** With no member below the cut, the second scan of [partition] runs off
    the front of the bucket. *)
Lemma scan_right_runs_off st cb m ax : ∀ fuel right,
  -1 ≤ right →
  (∀ j, 0 ≤ j ≤ right → high_at st cb m ax j) →
  (Z.to_nat (right + 1) < fuel)%nat →
  scan_right fuel st cb m ax right = Panic.
Proof.
  induction fuel as [|fuel IH]; intros right Hr Hhigh Hfuel; [lia|].
  cbn [scan_right].
  destruct (decide (right = -1)) as [->|Hne].
  { unfold read. by rewrite bool_decide_false by lia. }
  destruct (Hhigh right ltac:(lia)) as (c & Hc & Hg).
  rewrite Hc. cbn [mbind result_bind]. rewrite Hg.
  apply IH; [lia| |lia]. intros j Hj. apply Hhigh. lia.
Qed.

Lemma partition_uniform fuel st cb :
  within st cb → Forall good (contents st cb) → (2 ≤ len cb)%nat →
  Z.of_nat (len cb) < 2 ^ 32 →
  (∀ c1 c2, c1 ∈ contents st cb → c2 ∈ contents st cb → rgb c1 = rgb c2) →
  (len cb + 2 ≤ fuel)%nat →
  partition fuel st cb = Panic.
Proof.
  intros Hin Hgood Hlen Hfit Hsame Hfuel.
  pose proof (span_of_uniform (contents st cb) Hgood
    ltac:(by rewrite length_contents) Hsame) as Hhigh.
  unfold partition, span. destruct (span_of (contents st cb)) as [m ax]. simpl in Hhigh.
  assert (∀ j, 0 ≤ j < Z.of_nat (len cb) → high_at st cb m ax j) as Hall.
  { intros j Hj. destruct (read_within st cb j Hin Hj) as [c Hc]. exists c.
    split; [done|]. apply Hhigh. apply read_Ok in Hc as [_ Hc].
    by eapply list_elem_of_lookup_2. }
  destruct fuel as [|fuel]; [lia|]. cbn [partition_loop].
  rewrite bool_decide_true by lia.
  destruct fuel as [|fuel]; [lia|].
  destruct (Hall 0 ltac:(lia)) as (c0 & Hc0 & Hg0).
  cbn [scan_left]. rewrite Hc0. cbn [mbind result_bind]. rewrite Hg0.
  rewrite scan_right_runs_off; [done|lia| |lia].
  intros j Hj. apply Hall. lia.
Qed.

Lemma alpha_store_good : Forall good (contents alpha_store (mkBucket 0 3)).
Proof.
  change (contents alpha_store (mkBucket 0 3)) with alpha_store.
  assert (∀ c, p c = 1 → color.wf (RGBA c) → good c) as Hgood.
  { intros c Hp Hc. split; [unfold positive_u32; lia|done]. }
  unfold alpha_store.
  repeat (apply Forall_cons; split;
          [apply Hgood; [done|unfold color.wf, is_u8; simpl; lia]|]).
  constructor.
Qed.

Lemma alpha_store_one_rgb c1 c2 :
  c1 ∈ contents alpha_store (mkBucket 0 3) → c2 ∈ contents alpha_store (mkBucket 0 3) →
  rgb c1 = rgb c2.
Proof.
  change (contents alpha_store (mkBucket 0 3)) with alpha_store. unfold alpha_store.
  intros H1 H2.
  repeat (apply elem_of_cons in H1 as [->|H1]);
    try (by apply elem_of_nil in H1);
    repeat (apply elem_of_cons in H2 as [->|H2]);
    try (by apply elem_of_nil in H2); reflexivity.
Qed.

(** X7. [bucketize] panics on every list of three colours or more that
    share their red, green and blue and differ in alpha only, as soon as two
    buckets or more are asked for: every range is zero, no member is below
    the value [span] returns, and the second scan of [partition] reads
    [cb[-1]]. *)
Theorem bucketize_panics_on_one_rgb fuel st colors num :
  within st colors → Forall good (contents st colors) → (3 ≤ len colors)%nat →
  Z.of_nat (len colors) < 2 ^ 32 →
  (∀ c1 c2, c1 ∈ contents st colors → c2 ∈ contents st colors → rgb c1 = rgb c2) →
  2 ≤ num < 2 ^ 62 →
  (len colors + 3 ≤ fuel)%nat →
  bucketize fuel st colors num = Panic.
Proof.
  intros Hin Hgood Hlen Hfit Hsame Hnum Hfuel. unfold bucketize.
  rewrite (bool_decide_false (len colors = 0%nat)) by lia.
  rewrite (bool_decide_false (num = 0)) by lia. simpl.
  destruct (makeslice _ _ _); [|done]. cbn [negb].
  destruct fuel as [|fuel]; [lia|]. cbn [bucketize_loop length].
  rewrite !bool_decide_true by lia. simpl.
  rewrite !bool_decide_false by lia.
  by rewrite partition_uniform by (done || lia).
Qed.

Lemma bucketize_panics_on_one_rgb_witness : bucketize 10 alpha_store (mkBucket 0 3) 2 = Panic.
Proof.
  apply (bucketize_panics_on_one_rgb 10 alpha_store (mkBucket 0 3) 2).
  - unfold within. simpl. lia.
  - exact alpha_store_good.
  - simpl. lia.
  - simpl. lia.
  - exact alpha_store_one_rgb.
  - lia.
  - simpl. lia.
Defined.

(** ** What the two reductions append *)

Lemma mode_step_first l : ∀ best,
  (foldl mode_step best l = best ∧ Forall (λ c, p c ≤ p best) l)
  ∨ first_heaviest (foldl mode_step best l) l ∧ p best < p (foldl mode_step best l).
Proof.
  induction l as [|c l IH]; intros best; simpl.
  { left. split; [done|constructor]. }
  change (mode_step best c) with (if bool_decide (p c > p best) then c else best).
  case_bool_decide as Hc.
  - right. pose proof (IH c) as H. set (x := foldl mode_step c l) in *.
    destruct H as [[Hx Hall]|[(before & after & Hl & Hb & Ha) Hlt]].
    + rewrite Hx. split; [|lia]. exists [], l. split_and!; [done|constructor|done].
    + split; [|lia]. exists (c :: before), after. split_and!; [simpl; by rewrite <- Hl| |done].
      constructor; [lia|done].
  - pose proof (IH best) as H. set (x := foldl mode_step best l) in *.
    destruct H as [[Hx Hall]|[(before & after & Hl & Hb & Ha) Hlt]].
    + left. split; [done|]. constructor; [lia|done].
    + right. split; [|done]. exists (c :: before), after.
      split_and!; [simpl; by rewrite <- Hl| |done].
      constructor; [lia|done].
Qed.

(** [mode_of] picks the first of the heaviest members; when no member has
    a priority above zero it answers the zero value. *)
Lemma mode_of_spec l :
  (Exists (λ c, 0 < p c) l → first_heaviest (mode_of l) l)
  ∧ (Forall (λ c, p c ≤ 0) l → mode_of l = zeroColor).
Proof.
  unfold mode_of. destruct (mode_step_first l zeroColor) as [[Heq Hall]|[Hf Hlt]]; split.
  - intros Hex. apply Exists_exists in Hex as (c & Hc & Hp).
    rewrite Forall_forall in Hall. specialize (Hall c Hc). simpl in Hall. lia.
  - done.
  - done.
  - intros Hall. destruct Hf as (before & after & Hl & _).
    rewrite Forall_forall in Hall.
    specialize (Hall (foldl mode_step zeroColor l)). simpl in Hlt.
    assert (foldl mode_step zeroColor l ∈ l) as Hin.
    { rewrite Hl at 2. rewrite elem_of_app. right. left. }
    specialize (Hall Hin). lia.
Qed.

(** What [palettize] appends in Mode. *)
Lemma palettize_Mode_picks st buckets : ∀ pal,
  Forall (λ b, Exists (λ c, 0 < p c) (contents st b)) buckets →
  ∃ picks,
    palettize Mode st pal buckets = Ok (pal ++ (entry <$> picks))
    ∧ Forall2 (λ b c, first_heaviest c (contents st b)) buckets picks.
Proof.
  induction buckets as [|b bs IH]; intros pal Hall.
  { exists []. simpl. rewrite app_nil_r. split; [done|constructor]. }
  apply Forall_cons in Hall as [Hb Hall].
  destruct (IH (pal ++ [entry (mode_of (contents st b))]) Hall) as (picks & Hp & Hf).
  exists (mode_of (contents st b) :: picks). split.
  - cbn [palettize]. unfold palettize_bucket.
    rewrite bool_decide_false by done. rewrite bool_decide_true by done.
    cbn [mbind result_bind]. fold (entry (mode_of (contents st b))).
    rewrite Hp. by rewrite <- app_assoc.
  - constructor; [|done]. by apply mode_of_spec.
Qed.

(** X8. In Mode, [palettize] appends for each bucket the colour of the
    first of its heaviest members: no member before it weighs as much, no
    member after it weighs more.  A bucket without a member of priority
    above zero, an empty one for instance, gets the zero colour, which is
    the transparent entry. *)
Theorem palettize_Mode_first_heaviest st pal buckets :
  (Forall (λ b, Exists (λ c, 0 < p c) (contents st b)) buckets →
   ∃ picks,
     palettize Mode st pal buckets = Ok (pal ++ (entry <$> picks))
     ∧ Forall2 (λ b c, first_heaviest c (contents st b)) buckets picks)
  ∧ (∀ b, Forall (λ c, p c ≤ 0) (contents st b) →
       palettize Mode st pal [b] = Ok (pal ++ [transparent])).
Proof.
  split; [apply palettize_Mode_picks|].
  intros b Hb. cbn [palettize]. unfold palettize_bucket.
  rewrite bool_decide_false by done. rewrite bool_decide_true by done.
  cbn [mbind result_bind].
  destruct (mode_of_spec (contents st b)) as [_ Hz]. by rewrite (Hz Hb).
Qed.

Lemma palettize_Mode_first_heaviest_witness :
  ∃ picks,
    palettize Mode tie_store [] tie_queue = Ok ([] ++ (entry <$> picks))
    ∧ Forall2 (λ b c, first_heaviest c (contents tie_store b)) tie_queue picks.
Proof.
  apply (palettize_Mode_first_heaviest tie_store [] tie_queue).
  repeat constructor; simpl; lia.
Defined.

Lemma wrap_u64_add_r a b : wrap_u64 (a + wrap_u64 b) = wrap_u64 (a + b).
Proof. unfold wrap_u64. by rewrite Z.add_mod_idemp_r. Qed.

Lemma mean_step_sums l : ∀ r g b t,
  foldl mean_step (wrap_u64 r, wrap_u64 g, wrap_u64 b, wrap_u64 t) l
  = (wrap_u64 (r + weighted_sum red l), wrap_u64 (g + weighted_sum green l),
     wrap_u64 (b + weighted_sum blue l), wrap_u64 (t + weight l)).
Proof.
  induction l as [|c l IH]; intros r g b t; simpl.
  - by rewrite !Z.add_0_r.
  - rewrite !wrap_u64_add_r, !wrap_u64_add_l, IH.
    by rewrite !Z.add_assoc.
Qed.

Lemma weighted_sum_bounds ax l :
  Forall good l → l ≠ [] →
  foldr Z.min 255 (chan ax <$> l) * weight l ≤ weighted_sum ax l
  ∧ weighted_sum ax l ≤ foldr Z.max 0 (chan ax <$> l) * weight l.
Proof.
  intros Hgood Hne.
  assert (∀ lo hi, Forall (λ c, lo ≤ chan ax c ≤ hi) l →
            lo * weight l ≤ weighted_sum ax l ≤ hi * weight l) as Hgen.
  { intros lo hi Hall. clear Hne. induction Hall as [|c l' Hc Hl IH]; simpl; [lia|].
    apply Forall_cons in Hgood as [[[? ?] _] Hgood]. specialize (IH Hgood). nia. }
  apply Hgen. apply Forall_forall. intros c Hc. by apply chan_between.
Qed.

Lemma mean_of_exact l :
  Forall good l → l ≠ [] → Z.of_nat (length l) < 2 ^ 24 →
  mean_of l = Ok (color.mkRGBA (weighted_sum red l `div` weight l)
                               (weighted_sum green l `div` weight l)
                               (weighted_sum blue l `div` weight l) 255)
  ∧ ∀ ax, foldr Z.min 255 (chan ax <$> l) ≤ weighted_sum ax l `div` weight l
          ≤ foldr Z.max 0 (chan ax <$> l).
Proof.
  intros Hgood Hne Hlen.
  assert (Hpos : Forall positive_u32 l).
  { eapply Forall_impl; [exact Hgood|]. by intros c [? _]. }
  pose proof (weight_bounds l Hpos) as Hw.
  assert (0 < length l)%nat by (destruct l; [done | simpl; lia]).
  assert (Hwf : Forall (λ c, color.wf (RGBA c)) l).
  { eapply Forall_impl; [exact Hgood|]. by intros c [_ ?]. }
  assert (Hax : ∀ ax, foldr Z.min 255 (chan ax <$> l) ≤ weighted_sum ax l `div` weight l
                      ≤ foldr Z.max 0 (chan ax <$> l)
                      ∧ 0 ≤ weighted_sum ax l < 2 ^ 64
                      ∧ 0 ≤ weighted_sum ax l `div` weight l < 2 ^ 8).
  { intros ax. pose proof (weighted_sum_bounds ax l Hgood Hne) as [Hlo Hhi].
    pose proof (channel_range_u8 ax l Hne Hwf) as [[? ?] ?].
    assert (foldr Z.min 255 (chan ax <$> l) ≤ weighted_sum ax l `div` weight l).
    { apply Z.div_le_lower_bound; lia. }
    assert (weighted_sum ax l `div` weight l ≤ foldr Z.max 0 (chan ax <$> l)).
    { apply Z.div_le_upper_bound; lia. }
    assert (weight l < 2 ^ 56) by nia.
    assert (foldr Z.max 0 (chan ax <$> l) * weight l ≤ 255 * weight l) by nia.
    assert (0 ≤ foldr Z.min 255 (chan ax <$> l) * weight l) by nia.
    split_and!; lia. }
  split; [|intros ax; apply Hax].
  unfold mean_of. change (0, 0, 0, 0) with (wrap_u64 0, wrap_u64 0, wrap_u64 0, wrap_u64 0).
  rewrite mean_step_sums. rewrite !Z.add_0_l.
  destruct (Hax red) as (_ & ? & ?), (Hax green) as (_ & ? & ?), (Hax blue) as (_ & ? & ?).
  rewrite !wrap_u64_small by lia.
  rewrite bool_decide_false by lia.
  rewrite !Z.quot_div_nonneg by lia.
  by rewrite !wrap_u8_small by lia.
Qed.

(** X9. The colour [mean] returns for a bucket of members as the
    aggregation produces them, fewer than 2^24 of them, is the average of
    the members weighted by their priorities, rounded down on each channel,
    with alpha 255.  On each channel it lies between the least and the
    greatest value of the members, and no 64-bit sum wraps. *)
Theorem mean_is_weighted_average st cb :
  Forall good (contents st cb) → contents st cb ≠ [] →
  Z.of_nat (length (contents st cb)) < 2 ^ 24 →
  mean st cb
  = Ok (color.mkRGBA (weighted_sum red (contents st cb) `div` weight (contents st cb))
                     (weighted_sum green (contents st cb) `div` weight (contents st cb))
                     (weighted_sum blue (contents st cb) `div` weight (contents st cb))
                     255)
  ∧ ∀ ax, foldr Z.min 255 (chan ax <$> contents st cb)
          ≤ weighted_sum ax (contents st cb) `div` weight (contents st cb)
          ≤ foldr Z.max 0 (chan ax <$> contents st cb).
Proof. intros Hgood Hne Hlen. unfold mean. by apply mean_of_exact. Qed.

Lemma mean_is_weighted_average_witness :
  mean tie_store tie_bucket = Ok (color.mkRGBA 10 10 1 255)
  ∧ ∀ ax, foldr Z.min 255 (chan ax <$> contents tie_store tie_bucket)
          ≤ weighted_sum ax (contents tie_store tie_bucket)
              `div` weight (contents tie_store tie_bucket)
          ≤ foldr Z.max 0 (chan ax <$> contents tie_store tie_bucket).
Proof.
  apply (mean_is_weighted_average tie_store tie_bucket).
  - exact tie_store_good.
  - discriminate.
  - vm_compute. reflexivity.
Defined.

(** [mean] panics on the division exactly when the weights add up to zero,
    as they do for an empty bucket. *)
Lemma mean_of_panics l :
  Forall (λ c, 0 ≤ p c < 2 ^ 32) l → Z.of_nat (length l) < 2 ^ 32 →
  (mean_of l = Panic ↔ Forall (λ c, p c = 0) l).
Proof.
  intros Hp Hlen. unfold mean_of.
  change (0, 0, 0, 0) with (wrap_u64 0, wrap_u64 0, wrap_u64 0, wrap_u64 0).
  rewrite mean_step_sums, !Z.add_0_l.
  assert (0 ≤ weight l ≤ Z.of_nat (length l) * 2 ^ 32) as Hw.
  { clear Hlen. induction Hp as [|c l' Hc _ IH]; simpl; lia. }
  rewrite (wrap_u64_small (weight l)) by nia.
  assert (weight l = 0 ↔ Forall (λ c, p c = 0) l) as Hz.
  { clear Hlen Hw. induction Hp as [|c l' Hc Hl IH]; simpl; [by split|].
    assert (0 ≤ weight l').
    { clear IH. induction Hl; simpl; lia. }
    rewrite Forall_cons, <- IH. lia. }
  rewrite <- Hz. case_bool_decide; split; try done. 
Qed.

(** X10. [mean] divides by the sum of the priorities: on a bucket of 32-bit
    priorities it panics exactly when every priority is zero, as on the
    empty bucket, and so does [palettize] in Mean when it comes to such a
    bucket. *)
Theorem mean_panics_on_no_weight st cb :
  Forall (λ c, 0 ≤ p c < 2 ^ 32) (contents st cb) →
  Z.of_nat (length (contents st cb)) < 2 ^ 32 →
  (mean st cb = Panic ↔ Forall (λ c, p c = 0) (contents st cb))
  ∧ (Forall (λ c, p c = 0) (contents st cb) →
     ∀ pal rest, palettize Mean st pal (cb :: rest) = Panic).
Proof.
  intros Hp Hlen. pose proof (mean_of_panics (contents st cb) Hp Hlen) as Hiff.
  split; [exact Hiff|].
  intros Hz pal rest. cbn [palettize]. unfold palettize_bucket.
  rewrite bool_decide_true by done. fold (mean st cb).
  destruct Hiff as [_ Hpanic]. unfold mean in *. by rewrite (Hpanic Hz).
Qed.

Lemma mean_panics_on_no_weight_witness :
  (mean tie_store (mkBucket 0 0) = Panic
   ↔ Forall (λ c, p c = 0) (contents tie_store (mkBucket 0 0)))
  ∧ (Forall (λ c, p c = 0) (contents tie_store (mkBucket 0 0)) →
     ∀ pal rest, palettize Mean tie_store pal (mkBucket 0 0 :: rest) = Panic).
Proof.
  apply (mean_panics_on_no_weight tie_store (mkBucket 0 0)).
  - constructor.
  - vm_compute. reflexivity.
Defined.

(** ** The palette [quantizeSlice] returns *)

Lemma length_le_sum (q : list colorBucket) :
  Forall (λ b, 1 ≤ len b)%nat q → (length q ≤ sum_list (len <$> q))%nat.
Proof. induction 1; csimpl; lia. Qed.

(** [bucketize] returns as many buckets as it was asked for, or one for
    each colour when the colours are fewer. *)
Lemma bucketize_count fuel st colors num st' buckets :
  within st colors → 1 ≤ num → (1 ≤ len colors)%nat →
  bucketize fuel st colors num = Ok (st', buckets) →
  Z.of_nat (length buckets) = Z.min num (Z.of_nat (len colors)).
Proof.
  intros Hin Hnum Hlen H.
  apply bucketize_spec in H as ((Hw & _) & _ & Hperm & Hne & Hle & Hstop); [|done|lia].
  destruct (Hne Hlen) as [_ Hpos]. specialize (Hle Hnum).
  assert (sum_list (len <$> buckets) = len colors) as Hsum.
  { rewrite <- (length_members st') by done. rewrite Hperm. by apply length_contents. }
  pose proof (length_le_sum buckets Hpos). lia.
Qed.

Lemma palettize_prefix agg st buckets : ∀ pal pal',
  palettize agg st pal buckets = Ok pal' → ∃ ext, pal' = pal ++ ext.
Proof.
  induction buckets as [|b bs IH]; intros pal pal' H; simpl in H.
  - injection H as <-. exists []. by rewrite app_nil_r.
  - inv_bind H. apply IH in H as [ext ->]. unfold palettize_bucket in Ht.
    repeat case_bool_decide; [inv_bind Ht| |]; simplify_eq.
    + eexists. by rewrite <- app_assoc.
    + eexists. by rewrite <- app_assoc.
    + by exists ext.
Qed.

Lemma palettize_one_each agg st buckets : ∀ pal pal',
  agg = Mode ∨ agg = Mean →
  palettize agg st pal buckets = Ok pal' →
  length pal' = (length pal + length buckets)%nat.
Proof.
  induction buckets as [|b bs IH]; intros pal pal' Hagg H; simpl in H.
  - injection H as <-. simpl. lia.
  - inv_bind H. apply IH in H; [|done]. unfold palettize_bucket in Ht.
    repeat case_bool_decide; [inv_bind Ht| |]; simplify_eq.
    + rewrite length_app in H. simpl in *. lia.
    + rewrite length_app in H. simpl in *. lia.
    + by destruct Hagg.
Qed.

Lemma palettize_other agg st buckets pal :
  agg ≠ Mode → agg ≠ Mean → palettize agg st pal buckets = Ok pal.
Proof.
  intros H1 H2. induction buckets as [|b bs IH]; simpl; [done|].
  unfold palettize_bucket. by rewrite !bool_decide_false by done.
Qed.

Lemma has_transparent_app l1 l2 :
  has_transparent (l1 ++ l2) = has_transparent l1 || has_transparent l2.
Proof. unfold has_transparent. apply existsb_app. Qed.

Lemma quantizeSlice_Ok q fuel st pal cap_pal colors st' pal' :
  quantizeSlice q fuel st pal cap_pal colors = Ok (st', pal') →
  ∃ buckets pal1,
    bucketize fuel st colors (target q pal cap_pal) = Ok (st', buckets)
    ∧ palettize (Aggregation q) st' pal buckets = Ok pal1
    ∧ pal' = pal1 ++ if AddTransparent q && negb (has_transparent pal)
                     then [transparent] else [].
Proof.
  intros H. unfold quantizeSlice in H.
  assert ((if AddTransparent q && negb (has_transparent pal)
           then cap_pal - Z.of_nat (length pal) - 1
           else cap_pal - Z.of_nat (length pal)) = target q pal cap_pal) as Ht'.
  { unfold target. destruct (_ && _); lia. }
  rewrite Ht' in H.
  inv_bind H. destruct t as [st1 buckets]. inv_bind H. injection H as <- <-.
  exists buckets, t. split_and!; [done..|].
  destruct (_ && _); [done|by rewrite app_nil_r].
Qed.

(** X11. With one of the two named aggregations, a colour list that is not
    empty and a target count of at least one, the palette [quantizeSlice]
    returns is filled as far as the colours go: it has grown by the target
    count, or by the number of colours if that is less, and by the
    transparent entry if one is added. *)
Theorem quantizeSlice_fills_palette q fuel st pal cap_pal colors st' pal' :
  within st colors →
  Aggregation q = Mode ∨ Aggregation q = Mean →
  1 ≤ target q pal cap_pal → (1 ≤ len colors)%nat →
  quantizeSlice q fuel st pal cap_pal colors = Ok (st', pal') →
  Z.of_nat (length pal')
  = Z.of_nat (length pal) + Z.min (target q pal cap_pal) (Z.of_nat (len colors))
    + if AddTransparent q && negb (has_transparent pal) then 1 else 0.
Proof.
  intros Hin Hagg Hnum Hlen H.
  apply quantizeSlice_Ok in H as (buckets & pal1 & Hb & Hp & ->).
  apply bucketize_count in Hb; [|done..].
  apply palettize_one_each in Hp; [|done].
  rewrite length_app, Hp. destruct (_ && _); simpl; lia.
Qed.

Lemma quantizeSlice_fills_palette_witness :
  match quantizeSlice with_transparent 30 tie_store [] 3 tie_bucket with
  | Ok (_, pal') =>
      Z.of_nat (length pal')
      = Z.of_nat 0 + Z.min (target with_transparent [] 3) (Z.of_nat (len tie_bucket))
        + if AddTransparent with_transparent && negb (has_transparent []) then 1 else 0
  | _ => False
  end.
Proof.
  destruct (quantizeSlice with_transparent 30 tie_store [] 3 tie_bucket)
    as [[st' pal']| |] eqn:E.
  - apply (quantizeSlice_fills_palette with_transparent 30 tie_store [] 3 tie_bucket st' pal');
      [unfold within; simpl; lia | by left | vm_compute; discriminate | simpl; lia | exact E].
  - vm_compute in E. discriminate E.
  - vm_compute in E. discriminate E.
Defined.

(** X12. Whenever [quantizeSlice] returns, the palette starts with the
    entries handed in, unchanged and in their order.  When a transparent
    entry is requested the palette returned holds an entry of alpha zero;
    if the prefix had none, it is the transparent entry, in last place. *)
Theorem quantizeSlice_keeps_prefix q fuel st pal cap_pal colors st' pal' :
  quantizeSlice q fuel st pal cap_pal colors = Ok (st', pal') →
  (∃ ext, pal' = pal ++ ext)
  ∧ (AddTransparent q = true → has_transparent pal' = true)
  ∧ (AddTransparent q = true → has_transparent pal = false →
     last pal' = Some transparent).
Proof.
  intros H. apply quantizeSlice_Ok in H as (buckets & pal1 & _ & Hp & ->).
  apply palettize_prefix in Hp as [ext ->]. split_and!.
  - eexists. by rewrite <- app_assoc.
  - intros ->. rewrite !has_transparent_app. simpl.
    destruct (has_transparent pal); [done|]. simpl. apply orb_true_r.
  - intros -> ->. simpl. by rewrite last_snoc.
Qed.

Lemma quantizeSlice_keeps_prefix_witness :
  match quantizeSlice with_transparent 30 tie_store [color.OfRGBA black] 4 tie_bucket with
  | Ok (_, pal') =>
      (∃ ext, pal' = [color.OfRGBA black] ++ ext)
      ∧ (AddTransparent with_transparent = true → has_transparent pal' = true)
      ∧ (AddTransparent with_transparent = true →
         has_transparent [color.OfRGBA black] = false →
         last pal' = Some transparent)
  | _ => False
  end.
Proof.
  destruct (quantizeSlice with_transparent 30 tie_store [color.OfRGBA black] 4 tie_bucket)
    as [[st' pal']| |] eqn:E.
  - apply (quantizeSlice_keeps_prefix with_transparent 30 tie_store [color.OfRGBA black] 4
             tie_bucket st' pal' E).
  - vm_compute in E. discriminate E.
  - vm_compute in E. discriminate E.
Defined.

(** X13. [AggregationType] is a [uint8] and the [switch] of [palettize] has
    no default case: with a value other than [Mode] and [Mean] no colour is
    appended, and whenever [quantizeSlice] returns, the palette is the one
    handed in, followed by the transparent entry if one is added. *)
Theorem unnamed_aggregation_appends_nothing q fuel st pal cap_pal colors st' pal' :
  Aggregation q ≠ Mode → Aggregation q ≠ Mean →
  quantizeSlice q fuel st pal cap_pal colors = Ok (st', pal') →
  pal' = pal ++ if AddTransparent q && negb (has_transparent pal)
                then [transparent] else [].
Proof.
  intros H1 H2 H. apply quantizeSlice_Ok in H as (buckets & pal1 & _ & Hp & ->).
  rewrite palettize_other in Hp by done. by injection Hp as <-.
Qed.

Lemma unnamed_aggregation_appends_nothing_witness :
  match quantizeSlice odd_quantizer 30 tie_store [] 3 tie_bucket with
  | Ok (_, pal') =>
      pal' = [] ++ if AddTransparent odd_quantizer && negb (has_transparent [])
                   then [transparent] else []
  | _ => False
  end.
Proof.
  destruct (quantizeSlice odd_quantizer 30 tie_store [] 3 tie_bucket)
    as [[st' pal']| |] eqn:E.
  - apply (unnamed_aggregation_appends_nothing odd_quantizer 30 tie_store [] 3
             tie_bucket st' pal'); [discriminate | discriminate | exact E].
  - vm_compute in E. discriminate E.
  - vm_compute in E. discriminate E.
Defined.

(** ** The path of the probing loop *)

Lemma probe_stops fuel st sb size c w : ∀ index i st',
  probe fuel st sb size c w index i = Ok st' →
  ∃ n old,
    read st sb ((turns index i n).1 `rem` size) = Ok old
    ∧ (p old = 0 ∨ RGBA old = c)
    ∧ st' = write st sb ((turns index i n).1 `rem` size)
              (mkColorPriority (wrap_u32 (p old + w)) c)
    ∧ (∀ n', (n' < n)%nat →
         taken_by_other st sb c ((turns index i n').1 `rem` size) = true)
    ∧ (n < fuel)%nat.
Proof.
  induction fuel as [|fuel IH]; intros index i st' H; simpl in H; [discriminate|].
  case_bool_decide; [discriminate|].
  destruct (read st sb (index `rem` size)) as [old| |] eqn:E; simpl in H;
    try discriminate.
  destruct (_ || _) eqn:Hc.
  - injection H as <-. exists 0%nat, old. simpl. split_and!; [done| |done|lia|lia].
    apply orb_true_iff in Hc as [Hc|Hc]; apply bool_decide_eq_true in Hc; auto.
  - apply IH in H as (n & old' & Hr & Hfree & -> & Hearly & Hn).
    exists (S n), old'. simpl. split_and!; [done..| |lia].
    intros [|n'] Hn'; simpl; [|apply Hearly; lia].
    unfold taken_by_other. by rewrite E, Hc.
Qed.

Lemma first_free_unique (f : nat → bool) n k :
  (∀ n', (n' < n)%nat → f n' = true) → f n = false →
  (∀ k', (k' < k)%nat → f k' = true) → f k = false → n = k.
Proof.
  intros Hn Hfn Hk Hfk.
  destruct (lt_eq_lt_dec n k) as [[Hlt| ->]|Hgt]; [|done|].
  - rewrite (Hk n Hlt) in Hfn. discriminate.
  - rewrite (Hn k Hgt) in Hfk. discriminate.
Qed.

Lemma read_write_any st cb i j c :
  within st cb → 0 ≤ i < Z.of_nat (len cb) →
  read (write st cb i c) cb j = if decide (i = j) then Ok c else read st cb j.
Proof.
  intros Hin Hi.
  destruct (decide (0 ≤ j < Z.of_nat (len cb))) as [Hj|Hj]; [by apply read_write|].
  rewrite decide_False by lia. unfold read. by rewrite !bool_decide_false.
Qed.

Lemma taken_by_other_holds st sb c j e :
  read st sb j = Ok e → RGBA e = c → taken_by_other st sb c j = false.
Proof.
  intros Hr Hc. unfold taken_by_other. rewrite Hr.
  rewrite (bool_decide_true (RGBA e = c)) by done. by rewrite orb_true_r.
Qed.

Lemma taken_by_other_true st sb c j :
  taken_by_other st sb c j = true →
  ∃ e, read st sb j = Ok e ∧ p e ≠ 0 ∧ RGBA e ≠ c.
Proof.
  unfold taken_by_other. destruct (read st sb j) as [e| |]; [|done..].
  intros H. apply negb_true_iff, orb_false_iff in H as [H1 H2].
  apply bool_decide_eq_false in H1, H2. eauto.
Qed.

Lemma probe_offset_next k : probe_offset (k + 1) = probe_offset k + (k + 2).
Proof.
  unfold probe_offset.
  replace ((k + 1) * (k + 1 + 3)) with (k * (k + 3) + (k + 2) * 2) by lia.
  by rewrite Z.div_add.
Qed.

Lemma probe_offset_bounds k : 0 ≤ k < 2 ^ 31 → 0 ≤ probe_offset k < 2 ^ 62.
Proof.
  intros Hk. unfold probe_offset. split.
  - apply Z.div_pos; nia.
  - apply Z.div_lt_upper_bound; nia.
Qed.

(** While the index stays in the range of [int], the loop adds 2, 3, 4, ...
    to it, turn after turn. *)
Lemma turns_closed index : ∀ (n : nat) k,
  0 ≤ index < 2 ^ 24 → 0 ≤ k → k + Z.of_nat n < 2 ^ 31 →
  turns (index + probe_offset k) (k + 1) n
  = (index + probe_offset (k + Z.of_nat n), k + Z.of_nat n + 1).
Proof.
  induction n as [|n IH]; intros k Hi Hk Hn.
  { simpl. by rewrite Z.add_0_r. }
  cbn [turns].
  pose proof (probe_offset_bounds k ltac:(lia)).
  rewrite (wrap_int_small (1 + (k + 1))) by lia.
  rewrite (wrap_int_small (index + probe_offset k + (1 + (k + 1)))) by lia.
  rewrite (wrap_int_small (k + 1 + 1)) by lia.
  replace (index + probe_offset k + (1 + (k + 1))) with (index + probe_offset (k + 1))
    by (rewrite probe_offset_next; lia).
  rewrite (IH (k + 1)) by lia.
  f_equal; [f_equal; f_equal|]; lia.
Qed.

Lemma probed_closed c size (n : nat) :
  0 ≤ pack c < 2 ^ 24 → Z.of_nat n < 2 ^ 31 →
  probed c size n = (pack c + probe_offset (Z.of_nat n)) `rem` size.
Proof.
  intros Hc Hn. unfold probed.
  pose proof (turns_closed (pack c) n 0 Hc ltac:(lia) ltac:(lia)) as H.
  change (probe_offset 0) with 0 in H. rewrite Z.add_0_r in H.
  change (0 + 1) with 1 in H. rewrite H. cbn [fst]. by rewrite Z.add_0_l.
Qed.

Lemma pack_nonneg c : color.wf c → 0 ≤ pack c.
Proof.
  intros (Hr & Hg & Hb & _). unfold pack, is_u8 in *.
  rewrite !Z.lor_nonneg, !Z.shiftl_nonneg. lia.
Qed.

Lemma pack_bounds c : color.wf c → 0 ≤ pack c < 2 ^ 24.
Proof.
  intros Hwf. split; [by apply pack_nonneg|]. destruct Hwf as (Hr & Hg & Hb & _).
  unfold pack, is_u8 in *.
  assert (∀ a b n, 0 ≤ a < 2 ^ n → 0 ≤ b < 2 ^ n → 0 ≤ n → Z.lor a b < 2 ^ n) as Hlor.
  { intros a b n Ha Hb' Hn.
    destruct (decide (Z.lor a b = 0)) as [->|Hne]; [lia|].
    apply Z.log2_lt_pow2; [pose proof (Z.lor_nonneg a b); lia|].
    rewrite Z.log2_lor by lia.
    destruct (decide (a = 0)) as [->|]; destruct (decide (b = 0)) as [->|];
      try (rewrite Z.lor_0_l in Hne; done).
    - simpl. rewrite Z.max_r by apply Z.log2_nonneg. apply Z.log2_lt_pow2; lia.
    - simpl. rewrite Z.max_l by apply Z.log2_nonneg. apply Z.log2_lt_pow2; lia.
    - apply Z.max_lub_lt; apply Z.log2_lt_pow2; lia. }
  rewrite !Z.shiftl_mul_pow2 by lia.
  apply Hlor; [split; [rewrite Z.lor_nonneg; lia|]|lia|lia].
  apply Hlor; lia.
Qed.

(** X14. A pixel is added in the first slot, along the path [index],
    [index + 2], [index + 5], [index + 9], [index + 14], ... taken modulo
    the size of the table, that is free or already holds its colour; every
    slot before it on the path is in use by another colour, and no other
    slot is written.  (Stated for a loop that ends within 2^31 turns, while
    the index stays in the range of [int].) *)
Theorem probe_takes_first_free_slot fuel st sb size c w st' :
  color.wf c → Z.of_nat fuel < 2 ^ 31 →
  probe fuel st sb size c w (pack c) 1 = Ok st' →
  ∃ (n : nat) old,
    read st sb ((pack c + probe_offset (Z.of_nat n)) `rem` size) = Ok old
    ∧ (p old = 0 ∨ RGBA old = c)
    ∧ st' = write st sb ((pack c + probe_offset (Z.of_nat n)) `rem` size)
              (mkColorPriority (wrap_u32 (p old + w)) c)
    ∧ ∀ n', (n' < n)%nat →
        taken_by_other st sb c ((pack c + probe_offset (Z.of_nat n')) `rem` size) = true.
Proof.
  intros Hwf Hfuel H. pose proof (pack_bounds c Hwf) as Hc.
  apply probe_stops in H as (n & old & Hr & Hfree & -> & Hearly & Hn).
  change ((turns (pack c) 1 n).1 `rem` size) with (probed c size n) in *.
  rewrite probed_closed in * by lia.
  exists n, old. split_and!; [done..|].
  intros n' Hn'. specialize (Hearly n' Hn').
  change ((turns (pack c) 1 n').1 `rem` size) with (probed c size n') in Hearly.
  by rewrite probed_closed in Hearly by lia.
Qed.

Lemma probe_takes_first_free_slot_witness :
  match probe 10 half_full (mkBucket 0 4) 4 grey 1 (pack grey) 1 with
  | Ok st' =>
      ∃ (n : nat) old,
        read half_full (mkBucket 0 4) ((pack grey + probe_offset (Z.of_nat n)) `rem` 4)
        = Ok old
        ∧ (p old = 0 ∨ RGBA old = grey)
        ∧ st' = write half_full (mkBucket 0 4)
                  ((pack grey + probe_offset (Z.of_nat n)) `rem` 4)
                  (mkColorPriority (wrap_u32 (p old + 1)) grey)
        ∧ ∀ n', (n' < n)%nat →
            taken_by_other half_full (mkBucket 0 4) grey
              ((pack grey + probe_offset (Z.of_nat n')) `rem` 4) = true
  | _ => False
  end.
Proof.
  destruct (probe 10 half_full (mkBucket 0 4) 4 grey 1 (pack grey) 1) as [st'| |] eqn:E.
  - apply (probe_takes_first_free_slot 10 half_full (mkBucket 0 4) 4 grey 1 st');
      [repeat split; simpl; unfold is_u8; simpl; lia | simpl; lia | exact E].
  - vm_compute in E. discriminate E.
  - vm_compute in E. discriminate E.
Defined.

(** ** The aggregated colours *)

(** A colour has at most one slot in use. *)
Lemma table_inv_one_slot done st sb size j1 j2 e1 e2 :
  table_inv done st sb size →
  read st sb j1 = Ok e1 → p e1 ≠ 0 →
  read st sb j2 = Ok e2 → p e2 ≠ 0 →
  RGBA e1 = RGBA e2 → j1 = j2.
Proof.
  intros [Hinv _] H1 Hp1 H2 Hp2 Hc.
  destruct (Hinv _ _ H1 Hp1) as (_ & k1 & <- & Hk1).
  destruct (Hinv _ _ H2 Hp2) as (_ & k2 & <- & Hk2).
  rewrite Hc in *. f_equal.
  apply (first_free_unique (λ k, taken_by_other st sb (RGBA e2) (probed (RGBA e2) size k)));
    [done| |done|].
  - by apply (taken_by_other_holds _ _ _ _ e1).
  - by apply (taken_by_other_holds _ _ _ _ e2).
Qed.

Lemma color_weight_snoc c done s :
  color_weight c (done ++ [s])
  = color_weight c done + (if decide (s.2 = c) then s.1 else 0).
Proof.
  rewrite color_weight_app, color_weight_cons.
  change (color_weight c []) with 0. lia.
Qed.

(** A pixel of non-zero priority keeps the table in that state. *)
Lemma table_inv_probe fuel done st sb size c w st' :
  within st sb → Forall (λ s, 0 ≤ s.1) done → 0 < w →
  color_weight c done + w < 2 ^ 32 →
  table_inv done st sb size →
  probe fuel st sb size c w (pack c) 1 = Ok st' →
  table_inv (done ++ [(w, c)]) st' sb size.
Proof.
  intros Hin Hpos Hw Hfit Hinv H.
  apply probe_stops in H as (n & old & Hread & Hfree & -> & Hearly & _).
  change ((turns (pack c) 1 n).1 `rem` size) with (probed c size n) in *.
  set (j0 := probed c size n) in *.
  pose proof (read_Ok _ _ _ _ Hread) as [Hj0 _].
  assert (Hnottaken : taken_by_other st sb c j0 = false).
  { unfold taken_by_other. rewrite Hread.
    destruct Hfree as [Hz|Hc].
    - by rewrite (bool_decide_true (p old = 0)).
    - rewrite (bool_decide_true (RGBA old = c)) by done. by rewrite orb_true_r. }
  (* Another slot in use does not hold the colour. *)
  assert (Hother : ∀ j e, read st sb j = Ok e → p e ≠ 0 → RGBA e = c → j = j0).
  { intros j e Hr Hp Hc. destruct Hinv as [Hinv _].
    destruct (Hinv _ _ Hr Hp) as (_ & k & <- & Hk). rewrite Hc in *.
    unfold j0. f_equal.
    apply (first_free_unique (λ k, taken_by_other st sb c (probed c size k)));
      [done| |done|done].
    by apply (taken_by_other_holds _ _ _ _ e). }
  assert (Hcw : 0 ≤ color_weight c done) by by apply color_weight_nonneg.
  assert (Hold : p old = color_weight c done).
  { destruct (decide (p old = 0)) as [Hz|Hnz].
    - rewrite Hz. destruct (decide (0 < color_weight c done)) as [Hgt|]; [|lia].
      destruct Hinv as [_ Hall]. destruct (Hall c Hgt) as (j & e & Hr & Hp & Hc).
      assert (j = j0) as -> by eauto. congruence.
    - destruct Hfree as [?|Hc]; [done|]. destruct Hinv as [Hinv _].
      destruct (Hinv _ _ Hread Hnz) as [-> _]. by rewrite Hc. }
  assert (Hnew : wrap_u32 (p old + w) = color_weight c done + w).
  { rewrite Hold. apply wrap_u32_small. lia. }
  assert (Hrw : ∀ j, read (write st sb j0 (mkColorPriority (wrap_u32 (p old + w)) c)) sb j
                     = if decide (j0 = j) then Ok (mkColorPriority (wrap_u32 (p old + w)) c)
                       else read st sb j).
  { intros j. by apply read_write_any. }
  (* What the slots probed by a colour show after the write. *)
  assert (Htaken : ∀ c' j, taken_by_other st sb c' j = true → c' ≠ c →
            taken_by_other (write st sb j0 (mkColorPriority (wrap_u32 (p old + w)) c)) sb c' j
            = true).
  { intros c' j Ht Hne. unfold taken_by_other. rewrite Hrw.
    destruct (decide (j0 = j)) as [<-|]; [|done]. simpl.
    rewrite bool_decide_false by (rewrite Hnew; lia).
    by rewrite bool_decide_false. }
  split.
  - intros j e Hr Hp. rewrite Hrw in Hr.
    destruct (decide (j0 = j)) as [<-|Hne].
    + injection Hr as <-. simpl. split.
      * rewrite color_weight_snoc. simpl. by rewrite decide_True.
      * exists n. split; [done|]. intros k' Hk'.
        specialize (Hearly k' Hk').
        unfold taken_by_other. rewrite Hrw.
        rewrite decide_False; [exact Hearly|].
        intros Heq. fold (probed c size k') in Hearly. rewrite <- Heq in Hearly. congruence.
    + assert (RGBA e ≠ c) as Hc.
      { intros Hc. apply Hne. symmetry. eauto. }
      destruct Hinv as [Hinv _]. destruct (Hinv _ _ Hr Hp) as (Hpe & k & Hk & Hkearly).
      split.
      * rewrite color_weight_snoc. simpl. rewrite decide_False by done. lia.
      * exists k. split; [done|]. intros k' Hk'. apply Htaken; auto.
  - intros c' Hc'. rewrite color_weight_snoc in Hc'. simpl in Hc'.
    destruct (decide (c = c')) as [<-|Hne].
    + exists j0, (mkColorPriority (wrap_u32 (p old + w)) c).
      rewrite Hrw, decide_True by done. simpl. split_and!; [done| |done].
      rewrite Hnew. lia.
    + destruct Hinv as [_ Hall]. destruct (Hall c' ltac:(lia)) as (j & e & Hr & Hp & Hc).
      exists j, e. rewrite Hrw. split_and!; [|done..].
      rewrite decide_False; [done|]. intros <-.
      destruct Hfree as [?|?]; congruence.
Qed.

(** A pixel of priority zero leaves the table as it is. *)
Lemma table_inv_skip done st sb size c :
  table_inv done st sb size → table_inv (done ++ [(0, c)]) st sb size.
Proof.
  intros [Hinv Hall]. split.
  - intros j e Hr Hp. destruct (Hinv _ _ Hr Hp) as [Hpe Hk]. split; [|done].
    rewrite color_weight_snoc. simpl. destruct (decide _); lia.
  - intros c' Hc'. apply Hall. rewrite color_weight_snoc in Hc'. simpl in Hc'.
    destruct (decide _); lia.
Qed.

Lemma table_inv_scan fuel sb size : ∀ todo done st st',
  within st sb →
  Forall (λ s, 0 ≤ s.1) (done ++ todo) →
  (∀ c, color_weight c (done ++ todo) < 2 ^ 32) →
  table_inv done st sb size →
  for_each (add_sample fuel sb size) st todo = Ok st' →
  length st' = length st ∧ table_inv (done ++ todo) st' sb size.
Proof.
  induction todo as [|s todo IH]; intros done st st' Hin Hpos Hfit Hinv H.
  { simpl in H. injection H as <-. by rewrite app_nil_r. }
  simpl in H. inv_bind H. rename t into st1.
  replace (done ++ s :: todo) with ((done ++ [s]) ++ todo) in *
    by by rewrite <- app_assoc.
  assert (Hs : 0 ≤ s.1).
  { rewrite Forall_forall in Hpos. apply Hpos.
    rewrite !elem_of_app, list_elem_of_singleton. auto. }
  assert (Hd : Forall (λ s, 0 ≤ s.1) done).
  { apply Forall_app in Hpos as [Hd _]. by apply Forall_app in Hd as [? _]. }
  unfold add_sample in Ht. case_bool_decide as Hw.
  - assert (length st1 = length st) as Hlen.
    { apply probe_Ok in Ht as (? & ? & _ & _ & ->). apply length_write. }
    destruct s as [w c]. simpl in *.
    apply (table_inv_probe _ done) in Ht; [|done|done|lia| |done].
    + apply (IH (done ++ [(w, c)])) in H as [Hlen' Hinv']; try done.
      * split; [congruence|done].
      * unfold within in *. by rewrite Hlen.
    + specialize (Hfit c). rewrite color_weight_app, color_weight_snoc in Hfit.
      simpl in Hfit. rewrite decide_True in Hfit by done.
      assert (0 ≤ color_weight c todo).
      { apply color_weight_nonneg. by apply Forall_app in Hpos as [_ ?]. }
      lia.
  - injection Ht as <-. assert (s.1 = 0) as Hz by (destruct (decide (s.1 = 0)); [done|]; contradiction).
    destruct s as [w c]. simpl in Hz. subst w.
    apply (IH (done ++ [(0, c)])) in H as [Hlen' Hinv']; try done.
    by apply table_inv_skip.
Qed.

Lemma NoDup_fmap_filter_lookup {T U} (f : T → U) (P : T → Prop) `{∀ x, Decision (P x)}
    (l : list T) :
  (∀ i j a b, l !! i = Some a → l !! j = Some b → P a → P b → f a = f b → i = j) →
  NoDup (f <$> filter P l).
Proof.
  induction l as [|x l IH]; intros Hinj; [constructor|].
  assert (NoDup (f <$> filter P l)) as Hrest.
  { apply IH. intros i j a b Ha Hb HPa HPb Hf.
    assert (S i = S j) by (eapply Hinj; eauto). lia. }
  rewrite filter_cons. destruct (decide (P x)) as [HP|HP]; [|done].
  rewrite fmap_cons. constructor; [|done].
  intros Hin. apply list_elem_of_fmap in Hin as (b & Hf & Hb).
  apply list_elem_of_filter in Hb as [HPb Hb].
  apply list_elem_of_lookup in Hb as [j Hj].
  assert (0%nat = S j) by (eapply (Hinj 0%nat (S j) x b); eauto). lia.
Qed.

Lemma table_inv_fresh (st : store) sb size n :
  contents st sb = replicate n zeroColor → table_inv [] st sb size.
Proof.
  intros Hz. split.
  - intros j e Hr Hp. apply read_Ok in Hr as [_ Hr]. rewrite Hz in Hr.
    apply lookup_replicate in Hr as [-> _]. done.
  - intros c Hc. unfold color_weight in Hc. simpl in Hc. lia.
Qed.

(** The list [buildBucketMultiple] returns is the histogram of the pixels:
    one entry for each colour that carries weight, holding that weight. *)
Lemma buildBucketMultiple_exact conv q fuel bp pick first rest bp' st bucket :
  Forall (λ s, 0 ≤ s.1) (samples q (first :: rest)) →
  (∀ c, color_weight c (samples q (first :: rest)) < 2 ^ 32) →
  buildBucketMultiple conv q fuel bp pick (first :: rest) = Ok (bp', st, bucket) →
  ∃ raw,
    contents st bucket = emit conv (image.is_YCbCr first) <$> raw
    ∧ NoDup (RGBA <$> raw)
    ∧ (∀ e, e ∈ raw →
         0 < p e ∧ p e = color_weight (RGBA e) (samples q (first :: rest)))
    ∧ (∀ c, 0 < color_weight c (samples q (first :: rest)) → c ∈ RGBA <$> raw)
    ∧ Z.of_nat (length raw) ≤ table_size (first :: rest).
Proof.
  intros Hpos Hfit H. unfold buildBucketMultiple in H.
  remember (first :: rest) as ms eqn:Ems.
  inv_bind H. destruct t as [[bp1 st0] sb]. inv_bind H. rename t into st1.
  destruct (compact conv (image.is_YCbCr first) st1 sb) as [st2 b] eqn:Ec.
  simplify_eq.
  apply getBucket_Ok in Ht as (Hsize & -> & Hzero).
  pose proof (within_zeroed _ _ _ Hzero) as Hin.
  rewrite scan_flat in Ht0.
  apply (table_inv_scan _ _ _ _ []) in Ht0 as (Hlen & Hinv);
    [|done|done|done|by eapply table_inv_fresh].
  simpl in Hinv.
  assert (within st1 (mkBucket 0 (Z.to_nat (table_size (first :: rest))))) as Hin1
    by by eapply within_length.
  apply compact_spec in Ec as (Hlen2 & Hin2 & _ & Hcont); [|done].
  set (sb := mkBucket 0 (Z.to_nat (table_size (first :: rest)))) in *.
  exists (filter (λ c, p c ≠ 0) (contents st1 sb)). split_and!.
  - done.
  - apply NoDup_fmap_filter_lookup. intros i j a b0 Ha Hb Hpa Hpb Hc.
    apply read_contents in Ha; [|done]. apply read_contents in Hb; [|done].
    assert (Z.of_nat i = Z.of_nat j) by (eapply table_inv_one_slot; eauto). lia.
  - intros e He. apply list_elem_of_filter in He as [Hp He].
    apply list_elem_of_lookup in He as [i Hi]. apply read_contents in Hi; [|done].
    destruct Hinv as [Hinv _]. destruct (Hinv _ _ Hi Hp) as [Hpe _].
    split; [|done].
    assert (0 ≤ color_weight (RGBA e) (samples q (first :: rest)))
      by by apply color_weight_nonneg.
    lia.
  - intros c Hc. destruct Hinv as [_ Hall].
    destruct (Hall c Hc) as (j & e & Hr & Hp & <-).
    apply list_elem_of_fmap. exists e. split; [done|].
    apply list_elem_of_filter. split; [done|].
    apply read_Ok in Hr as [_ Hr]. by eapply list_elem_of_lookup_2.
  - etrans; [apply inj_le, length_filter|].
    rewrite length_contents by done. simpl. lia.
Qed.

Lemma samples_two_rows_nonneg :
  Forall (λ s : Z * color.RGBA, 0 ≤ s.1) (samples uniform [two_rows]).
Proof. vm_compute. repeat constructor; discriminate. Qed.

Lemma samples_two_rows_fit c : color_weight c (samples uniform [two_rows]) < 2 ^ 32.
Proof.
  eapply Z.le_lt_trans; [apply (color_weight_le c _ samples_two_rows_nonneg)|].
  vm_compute. reflexivity.
Qed.

Lemma samples_three_frames_nonneg :
  Forall (λ s : Z * color.RGBA, 0 ≤ s.1) (samples uniform three_frames).
Proof. vm_compute. repeat constructor; discriminate. Qed.

Lemma samples_three_frames_fit c : color_weight c (samples uniform three_frames) < 2 ^ 32.
Proof.
  eapply Z.le_lt_trans; [apply (color_weight_le c _ samples_three_frames_nonneg)|].
  vm_compute. reflexivity.
Qed.

(** X15. Whenever [buildBucketMultiple] returns, and no colour collects a
    weight beyond 32 bits, the list it returns is the histogram of the
    pixels: it holds one entry for each colour that some pixel of non-zero
    priority has, no colour twice, and the priority of the entry is the sum
    of the priorities of the pixels of that colour.  The colours are those
    [colorAt] read, passed through [color.YCbCrToRGB] when the first image
    of the list, whatever the others are, is a [YCbCr] one. *)
Theorem aggregated_colours_are_histogram conv q fuel bp pick first rest bp' st bucket :
  Forall (λ s, 0 ≤ s.1) (samples q (first :: rest)) →
  (∀ c, color_weight c (samples q (first :: rest)) < 2 ^ 32) →
  buildBucketMultiple conv q fuel bp pick (first :: rest) = Ok (bp', st, bucket) →
  ∃ raw,
    contents st bucket = emit conv (image.is_YCbCr first) <$> raw
    ∧ NoDup (RGBA <$> raw)
    ∧ (∀ e, e ∈ raw →
         0 < p e ∧ p e = color_weight (RGBA e) (samples q (first :: rest)))
    ∧ (∀ c, 0 < color_weight c (samples q (first :: rest)) → c ∈ RGBA <$> raw).
Proof.
  intros Hpos Hfit H.
  destruct (buildBucketMultiple_exact _ _ _ _ _ _ _ _ _ _ Hpos Hfit H)
    as (raw & ? & ? & ? & ? & _).
  by exists raw.
Qed.

Lemma aggregated_colours_are_histogram_witness :
  match buildBucketMultiple unused_conversion uniform 10 empty_pool None [two_rows] with
  | Ok (_, st, bucket) =>
      ∃ raw,
        contents st bucket = emit unused_conversion (image.is_YCbCr two_rows) <$> raw
        ∧ NoDup (RGBA <$> raw)
        ∧ (∀ e, e ∈ raw →
             0 < p e ∧ p e = color_weight (RGBA e) (samples uniform [two_rows]))
        ∧ (∀ c, 0 < color_weight c (samples uniform [two_rows]) → c ∈ RGBA <$> raw)
  | _ => False
  end.
Proof.
  destruct (buildBucketMultiple unused_conversion uniform 10 empty_pool None [two_rows])
    as [[[bp' st] bucket]| |] eqn:E.
  - apply (aggregated_colours_are_histogram unused_conversion uniform 10 empty_pool None
             two_rows [] bp' st bucket);
      [exact samples_two_rows_nonneg | exact samples_two_rows_fit | exact E].
  - vm_compute in E. discriminate E.
  - vm_compute in E. discriminate E.
Defined.

(** X16. The table is sized on the box around the images, not on the number
    of images: when more colours carry weight than the table has slots, as
    three frames of one pixel each can have it, [buildBucketMultiple] never
    returns a list.  It panics or, in the model, runs out of any fuel. *)
Theorem more_colours_than_slots conv q fuel bp pick first rest cs :
  Forall (λ s, 0 ≤ s.1) (samples q (first :: rest)) →
  (∀ c, color_weight c (samples q (first :: rest)) < 2 ^ 32) →
  NoDup cs →
  (∀ c, c ∈ cs → 0 < color_weight c (samples q (first :: rest))) →
  table_size (first :: rest) < Z.of_nat (length cs) →
  buildBucketMultiple conv q fuel bp pick (first :: rest) = Panic
  ∨ buildBucketMultiple conv q fuel bp pick (first :: rest) = Timeout.
Proof.
  intros Hpos Hfit Hnd Hcs Hsize.
  destruct (buildBucketMultiple conv q fuel bp pick (first :: rest))
    as [[[bp' st] bucket]| |] eqn:E; [exfalso|by left|by right].
  destruct (buildBucketMultiple_exact _ _ _ _ _ _ _ _ _ _ Hpos Hfit E)
    as (raw & _ & _ & _ & Hall & Hlen).
  assert (length cs ≤ length (RGBA <$> raw))%nat as Hle.
  { apply submseteq_length, NoDup_submseteq; [done|]. intros c Hc. by apply Hall, Hcs. }
  rewrite length_fmap in Hle. lia.
Qed.

Lemma more_colours_than_slots_witness :
  buildBucketMultiple unused_conversion uniform 10 empty_pool None three_frames = Panic
  ∨ buildBucketMultiple unused_conversion uniform 10 empty_pool None three_frames = Timeout.
Proof.
  apply (more_colours_than_slots unused_conversion uniform 10 empty_pool None
           (one_pixel black) [one_pixel grey; one_pixel white] [black; grey; white]).
  - exact samples_three_frames_nonneg.
  - exact samples_three_frames_fit.
  - apply (bool_decide_unpack (NoDup _)). by vm_compute.
  - intros c Hc. repeat (apply elem_of_cons in Hc as [->|Hc]; [by vm_compute|]).
    by apply elem_of_nil in Hc.
  - vm_compute. reflexivity.
Defined.

(** ** When the scan ends *)

Lemma length_bind_const {T U} (f : T → list U) (l : list T) n :
  (∀ x, x ∈ l → length (f x) = n) → length (l ≫= f) = (length l * n)%nat.
Proof.
  induction l as [|x l IH]; intros H; [done|].
  rewrite bind_cons, length_app, IH, H; [simpl; lia|left|].
  intros y Hy. apply H. by right.
Qed.

Lemma length_coords m :
  sane_bounds (image.Bounds m) → Z.of_nat (length (coords m)) = area m.
Proof.
  intros (?&?&?&?). unfold coords, area.
  rewrite (length_bind_const _ _
    (Z.to_nat (image.X (image.Max (image.Bounds m)) - image.X (image.Min (image.Bounds m))))).
  - rewrite length_seqZ. nia.
  - intros y _. rewrite (length_bind_const _ _ 1%nat); [|done].
    rewrite length_seqZ. lia.
Qed.

(** The table has at least two slots for every pixel of any one image. *)
Lemma table_size_covers ms m :
  Forall (λ m, sane_bounds (image.Bounds m)) ms → m ∈ ms →
  2 * area m ≤ table_size ms < 2 ^ 63.
Proof.
  intros Hall Hm. unfold table_size, area.
  pose proof (bounds_step_range ms MaxInt32 0 MaxInt32 0 Hall) as H.
  unfold MaxInt32 in *.
  destruct (foldl bounds_step _ ms) as [[[lx gx] ly] gy].
  destruct H as ((?&?) & (?&?) & Hin); try lia.
  rewrite Forall_forall in Hin, Hall.
  destruct (Hin m Hm) as (?&?&?&?). destruct (Hall m Hm) as (?&?&?&?).
  rewrite (wrap_int_small (gx - lx)) by lia.
  rewrite (wrap_int_small (gy - ly)) by lia.
  rewrite (wrap_int_small ((gx - lx) * (gy - ly))) by nia.
  rewrite wrap_int_small by nia. nia.
Qed.

Lemma two_rows_sane : Forall (λ m, sane_bounds (image.Bounds m)) [two_rows].
Proof. repeat constructor; simpl; lia. Qed.

(** X17. For images of sane bounds the table has at least two slots for
    every pixel of any one image of the list, and its size stays within
    the range of [int]. *)
Theorem table_has_two_slots_per_pixel ms m :
  Forall (λ m, sane_bounds (image.Bounds m)) ms → m ∈ ms →
  2 * Z.of_nat (length (coords m)) ≤ table_size ms < 2 ^ 63.
Proof.
  intros Hall Hm. rewrite length_coords; [by apply table_size_covers|].
  rewrite Forall_forall in Hall. auto.
Qed.

Lemma table_has_two_slots_per_pixel_witness :
  2 * Z.of_nat (length (coords two_rows)) ≤ table_size [two_rows] < 2 ^ 63.
Proof.
  apply (table_has_two_slots_per_pixel [two_rows] two_rows).
  - exact two_rows_sane.
  - left.
Defined.

(** With its home slot free or its own, a pixel is added at the first
    probe. *)
Lemma homed_probe fuel done st sb size c w :
  within st sb → Z.of_nat (len sb) = size → 0 < size → 0 ≤ pack c → w ≠ 0 →
  homed done st sb size →
  (∀ s, s ∈ done → s.1 ≠ 0 → home s.2 size = home c size → s.2 = c) →
  ∃ st', probe (S fuel) st sb size c w (pack c) 1 = Ok st'
         ∧ length st' = length st
         ∧ homed (done ++ [(w, c)]) st' sb size.
Proof.
  intros Hin Hlen Hsize Hpack Hw Hhomed Hinj.
  pose proof (Z.rem_bound_pos (pack c) size Hpack Hsize) as Hslot.
  fold (home c size) in Hslot.
  destruct (read_within st sb (home c size) Hin ltac:(lia)) as [old Hold].
  cbn [probe]. rewrite bool_decide_false by lia.
  fold (home c size). rewrite Hold. cbn [mbind result_bind].
  assert (p old = 0 ∨ RGBA old = c) as Hfree.
  { destruct (decide (p old = 0)) as [|Hnz]; [by left|right].
    destruct (Hhomed _ _ Hold Hnz) as (Hj & s & Hs & Hsw & Hsc).
    rewrite <- Hsc. apply Hinj; [done..|]. by rewrite Hsc. }
  assert ((bool_decide (p old = 0) || bool_decide (RGBA old = c)) = true) as ->.
  { destruct Hfree; [rewrite (bool_decide_true (p old = 0)) by done; done|].
    rewrite (bool_decide_true (RGBA old = c)) by done. apply orb_true_r. }
  eexists. split; [done|]. split; [apply length_write|].
  intros j e Hr Hp. rewrite read_write_any in Hr by (done || lia).
  destruct (decide (home c size = j)) as [<-|Hne].
  - injection Hr as <-. simpl. split; [done|].
    exists (w, c). rewrite elem_of_app, list_elem_of_singleton. auto.
  - destruct (Hhomed _ _ Hr Hp) as (-> & s & Hs & ? & ?).
    split; [done|]. exists s. rewrite elem_of_app. auto.
Qed.

Lemma homed_scan fuel sb size : ∀ todo done st,
  within st sb → Z.of_nat (len sb) = size →
  (todo ≠ [] → 0 < size) →
  (∀ s, s ∈ done ++ todo → s.1 ≠ 0 → 0 ≤ pack s.2) →
  (∀ s1 s2, s1 ∈ done ++ todo → s2 ∈ done ++ todo → s1.1 ≠ 0 → s2.1 ≠ 0 →
     home s1.2 size = home s2.2 size → s1.2 = s2.2) →
  homed done st sb size →
  ∃ st', for_each (add_sample (S fuel) sb size) st todo = Ok st'
         ∧ length st' = length st.
Proof.
  induction todo as [|s todo IH]; intros done st Hin Hlen Hsize Hpack Hinj Hhomed.
  { by exists st. }
  cbn [for_each].
  assert (add_sample (S fuel) sb size st s
          = if bool_decide (s.1 ≠ 0)
            then probe (S fuel) st sb size s.2 s.1 (pack s.2) 1 else Ok st) as -> by done.
  assert (s ∈ done ++ s :: todo) as Hs by (rewrite elem_of_app; right; left).
  replace (done ++ s :: todo) with ((done ++ [s]) ++ todo) in *
    by by rewrite <- app_assoc.
  case_bool_decide as Hw.
  - destruct (homed_probe fuel done st sb size s.2 s.1) as (st1 & -> & Hlen1 & Hh1);
      try done; [by apply Hsize|by apply Hpack| |].
    { intros s' Hs' Hw' Heq. apply Hinj; try done.
      rewrite !elem_of_app. auto. }
    cbn [mbind result_bind].
    destruct (IH (done ++ [s]) st1) as (st' & -> & Hlen'); try done.
    + unfold within in *. by rewrite Hlen1.
    + intros Hne. by apply Hsize.
    + by destruct s.
    + exists st'. split; [done|congruence].
  - cbn [mbind result_bind].
    destruct (IH (done ++ [s]) st) as (st' & -> & Hlen'); try done.
    + intros Hne. by apply Hsize.
    + intros j e Hr Hp. destruct (Hhomed _ _ Hr Hp) as (-> & s' & ? & ? & ?).
      split; [done|]. exists s'. rewrite elem_of_app. auto.
    + by exists st'.
Qed.

Lemma homed_fresh (st : store) sb size n :
  contents st sb = replicate n zeroColor → homed [] st sb size.
Proof.
  intros Hz j e Hr Hp. apply read_Ok in Hr as [_ Hr]. rewrite Hz in Hr.
  apply lookup_replicate in Hr as [-> _]. done.
Qed.

(** A pixel makes the table at least two slots long. *)
Lemma table_size_pos q ms s :
  Forall (λ m, sane_bounds (image.Bounds m)) ms → s ∈ samples q ms →
  0 < table_size ms.
Proof.
  intros Hall Hs. apply elem_of_samples in Hs as (m & xy & Hm & Hxy & _).
  pose proof (table_size_covers ms m Hall Hm) as [Hc _].
  rewrite Forall_forall in Hall.
  rewrite <- length_coords in Hc by auto.
  destruct (coords m); [by apply elem_of_nil in Hxy|]. simpl in Hc. lia.
Qed.

(** When no two colours of the pixels share their home slot, the scan ends
    after one probe for each pixel, whatever the pool hands out, once the
    table is allocated. *)
Lemma buildBucketMultiple_returns conv q fuel bp pick first rest :
  Forall (λ m, sane_bounds (image.Bounds m)) (first :: rest) →
  8 * table_size (first :: rest) ≤ maxAlloc → 8 * maxCap bp ≤ maxAlloc →
  (∀ s, s ∈ samples q (first :: rest) → s.1 ≠ 0 → color.wf s.2) →
  (∀ s1 s2, s1 ∈ samples q (first :: rest) → s2 ∈ samples q (first :: rest) →
     s1.1 ≠ 0 → s2.1 ≠ 0 →
     home s1.2 (table_size (first :: rest)) = home s2.2 (table_size (first :: rest)) →
     s1.2 = s2.2) →
  ∃ bp' st bucket,
    buildBucketMultiple conv q (S fuel) bp pick (first :: rest) = Ok (bp', st, bucket).
Proof.
  intros Hall Hsmall Hmark Hwf Hinj. unfold buildBucketMultiple.
  remember (first :: rest) as ms eqn:Ems.
  assert (0 ≤ table_size ms) as Hsize by (apply table_size_sane; [by subst|done]).
  destruct (getBucket_spec bp pick (table_size ms) Hsize Hsmall Hmark)
    as (bp1 & st0 & -> & Hz).
  cbn [mbind result_bind]. rewrite scan_flat.
  destruct (homed_scan fuel (mkBucket 0 (Z.to_nat (table_size ms))) (table_size ms)
              (samples q ms) [] st0) as (st1 & -> & Hlen).
  - by eapply within_zeroed.
  - simpl. lia.
  - intros Hne. destruct (samples q ms) as [|s l] eqn:E; [done|].
    apply (table_size_pos q ms s); [done|]. rewrite E. left.
  - intros s Hs Hw. apply pack_nonneg. by apply Hwf.
  - simpl. done.
  - by eapply homed_fresh.
  - cbn [mbind result_bind]. subst ms.
    destruct (compact _ _ _ _) as [st2 b]. eauto.
Qed.

Lemma color_weight_pos c l :
  Forall (λ s, 0 ≤ s.1) l →
  0 < color_weight c l ↔ ∃ s, s ∈ l ∧ s.1 ≠ 0 ∧ s.2 = c.
Proof.
  induction 1 as [|s l Hs Hl IH].
  - split; [unfold color_weight; simpl; lia|]. intros (s & Hs & _). by apply elem_of_nil in Hs.
  - rewrite color_weight_cons.
    pose proof (color_weight_nonneg c l Hl).
    split.
    + intros Hpos. destruct (decide (s.2 = c)) as [Hc|Hc].
      * destruct (decide (s.1 = 0)) as [Hz|Hnz].
        -- destruct IH as [IH _]. destruct IH as (s' & ? & ? & ?); [lia|].
           exists s'. split_and!; [by right|done..].
        -- exists s. split_and!; [left|done..].
      * destruct IH as [IH _]. destruct IH as (s' & ? & ? & ?); [lia|].
        exists s'. split_and!; [by right|done..].
    + intros (s' & Hs' & Hnz & Hc). apply elem_of_cons in Hs' as [->|Hs'].
      * rewrite decide_True by done. lia.
      * assert (0 < color_weight c l) by (apply IH; eauto).
        destruct (decide _); lia.
Qed.

Lemma elem_of_distinct_colours q ms c :
  c ∈ distinct_colours q ms ↔ ∃ s, s ∈ samples q ms ∧ s.1 ≠ 0 ∧ s.2 = c.
Proof.
  unfold distinct_colours. rewrite elem_of_remove_dups, list_elem_of_fmap.
  split.
  - intros (s & -> & Hs). apply list_elem_of_filter in Hs as [? ?]. eauto.
  - intros (s & Hs & Hnz & <-). exists s. split; [done|].
    by apply list_elem_of_filter.
Qed.

Lemma two_rows_wf s : s ∈ samples uniform [two_rows] → s.1 ≠ 0 → color.wf s.2.
Proof.
  intros Hs _. vm_compute in Hs.
  repeat (apply elem_of_cons in Hs as [->|Hs];
          [repeat split; simpl; unfold is_u8; simpl; lia|]).
  by apply elem_of_nil in Hs.
Qed.

Lemma two_rows_homes s1 s2 :
  s1 ∈ samples uniform [two_rows] → s2 ∈ samples uniform [two_rows] →
  s1.1 ≠ 0 → s2.1 ≠ 0 →
  home s1.2 (table_size [two_rows]) = home s2.2 (table_size [two_rows]) →
  s1.2 = s2.2.
Proof.
  intros H1 H2 _ _. vm_compute in H1, H2.
  repeat (apply elem_of_cons in H1 as [->|H1]);
    try (by apply elem_of_nil in H1);
    repeat (apply elem_of_cons in H2 as [->|H2]);
    try (by apply elem_of_nil in H2);
    vm_compute; congruence.
Qed.

(** X18. When no two colours of the pixels share their home slot, the slot
    [index % size] of the first probe, the scan ends after one probe for
    each pixel: [buildBucketMultiple] returns, for any fuel above zero and
    whatever buffer the pool hands out, and the list it returns is the
    histogram of the pixels.  The table must be one that can be had: its
    size and the high-water mark found in the pool are sizes [make] accepts
    (8 bytes an entry, at most [maxAlloc] bytes); beyond them [getBucket]
    panics. *)
Theorem aggregation_without_collisions conv q fuel bp pick first rest :
  Forall (λ m, sane_bounds (image.Bounds m)) (first :: rest) →
  sizeof_colorPriority * table_size (first :: rest) ≤ maxAlloc →
  sizeof_colorPriority * maxCap bp ≤ maxAlloc →
  Forall (λ s, 0 ≤ s.1) (samples q (first :: rest)) →
  (∀ c, color_weight c (samples q (first :: rest)) < 2 ^ 32) →
  (∀ s, s ∈ samples q (first :: rest) → s.1 ≠ 0 → color.wf s.2) →
  (∀ s1 s2, s1 ∈ samples q (first :: rest) → s2 ∈ samples q (first :: rest) →
     s1.1 ≠ 0 → s2.1 ≠ 0 →
     home s1.2 (table_size (first :: rest)) = home s2.2 (table_size (first :: rest)) →
     s1.2 = s2.2) →
  ∃ bp' st bucket raw,
    buildBucketMultiple conv q (S fuel) bp pick (first :: rest) = Ok (bp', st, bucket)
    ∧ contents st bucket = emit conv (image.is_YCbCr first) <$> raw
    ∧ RGBA <$> raw ≡ₚ distinct_colours q (first :: rest)
    ∧ ∀ e, e ∈ raw → p e = color_weight (RGBA e) (samples q (first :: rest)).
Proof.
  intros Hsane Hsmall Hmark Hpos Hfit Hwf Hinj.
  destruct (buildBucketMultiple_returns conv q fuel bp pick first rest)
    as (bp' & st & bucket & H); [done..|].
  destruct (buildBucketMultiple_exact _ _ _ _ _ _ _ _ _ _ Hpos Hfit H)
    as (raw & Hraw & Hnd & Hw & Hall & _).
  exists bp', st, bucket, raw. split_and!; [done|done| |by intros e He; apply Hw].
  apply NoDup_Permutation; [done|apply NoDup_remove_dups|].
  intros c. rewrite elem_of_distinct_colours, <- (color_weight_pos _ _ Hpos).
  split; [|by apply Hall].
  intros Hc. apply list_elem_of_fmap in Hc as (e & -> & He).
  destruct (Hw e He). lia.
Qed.

Lemma aggregation_without_collisions_witness :
  ∃ bp' st bucket raw,
    buildBucketMultiple unused_conversion uniform 1 empty_pool None [two_rows]
    = Ok (bp', st, bucket)
    ∧ contents st bucket = emit unused_conversion (image.is_YCbCr two_rows) <$> raw
    ∧ RGBA <$> raw ≡ₚ distinct_colours uniform [two_rows]
    ∧ ∀ e, e ∈ raw → p e = color_weight (RGBA e) (samples uniform [two_rows]).
Proof.
  apply (aggregation_without_collisions unused_conversion uniform 0 empty_pool None
           two_rows []).
  - exact two_rows_sane.
  - vm_compute. discriminate.
  - vm_compute. discriminate.
  - exact samples_two_rows_nonneg.
  - exact samples_two_rows_fit.
  - exact two_rows_wf.
  - exact two_rows_homes.
Defined.

Lemma pow2_divides_odd (m : nat) : ∀ a b,
  (2 ^ Z.of_nat m | a * (2 * b + 1)) → (2 ^ Z.of_nat m | a).
Proof.
  induction m as [|m IH]; intros a b H.
  { exists a. simpl. lia. }
  rewrite Nat2Z.inj_succ, Z.pow_succ_r in * by lia.
  destruct H as [q Hq].
  assert (∃ a', a = 2 * a') as [a' ->].
  { destruct (Z.Even_or_Odd a) as [[a' ->]|[a' ->]]; [by exists a'|]. lia. }
  destruct (IH a' b) as [q' Hq'].
  { exists q. nia. }
  exists q'. lia.
Qed.

(** The even turns of the probing loop reach every residue modulo a power
    of two. *)
Lemma even_turns_injective (m : nat) k j :
  0 ≤ k < 2 ^ Z.of_nat m → 0 ≤ j < 2 ^ Z.of_nat m →
  probe_offset (2 * k) `mod` 2 ^ Z.of_nat m = probe_offset (2 * j) `mod` 2 ^ Z.of_nat m →
  k = j.
Proof.
  intros Hk Hj H.
  assert (∀ x, probe_offset (2 * x) = x * (2 * x + 3)) as Hg.
  { intros x. unfold probe_offset.
    replace (2 * x * (2 * x + 3)) with (x * (2 * x + 3) * 2) by lia.
    by rewrite Z.div_mul. }
  rewrite !Hg in H.
  assert (2 ^ Z.of_nat m | (k - j) * (2 * (k + j + 1) + 1)) as Hd.
  { replace ((k - j) * (2 * (k + j + 1) + 1)) with (k * (2 * k + 3) - j * (2 * j + 3))
      by lia.
    apply Z.mod_divide; [lia|]. rewrite Zdiv.Zminus_mod, H, Z.sub_diag. done. }
  apply pow2_divides_odd in Hd as [q Hq].
  assert (q = 0) by nia. lia.
Qed.

Lemma even_turns_cover (m : nat) r :
  0 ≤ r < 2 ^ Z.of_nat m →
  ∃ k, 0 ≤ k < 2 ^ Z.of_nat m ∧ probe_offset (2 * k) `mod` 2 ^ Z.of_nat m = r.
Proof.
  intros Hr. set (S := 2 ^ Z.of_nat m) in *.
  set (l := (λ k, probe_offset (2 * k) `mod` S) <$> seqZ 0 S).
  assert (l ≡ₚ seqZ 0 S) as Hperm.
  { apply submseteq_length_Permutation.
    - apply NoDup_submseteq.
      + apply NoDup_fmap_2_strong; [|apply NoDup_seqZ].
        intros k j Hk Hj. rewrite elem_of_seqZ in Hk, Hj.
        apply (even_turns_injective m); fold S; lia.
      + intros x Hx. apply list_elem_of_fmap in Hx as (k & -> & _).
        apply elem_of_seqZ. pose proof (Z.mod_pos_bound (probe_offset (2 * k)) S). lia.
    - unfold l. by rewrite length_fmap. }
  assert (r ∈ l) as Hin by (rewrite Hperm, elem_of_seqZ; lia).
  apply list_elem_of_fmap in Hin as (k & -> & Hk). apply elem_of_seqZ in Hk.
  exists k. split; [lia|done].
Qed.

(** From any home slot the path of the probing loop comes by every slot. *)
Lemma path_reaches (m : nat) c j :
  0 ≤ pack c → 0 ≤ j < 2 ^ Z.of_nat m →
  ∃ n, 0 ≤ n < 2 * 2 ^ Z.of_nat m
       ∧ (pack c + probe_offset n) `rem` 2 ^ Z.of_nat m = j.
Proof.
  intros Hc Hj. set (S := 2 ^ Z.of_nat m) in *.
  destruct (even_turns_cover m ((j - pack c) `mod` S)) as (k & Hk & Hg).
  { apply Z.mod_pos_bound. lia. }
  fold S in Hk, Hg. exists (2 * k). split; [lia|].
  assert (0 ≤ probe_offset (2 * k)).
  { unfold probe_offset. apply Z.div_pos; nia. }
  rewrite Z.rem_mod_nonneg by lia.
  rewrite Zdiv.Zplus_mod, Hg, <- Zdiv.Zplus_mod.
  replace (pack c + (j - pack c)) with j by lia. apply Z.mod_small. lia.
Qed.

Lemma first_free (f : nat → bool) n0 :
  f n0 = false → ∃ n, (n ≤ n0)%nat ∧ f n = false ∧ ∀ n', (n' < n)%nat → f n' = true.
Proof.
  intros Hf.
  assert (∀ k, (∀ n', (n' < k)%nat → f n' = true)
               ∨ ∃ n, (n < k)%nat ∧ f n = false ∧ ∀ n', (n' < n)%nat → f n' = true) as H.
  { induction k as [|k [IH|(n & ? & ? & ?)]].
    - left. intros n' Hn'. lia.
    - destruct (f k) eqn:E.
      + left. intros n' Hn'. destruct (decide (n' = k)) as [->|]; [done|]. apply IH. lia.
      + right. exists k. split_and!; [lia|done|done].
    - right. exists n. split_and!; [lia|done|done]. }
  destruct (H n0) as [Hall|(n & ? & ? & ?)].
  - exists n0. split_and!; [lia|done|done].
  - exists n. split_and!; [lia|done|done].
Qed.

(** The loop follows its path as long as the slots are in use by other
    colours, and stops at the first that is not. *)
Lemma probe_follows st sb size c w : ∀ (n : nat) fuel index i old,
  size ≠ 0 →
  (∀ n', (n' < n)%nat →
     taken_by_other st sb c ((turns index i n').1 `rem` size) = true) →
  read st sb ((turns index i n).1 `rem` size) = Ok old →
  (p old = 0 ∨ RGBA old = c) →
  (n < fuel)%nat →
  probe fuel st sb size c w index i
  = Ok (write st sb ((turns index i n).1 `rem` size)
          (mkColorPriority (wrap_u32 (p old + w)) c)).
Proof.
  induction n as [|n IH]; intros fuel index i old Hsize Hearly Hread Hfree Hfuel;
    (destruct fuel as [|fuel]; [lia|]); cbn [probe];
    rewrite bool_decide_false by done.
  - simpl in *. rewrite Hread. cbn [mbind result_bind].
    destruct Hfree as [Hz|Hc].
    + by rewrite (bool_decide_true (p old = 0)) by done.
    + rewrite (bool_decide_true (RGBA old = c)) by done. by rewrite orb_true_r.
  - pose proof (Hearly 0%nat ltac:(lia)) as H0. simpl in H0.
    apply taken_by_other_true in H0 as (e & -> & Hp & Hc). cbn [mbind result_bind].
    rewrite !bool_decide_false by done. simpl.
    apply IH; [done| |done|done|lia].
    intros n' Hn'. apply (Hearly (S n')). lia.
Qed.

Lemma length_filter_insert {T} (P : T → Prop) `{∀ x, Decision (P x)} (l : list T) i x :
  (length (filter P (<[i:=x]> l)) ≤ S (length (filter P l)))%nat.
Proof.
  revert i. induction l as [|y l IH]; intros [|i]; simpl; try lia.
  - rewrite !filter_cons. repeat destruct (decide _); simpl; lia.
  - rewrite !filter_cons. specialize (IH i). destruct (decide _); simpl; lia.
Qed.

Lemma used_write st sb i x :
  0 ≤ i < Z.of_nat (len sb) → (used (write st sb i x) sb ≤ S (used st sb))%nat.
Proof.
  intros Hi. unfold used. rewrite contents_write_in by done. apply length_filter_insert.
Qed.

(** A table with fewer slots in use than it has holds a free slot. *)
Lemma free_slot st sb :
  within st sb → (used st sb < len sb)%nat →
  ∃ j e, read st sb j = Ok e ∧ p e = 0.
Proof.
  intros Hin Hused. unfold used in Hused.
  destruct (decide (Exists (λ e, p e = 0) (contents st sb))) as [Hex|Hno].
  - apply Exists_exists in Hex as (e & He & Hp).
    apply list_elem_of_lookup in He as [j Hj].
    exists (Z.of_nat j), e. split; [by apply read_contents|done].
  - exfalso. apply Forall_Exists_neg in Hno.
    assert (filter (λ e, p e ≠ 0) (contents st sb) = contents st sb) as Heq.
    { clear Hused. induction Hno as [|e l He _ IH]; [done|].
      by rewrite filter_cons_True, IH. }
    rewrite Heq, length_contents in Hused by done. lia.
Qed.

(** In a table of a power of two of slots, one of them free, the probing
    loop finds a slot for any colour within twice the size of turns. *)
Lemma probe_returns_pow2 (m : nat) st sb c w fuel :
  within st sb → Z.of_nat (len sb) = 2 ^ Z.of_nat m → (m ≤ 29)%nat →
  color.wf c →
  (∃ j e, read st sb j = Ok e ∧ p e = 0) →
  (2 * len sb < fuel)%nat →
  ∃ slot old,
    probe fuel st sb (2 ^ Z.of_nat m) c w (pack c) 1
    = Ok (write st sb slot (mkColorPriority (wrap_u32 (p old + w)) c))
    ∧ 0 ≤ slot < Z.of_nat (len sb).
Proof.
  intros Hin Hlen Hm Hwf (j & e & Hj & Hz) Hfuel.
  pose proof (pack_bounds c Hwf) as Hc.
  assert (2 ^ Z.of_nat m ≤ 2 ^ 29) as Hsize by (apply Z.pow_le_mono_r; lia).
  assert (0 < 2 ^ Z.of_nat m) as Hpos by (apply Z.pow_pos_nonneg; lia).
  pose proof (read_Ok _ _ _ _ Hj) as [Hjb _].
  destruct (path_reaches m c j) as (n0 & Hn0 & Hreach); [lia|lia|].
  set (f := λ n : nat, taken_by_other st sb c (probed c (2 ^ Z.of_nat m) n)).
  assert (f (Z.to_nat n0) = false) as Hf0.
  { unfold f. rewrite probed_closed by lia. rewrite Z2Nat.id by lia. rewrite Hreach.
    unfold taken_by_other. rewrite Hj. by rewrite (bool_decide_true (p e = 0)). }
  destruct (first_free f _ Hf0) as (n & Hn & Hfn & Hearly).
  assert (0 ≤ probed c (2 ^ Z.of_nat m) n < Z.of_nat (len sb)) as Hslot.
  { rewrite probed_closed by lia. rewrite Hlen.
    apply Z.rem_bound_pos; [|done].
    pose proof (probe_offset_bounds (Z.of_nat n) ltac:(lia)). lia. }
  destruct (read_within st sb _ Hin Hslot) as [old Hold].
  exists (probed c (2 ^ Z.of_nat m) n), old. split; [|done].
  apply probe_follows; [lia|exact Hearly|exact Hold| |lia].
  unfold f, taken_by_other in Hfn. rewrite Hold in Hfn.
  apply negb_false_iff, orb_true_iff in Hfn as [H1|H2].
  - left. by apply bool_decide_eq_true in H1.
  - right. by apply bool_decide_eq_true in H2.
Qed.

Lemma scan_returns_pow2 (m : nat) fuel sb : ∀ todo st (k : nat),
  within st sb → Z.of_nat (len sb) = 2 ^ Z.of_nat m → (m ≤ 29)%nat →
  (used st sb ≤ k)%nat → (k + length todo ≤ len sb)%nat →
  (∀ s, s ∈ todo → s.1 ≠ 0 → color.wf s.2) →
  (2 * len sb < fuel)%nat →
  ∃ st', for_each (add_sample fuel sb (2 ^ Z.of_nat m)) st todo = Ok st'.
Proof.
  induction todo as [|s todo IH]; intros st k Hin Hlen Hm Hused Hroom Hwf Hfuel.
  { by exists st. }
  cbn [for_each].
  assert (add_sample fuel sb (2 ^ Z.of_nat m) st s
          = if bool_decide (s.1 ≠ 0)
            then probe fuel st sb (2 ^ Z.of_nat m) s.2 s.1 (pack s.2) 1 else Ok st)
    as -> by done.
  simpl in Hroom.
  case_bool_decide as Hw.
  - destruct (probe_returns_pow2 m st sb s.2 s.1 fuel) as (slot & old & -> & Hslot);
      [done|done|done|apply Hwf; [left|done]|apply free_slot; [done|lia]|done|].
    cbn [mbind result_bind].
    apply (IH _ (S k)); try done.
    + unfold within in *. by rewrite length_write.
    + pose proof (used_write st sb slot
        (mkColorPriority (wrap_u32 (p old + s.1)) s.2) Hslot). lia.
    + lia.
    + intros s' Hs'. apply Hwf. by right.
  - cbn [mbind result_bind]. apply (IH _ (S k)); try done; [lia|lia|].
    intros s' Hs'. apply Hwf. by right.
Qed.

(** X19. When the size of the table is a power of two, the path of the
    probing loop comes by every slot, and the table is not full as long as
    it has a slot for each pixel, as it has for a single image: the scan
    ends, and [buildBucketMultiple] returns for any fuel above twice the
    size of the table, whatever the colours of the pixels are.  The table,
    of 2^29 slots at most, is one [make] accepts; so must be the high-water
    mark found in the pool (8 bytes an entry, at most [maxAlloc] bytes),
    beyond which [getBucket] panics. *)
Theorem aggregation_returns_on_power_of_two conv q fuel bp pick first rest (m : nat) :
  table_size (first :: rest) = 2 ^ Z.of_nat m → (m ≤ 29)%nat →
  sizeof_colorPriority * maxCap bp ≤ maxAlloc →
  Z.of_nat (length (samples q (first :: rest))) ≤ table_size (first :: rest) →
  (∀ s, s ∈ samples q (first :: rest) → s.1 ≠ 0 → color.wf s.2) →
  (2 * Z.to_nat (table_size (first :: rest)) < fuel)%nat →
  ∃ bp' st bucket,
    buildBucketMultiple conv q fuel bp pick (first :: rest) = Ok (bp', st, bucket).
Proof.
  intros Hsize Hm Hmark Hcount Hwf Hfuel. unfold buildBucketMultiple.
  remember (first :: rest) as ms eqn:Ems.
  assert (0 < 2 ^ Z.of_nat m) as Hpos by (apply Z.pow_pos_nonneg; lia).
  assert (8 * table_size ms ≤ maxAlloc) as Hsmall.
  { rewrite Hsize. unfold maxAlloc.
    assert (2 ^ Z.of_nat m ≤ 2 ^ 29) by (apply Z.pow_le_mono_r; lia). lia. }
  destruct (getBucket_spec bp pick (table_size ms) ltac:(lia) Hsmall Hmark)
    as (bp1 & st0 & -> & Hz).
  cbn [mbind result_bind]. rewrite scan_flat.
  set (sb := mkBucket 0 (Z.to_nat (table_size ms))) in *.
  replace (add_sample fuel sb (table_size ms))
    with (add_sample fuel sb (2 ^ Z.of_nat m)) by (by rewrite Hsize).
  destruct (scan_returns_pow2 m fuel sb (samples q ms) st0 0) as (st1 & ->).
  - by eapply within_zeroed.
  - simpl. lia.
  - done.
  - unfold used. rewrite Hz, filter_replicate_zero. simpl. lia.
  - simpl. lia.
  - done.
  - done.
  - cbn [mbind result_bind]. subst ms.
    destruct (compact _ _ _ _) as [st2 b]. eauto.
Qed.

Lemma aggregation_returns_on_power_of_two_witness :
  ∃ bp' st bucket,
    buildBucketMultiple unused_conversion uniform 20 empty_pool None [two_rows]
    = Ok (bp', st, bucket).
Proof.
  apply (aggregation_returns_on_power_of_two unused_conversion uniform 20 empty_pool None
           two_rows [] 3).
  - reflexivity.
  - lia.
  - vm_compute. discriminate.
  - vm_compute. discriminate.
  - exact two_rows_wf.
  - vm_compute. lia.
Defined.

(** ** The colours in the palette *)





(** The members of a bucket [bucketize] returns are among the colours it
    was given. *)
Lemma bucket_members st q b c : b ∈ q → c ∈ contents st b → c ∈ members st q.
Proof.
  intros Hb Hc. induction q as [|b' q IH]; [by apply elem_of_nil in Hb|].
  rewrite members_cons, elem_of_app.
  apply elem_of_cons in Hb as [->|Hb]; [by left|right; auto].
Qed.




Lemma foldr_min_glb ax l lo :
  lo ≤ 255 → (∀ c, c ∈ l → lo ≤ chan ax c) → lo ≤ foldr Z.min 255 (chan ax <$> l).
Proof.
  intros Hlo H. induction l as [|c l IH]; csimpl; [done|].
  apply Z.min_glb; [apply H; left|]. apply IH. intros c' Hc'. apply H. by right.
Qed.

Lemma foldr_max_lub ax l hi :
  0 ≤ hi → (∀ c, c ∈ l → chan ax c ≤ hi) → foldr Z.max 0 (chan ax <$> l) ≤ hi.
Proof.
  intros Hhi H. induction l as [|c l IH]; csimpl; [done|].
  apply Z.max_lub; [apply H; left|]. apply IH. intros c' Hc'. apply H. by right.
Qed.

Lemma foldr_min_le (l : list Z) : foldr Z.min 255 l ≤ 255.
Proof. induction l as [|x l IH]; simpl; lia. Qed.

Lemma foldr_max_ge (l : list Z) : 0 ≤ foldr Z.max 0 l.
Proof. induction l as [|x l IH]; simpl; lia. Qed.

Lemma length_bucket_le st q b :
  b ∈ q → (length (contents st b) ≤ length (members st q))%nat.
Proof.
  intros Hb. induction q as [|b' q IH]; [by apply elem_of_nil in Hb|].
  rewrite members_cons, length_app.
  apply elem_of_cons in Hb as [->|Hb]; [lia|]. specialize (IH Hb). lia.
Qed.

(** What [palettize] appends in Mean. *)
Lemma palettize_Mean_means st buckets : ∀ pal,
  Forall (λ b, Forall good (contents st b) ∧ contents st b ≠ []
               ∧ Z.of_nat (length (contents st b)) < 2 ^ 24) buckets →
  ∃ ms, palettize Mean st pal buckets = Ok (pal ++ (color.OfRGBA <$> ms))
        ∧ Forall2 (λ b m, mean st b = Ok m) buckets ms.
Proof.
  induction buckets as [|b bs IH]; intros pal Hall.
  { exists []. simpl. rewrite app_nil_r. split; [done|constructor]. }
  apply Forall_cons in Hall as [(Hgood & Hne & Hlen) Hall].
  destruct (mean_of_exact _ Hgood Hne Hlen) as [Hm _].
  destruct (IH (pal ++ [color.OfRGBA
      (color.mkRGBA (weighted_sum red (contents st b) `div` weight (contents st b))
                    (weighted_sum green (contents st b) `div` weight (contents st b))
                    (weighted_sum blue (contents st b) `div` weight (contents st b))
                    255)]) Hall) as (ms & Hp & Hf).
  eexists (_ :: ms). split.
  - cbn [palettize]. unfold palettize_bucket, mean.
    rewrite bool_decide_true by done. rewrite Hm. cbn [mbind result_bind].
    rewrite Hp. by rewrite <- app_assoc.
  - constructor; [exact Hm|done].
Qed.

(** X22. In Mean no channel leaves the range of the colours: whenever
    [quantizeSlice] returns on fewer than 2^24 colours as the aggregation
    produces them, every entry it has appended, the transparent entry
    apart, is an opaque colour whose red, green and blue each lie between
    the least and the greatest value of that channel over the colours. *)
Theorem Mean_entries_within_the_colours q fuel st pal cap_pal colors st' pal' :
  Aggregation q = Mean → within st colors →
  Forall good (contents st colors) → Z.of_nat (len colors) < 2 ^ 24 →
  quantizeSlice q fuel st pal cap_pal colors = Ok (st', pal') →
  ∃ ms,
    pal' = pal ++ (color.OfRGBA <$> ms)
               ++ (if AddTransparent q && negb (has_transparent pal)
                   then [transparent] else [])
    ∧ Forall (λ m, color.A m = 255
                   ∧ ∀ ax, foldr Z.min 255 (chan ax <$> contents st colors)
                           ≤ channel_of ax m
                           ≤ foldr Z.max 0 (chan ax <$> contents st colors)) ms.
Proof.
  intros Hmean Hin Hgood Hfit H.
  apply quantizeSlice_Ok in H as (buckets & pal2 & Hb & Hp & ->).
  rewrite Hmean in Hp.
  destruct (decide (len colors = 0%nat ∨ target q pal cap_pal = 0)) as [Hz|Hnz].
  { assert (buckets = []) as ->.
    { unfold bucketize in Hb. destruct Hz as [Hz|Hz].
      - rewrite (bool_decide_true (len colors = 0%nat)) in Hb by done. by simplify_eq/=.
      - rewrite (bool_decide_true (target q pal cap_pal = 0)) in Hb by done.
        rewrite orb_true_r in Hb. by simplify_eq/=. }
    simpl in Hp. injection Hp as <-. exists []. split; [done|constructor]. }
  apply bucketize_spec in Hb as ((Hwithin & _) & _ & Hperm & Hne & _); [|done|lia].
  destruct (Hne ltac:(lia)) as [_ Hlen].
  assert (Hmem : ∀ b c, b ∈ buckets → c ∈ contents st' b → c ∈ contents st colors).
  { intros b c Hb Hc. rewrite <- Hperm. by eapply bucket_members. }
  assert (Hall : Forall (λ b, Forall good (contents st' b) ∧ contents st' b ≠ []
                          ∧ Z.of_nat (length (contents st' b)) < 2 ^ 24) buckets).
  { apply Forall_forall. intros b Hb. rewrite Forall_forall in Hlen, Hwithin.
    rewrite Forall_forall in Hgood.
    pose proof (length_contents st' b (Hwithin b Hb)) as Hl. specialize (Hlen b Hb).
    split_and!.
    - apply Forall_forall. intros c Hc. apply Hgood. by eapply Hmem.
    - intros E. rewrite E in Hl. simpl in Hl. lia.
    - pose proof (length_bucket_le st' buckets b Hb) as Hle.
      rewrite Hperm, (length_contents st colors) in Hle by done. lia. }
  destruct (palettize_Mean_means st' buckets pal Hall) as (ms & Hms & Hf).
  rewrite Hms in Hp. injection Hp as <-.
  exists ms. split; [by rewrite <- app_assoc|].
  clear Hms Hwithin Hperm Hne Hlen Hnz.
  induction Hf as [|b m bs ms' Hm _ IH]; [constructor|].
  apply Forall_cons in Hall as [(Hgb & Hneb & Hlb) Hall].
  constructor.
  - destruct (mean_of_exact _ Hgb Hneb Hlb) as [Hex Hrange].
    unfold mean in Hm. rewrite Hex in Hm. injection Hm as <-.
    split; [reflexivity|]. intros ax. specialize (Hrange ax).
    assert (foldr Z.min 255 (chan ax <$> contents st colors)
            ≤ foldr Z.min 255 (chan ax <$> contents st' b)).
    { apply foldr_min_glb.
      - apply foldr_min_le.
      - intros c Hc. apply chan_between; [|done]. apply (Hmem b); [left|done]. }
    assert (foldr Z.max 0 (chan ax <$> contents st' b)
            ≤ foldr Z.max 0 (chan ax <$> contents st colors)).
    { apply foldr_max_lub.
      - apply foldr_max_ge.
      - intros c Hc. apply chan_between; [|done]. apply (Hmem b); [left|done]. }
    destruct ax; simpl in *; lia.
  - apply IH; [|done]. intros b' c Hb' Hc. apply (Hmem b'); [by right|done].
Qed.

Lemma Mean_entries_within_the_colours_witness :
  match quantizeSlice (mkQuantizer Mean None false) 30 tie_store [] 2 tie_bucket with
  | Ok (_, pal') =>
      ∃ ms,
        pal' = [] ++ (color.OfRGBA <$> ms)
                  ++ (if AddTransparent (mkQuantizer Mean None false)
                         && negb (has_transparent [])
                      then [transparent] else [])
        ∧ Forall (λ m, color.A m = 255
                       ∧ ∀ ax, foldr Z.min 255 (chan ax <$> contents tie_store tie_bucket)
                               ≤ channel_of ax m
                               ≤ foldr Z.max 0 (chan ax <$> contents tie_store tie_bucket)) ms
  | _ => False
  end.
Proof.
  destruct (quantizeSlice (mkQuantizer Mean None false) 30 tie_store [] 2 tie_bucket)
    as [[st' pal']| |] eqn:E.
  - apply (Mean_entries_within_the_colours (mkQuantizer Mean None false) 30 tie_store [] 2
             tie_bucket st' pal');
      [reflexivity | unfold within; simpl; lia | exact tie_store_good
      | simpl; lia | exact E].
  - vm_compute in E. discriminate E.
  - vm_compute in E. discriminate E.
Defined.

(** ** The pool and the palette *)

Lemma getBucket_negative bp pick c : c < 0 → getBucket bp pick c = Panic.
Proof.
  intros Hc. unfold getBucket, make_bucket.
  destruct (Pool_Get (Pool bp) pick) as [[buf|] rest].
  - rewrite (bool_decide_false (Z.of_nat (length buf) < c)) by lia.
    by rewrite bool_decide_false by lia.
  - rewrite (bool_decide_false (0 ≤ c ≤ _)) by lia. by rewrite andb_false_r.
Qed.

Lemma getBucket_maxCap bp pick c bp' st slice :
  0 ≤ c → 0 ≤ maxCap bp < 2 ^ 56 →
  getBucket bp pick c = Ok (bp', st, slice) →
  maxCap bp' = Z.max c ((maxCap bp * 99) `div` 100)
  ∧ Pool bp' = (Pool_Get (Pool bp) pick).2.
Proof.
  intros Hc Hm H. unfold getBucket in H.
  assert ((maxCap bp * 99) `div` 100 ≤ maxCap bp) as Hdec.
  { apply Z.div_le_upper_bound; lia. }
  assert (0 ≤ (maxCap bp * 99) `div` 100) by (apply Z.div_pos; lia).
  assert ((if bool_decide
                ((if bool_decide (maxCap bp > c)
                  then wrap_int (maxCap bp * 99) `quot` 100 else maxCap bp) < c)
           then c
           else if bool_decide (maxCap bp > c)
                then wrap_int (maxCap bp * 99) `quot` 100 else maxCap bp)
          = Z.max c ((maxCap bp * 99) `div` 100)) as Hmax.
  { rewrite wrap_int_small by lia. rewrite Z.quot_div_nonneg by lia.
    repeat case_bool_decide; lia. }
  rewrite Hmax in H.
  destruct (Pool_Get (Pool bp) pick) as [[buf|] rest]; simpl in *.
  - destruct (bool_decide (Z.of_nat (length buf) < c)).
    + inv_bind H. destruct t. by simplify_eq/=.
    + destruct (bool_decide (0 ≤ c)); by simplify_eq/=.
  - inv_bind H. destruct t. by simplify_eq/=.
Qed.

(** X23. [getBucket] panics on a negative length, whatever the pool holds.
    On a length that is not negative it leaves the high-water mark at the
    greater of the length and 99 hundredths of the mark it found, and the
    buffer the pool handed out is out of the pool, also when it was too
    small to be used. *)
Theorem getBucket_high_water_mark bp pick c :
  (c < 0 → getBucket bp pick c = Panic)
  ∧ (0 ≤ c → 0 ≤ maxCap bp < 2 ^ 56 →
     ∀ bp' st slice,
       getBucket bp pick c = Ok (bp', st, slice) →
       maxCap bp' = Z.max c ((maxCap bp * 99) `div` 100)
       ∧ Pool bp' = (Pool_Get (Pool bp) pick).2).
Proof.
  split; [apply getBucket_negative|].
  intros Hc Hm bp' st slice H. by eapply getBucket_maxCap.
Qed.

Lemma getBucket_high_water_mark_witness :
  getBucket used_pool (Some 0%nat) (-1) = Panic
  ∧ ∀ bp' st slice,
      getBucket used_pool (Some 0%nat) 5 = Ok (bp', st, slice) →
      maxCap bp' = Z.max 5 ((maxCap used_pool * 99) `div` 100)
      ∧ Pool bp' = (Pool_Get (Pool used_pool) (Some 0%nat)).2.
Proof.
  split.
  - apply (getBucket_high_water_mark used_pool (Some 0%nat) (-1)). lia.
  - apply (getBucket_high_water_mark used_pool (Some 0%nat) 5); simpl; lia.
Defined.

Lemma scan_length fuel sb size l : ∀ st st',
  for_each (add_sample fuel sb size) st l = Ok st' → length st' = length st.
Proof.
  induction l as [|s l IH]; intros st st' H; simpl in H; [by simplify_eq|].
  inv_bind H. apply IH in H. rewrite H. unfold add_sample in Ht.
  case_bool_decide; [|by simplify_eq].
  apply probe_Ok in Ht as (? & ? & _ & _ & ->). apply length_write.
Qed.

Lemma quantizeSlice_length q fuel st pal cap_pal colors st' pal' :
  within st colors →
  quantizeSlice q fuel st pal cap_pal colors = Ok (st', pal') →
  length st' = length st.
Proof.
  intros Hin H. apply quantizeSlice_Ok in H as (buckets & pal1 & Hb & _ & _).
  destruct (decide (target q pal cap_pal = 0)) as [Hz|Hz].
  - unfold bucketize in Hb. rewrite Hz in Hb.
    rewrite (bool_decide_true (0 = 0)) in Hb by done.
    rewrite orb_true_r in Hb. by simplify_eq.
  - by apply bucketize_spec in Hb as (_ & ? & _).
Qed.

(** The list [buildBucketMultiple] returns starts the buffer [getBucket]
    gave, which is at least as long as the table. *)
Lemma buildBucketMultiple_buffer conv q fuel bp pick first rest bp' st bucket :
  buildBucketMultiple conv q fuel bp pick (first :: rest) = Ok (bp', st, bucket) →
  off bucket = 0%nat ∧ within st bucket
  ∧ table_size (first :: rest) ≤ Z.of_nat (length st)
  ∧ 0 ≤ table_size (first :: rest).
Proof.
  intros H. unfold buildBucketMultiple in H.
  remember (first :: rest) as ms eqn:Ems.
  inv_bind H. destruct t as [[bp1 st0] sb]. inv_bind H. rename t into st1.
  destruct (compact conv (image.is_YCbCr first) st1 sb) as [st2 b] eqn:Ec.
  simplify_eq.
  apply getBucket_Ok in Ht as (Hsize & -> & Hzero).
  pose proof (within_zeroed _ _ _ Hzero) as Hin.
  rewrite scan_flat in Ht0. apply scan_length in Ht0.
  apply compact_spec in Ec as (Hlen2 & Hin2 & Hoff & _); [|by eapply within_length].
  unfold within in Hin. simpl in *. split_and!; [done|done|lia|done].
Qed.

(** X24. When [QuantizeMultiple] returns, the buffer of the table is back in
    the pool with its whole capacity, which is at least the size of the
    table: a next call for a table that is not larger, if the pool hands
    that buffer out, reuses it and allocates nothing. *)
Theorem released_buffer_serves_next_call conv q fuel bp pick pal cap_pal first rest bp' pal' :
  QuantizeMultiple conv q fuel bp pick pal cap_pal (first :: rest) = Ok (bp', pal') →
  ∃ buf others,
    Pool bp' = buf :: others
    ∧ table_size (first :: rest) ≤ Z.of_nat (length buf)
    ∧ ∀ c, 0 ≤ c ≤ table_size (first :: rest) →
        ∃ bp'' st,
          getBucket bp' (Some 0%nat) c = Ok (bp'', st, mkBucket 0 (Z.to_nat c))
          ∧ length st = length buf ∧ Pool bp'' = others.
Proof.
  intros H. unfold QuantizeMultiple in H.
  inv_bind H. destruct t as [[bp1 st] bucket]. inv_bind H. destruct t as [st' pal1].
  injection H as <- <-.
  apply buildBucketMultiple_buffer in Ht as (Hoff & Hin & Hsize & Hpos).
  apply quantizeSlice_length in Ht0; [|done].
  exists st', (Pool bp1). unfold Pool_Put. rewrite Hoff, drop_0. simpl.
  split_and!; [done|lia|].
  intros c Hc.
  unfold getBucket. simpl.
  rewrite (bool_decide_false (Z.of_nat (length st') < c)) by lia.
  rewrite (bool_decide_true (0 ≤ c)) by lia.
  eexists _, _. split; [done|].
  rewrite clear_prefix by lia.
  rewrite length_app, length_replicate, length_drop. split; [lia|done].
Qed.

Lemma released_buffer_serves_next_call_witness :
  match QuantizeMultiple unused_conversion uniform 30 empty_pool None [] 256 [two_rows] with
  | Ok (bp', _) =>
      ∃ buf others,
        Pool bp' = buf :: others
        ∧ table_size [two_rows] ≤ Z.of_nat (length buf)
        ∧ ∀ c, 0 ≤ c ≤ table_size [two_rows] →
            ∃ bp'' st,
              getBucket bp' (Some 0%nat) c = Ok (bp'', st, mkBucket 0 (Z.to_nat c))
              ∧ length st = length buf ∧ Pool bp'' = others
  | _ => False
  end.
Proof.
  destruct (QuantizeMultiple unused_conversion uniform 30 empty_pool None [] 256 [two_rows])
    as [[bp' pal']| |] eqn:E.
  - apply (released_buffer_serves_next_call unused_conversion uniform 30 empty_pool None [] 256
             two_rows [] bp' pal' E).
  - vm_compute in E. discriminate E.
  - vm_compute in E. discriminate E.
Defined.

Lemma related_bind {T U} (rel : T → T → Prop) (rel' : U → U → Prop)
    (r1 r2 : result T) (f1 f2 : T → result U) :
  related rel r1 r2 →
  (∀ a b, rel a b → related rel' (f1 a) (f2 b)) →
  related rel' (r1 ≫= f1) (r2 ≫= f2).
Proof. destruct r1, r2; simpl; try done. auto. Qed.

Lemma related_eq_inv {T} (r1 r2 : result T) : related eq r1 r2 → r1 = r2.
Proof. destruct r1, r2; simpl; try done. by intros ->. Qed.

Lemma agree_lookup n st1 st2 i :
  agree n st1 st2 → (i < n)%nat → st1 !! i = st2 !! i.
Proof.
  intros (_ & _ & H) Hi.
  rewrite <- (lookup_take_lt st1 n i), <- (lookup_take_lt st2 n i) by done.
  by rewrite H.
Qed.

Lemma agree_insert n st1 st2 i x :
  agree n st1 st2 → agree n (<[i:=x]> st1) (<[i:=x]> st2).
Proof.
  intros (H1 & H2 & H). split_and!; [by rewrite length_insert..|].
  destruct (decide (i < n)%nat).
  - rewrite !take_insert_lt by done. by rewrite H.
  - rewrite !take_insert_ge by lia. done.
Qed.

Lemma agree_write n st1 st2 cb i x :
  agree n st1 st2 → agree n (write st1 cb i x) (write st2 cb i x).
Proof. apply agree_insert. Qed.

Lemma agree_read n st1 st2 cb i :
  agree n st1 st2 → fits n cb → read st1 cb i = read st2 cb i.
Proof.
  intros H Hcb. unfold read, fits in *. case_bool_decide; [|done].
  by rewrite (agree_lookup n st1 st2) by (done || lia).
Qed.

Lemma agree_contents n st1 st2 cb :
  agree n st1 st2 → fits n cb → contents st1 cb = contents st2 cb.
Proof.
  intros (_ & _ & H) Hcb. unfold contents, fits in *.
  rewrite !take_drop_commute.
  replace (off cb + len cb)%nat with ((off cb + len cb) `min` n)%nat by lia.
  rewrite <- !take_take. by rewrite H.
Qed.

Lemma agree_refl n st : (n ≤ length st)%nat → agree n st st.
Proof. by intros; split_and!. Qed.

(** The scan and the compaction. *)
Lemma probe_agree n sb size c w fuel : ∀ st1 st2 index i,
  agree n st1 st2 → fits n sb →
  related (agree n) (probe fuel st1 sb size c w index i)
                    (probe fuel st2 sb size c w index i).
Proof.
  induction fuel as [|fuel IH]; intros st1 st2 index i H Hsb; simpl; [done|].
  case_bool_decide; [done|].
  rewrite (agree_read n st1 st2) by done.
  destruct (read st2 sb (index `rem` size)) as [slot| |]; simpl; try done.
  destruct (_ || _); [by apply agree_write|by apply IH].
Qed.

Lemma for_each_related {S X} (rel : S → S → Prop) (body : S → X → result S) l :
  (∀ s1 s2 x, rel s1 s2 → related rel (body s1 x) (body s2 x)) →
  ∀ s1 s2, rel s1 s2 → related rel (for_each body s1 l) (for_each body s2 l).
Proof.
  intros Hbody. induction l as [|x l IH]; intros s1 s2 H; simpl; [done|].
  apply (related_bind rel); auto.
Qed.

Lemma scan_agree n sb size fuel l st1 st2 :
  agree n st1 st2 → fits n sb →
  related (agree n) (for_each (add_sample fuel sb size) st1 l)
                    (for_each (add_sample fuel sb size) st2 l).
Proof.
  intros H Hsb. apply for_each_related; [|done].
  intros s1 s2 x Hs. unfold add_sample. case_bool_decide; [|done].
  by apply probe_agree.
Qed.

Lemma compact_agree conv ycbcr n sb st1 st2 :
  agree n st1 st2 → fits n sb →
  agree n (compact conv ycbcr st1 sb).1 (compact conv ycbcr st2 sb).1
  ∧ (compact conv ycbcr st1 sb).2 = (compact conv ycbcr st2 sb).2.
Proof.
  intros H Hsb. unfold compact.
  assert (∀ l a1 a2, Forall (λ i, i < len sb)%nat l →
            agree n a1.1 a2.1 → a1.2 = a2.2 →
            agree n (foldl (compact_step conv ycbcr sb) a1 l).1
                    (foldl (compact_step conv ycbcr sb) a2 l).1
            ∧ (foldl (compact_step conv ycbcr sb) a1 l).2
              = (foldl (compact_step conv ycbcr sb) a2 l).2) as Hloop.
  { induction l as [|i l IH]; intros [s1 k1] [s2 k2] Hl Ha Hk; simpl in *; [done|].
    apply Forall_cons in Hl as [Hi Hl]. subst k2.
    apply IH; [done|..]; unfold fits in Hsb;
      rewrite (agree_lookup n s1 s2) by (done || lia);
      destruct (s2 !! (off sb + i)%nat) as [c|]; simpl; try done;
      case_bool_decide; simpl; try done.
    by apply agree_insert. }
  destruct (Hloop (seq 0 (len sb)) (st1, 0%nat) (st2, 0%nat)) as [Ha Hk]; [|done|done|].
  { apply Forall_forall. intros i Hi. apply elem_of_seq in Hi. lia. }
  destruct (foldl _ (st1, 0%nat) _) as [s1 k1], (foldl _ (st2, 0%nat) _) as [s2 k2].
  simpl in *. by subst.
Qed.

(** [partition] and [bucketize]. *)
Lemma scan_left_agree n cb m ax fuel : ∀ st1 st2 left,
  agree n st1 st2 → fits n cb →
  scan_left fuel st1 cb m ax left = scan_left fuel st2 cb m ax left.
Proof.
  induction fuel as [|fuel IH]; intros st1 st2 left H Hcb; simpl; [done|].
  rewrite (agree_read n st1 st2) by done.
  destruct (read st2 cb left) as [c| |]; simpl; try done.
  destruct (gt _ _ _); [by apply IH|done].
Qed.

Lemma scan_right_agree n cb m ax fuel : ∀ st1 st2 right,
  agree n st1 st2 → fits n cb →
  scan_right fuel st1 cb m ax right = scan_right fuel st2 cb m ax right.
Proof.
  induction fuel as [|fuel IH]; intros st1 st2 right H Hcb; simpl; [done|].
  rewrite (agree_read n st1 st2) by done.
  destruct (read st2 cb right) as [c| |]; simpl; try done.
  destruct (gt _ _ _); [done|by apply IH].
Qed.

Lemma swap_agree n cb st1 st2 left right :
  agree n st1 st2 → fits n cb →
  related (agree n) (swap st1 cb left right) (swap st2 cb left right).
Proof.
  intros H Hcb. unfold swap. rewrite !(agree_read n st1 st2) by done.
  destruct (read st2 cb left); simpl; try done.
  destruct (read st2 cb right); simpl; try done.
  by do 2 apply agree_write.
Qed.

Lemma partition_loop_agree n cb m ax fuel : ∀ st1 st2 left right,
  agree n st1 st2 → fits n cb →
  related (λ a b, agree n a.1 b.1 ∧ a.2 = b.2)
    (partition_loop fuel st1 cb m ax left right)
    (partition_loop fuel st2 cb m ax left right).
Proof.
  induction fuel as [|fuel IH]; intros st1 st2 left right H Hcb; simpl.
  - by case_bool_decide.
  - case_bool_decide; [|done].
    rewrite (scan_left_agree n cb m ax fuel st1 st2) by done.
    destruct (scan_left fuel st2 cb m ax left) as [left'| |]; simpl; try done.
    rewrite (scan_right_agree n cb m ax fuel st1 st2) by done.
    destruct (scan_right fuel st2 cb m ax right) as [right'| |]; simpl; try done.
    apply (related_bind (agree n)); [by apply swap_agree|].
    intros a b Hab. by apply IH.
Qed.

Lemma reslice_fits n cb lo hi b : fits n cb → reslice cb lo hi = Ok b → fits n b.
Proof.
  unfold reslice, fits. intros Hcb H. case_bool_decide; simplify_eq. simpl. lia.
Qed.

Lemma partition_agree n cb fuel st1 st2 :
  agree n st1 st2 → fits n cb →
  related (λ a b, agree n a.1.1 b.1.1 ∧ a.1.2 = b.1.2 ∧ a.2 = b.2
                  ∧ fits n a.1.2 ∧ fits n a.2)
    (partition fuel st1 cb) (partition fuel st2 cb).
Proof.
  intros H Hcb. unfold partition, span.
  rewrite (agree_contents n st1 st2) by done.
  destruct (span_of (contents st2 cb)) as [m ax].
  eapply related_bind; [by apply (partition_loop_agree n)|].
  intros [s1 k1] [s2 k2] [Hs Hk]. simpl in *. subst k2.
  destruct (reslice cb 0 k1) as [l| |] eqn:El; simpl; try done.
  destruct (reslice cb k1 (Z.of_nat (len cb))) as [r| |] eqn:Er; simpl; try done.
  split_and!; try done; by eapply reslice_fits.
Qed.

Lemma cut_fits n cb k : fits n cb → (k ≤ len cb)%nat → fits n (cut cb k).1 ∧ fits n (cut cb k).2.
Proof. unfold fits, cut. simpl. lia. Qed.

Lemma bucketize_loop_agree n num m fuel : ∀ st1 st2 q,
  agree n st1 st2 → Forall (fits n) q →
  related (λ a b, agree n a.1 b.1 ∧ a.2 = b.2 ∧ Forall (fits n) a.2)
    (bucketize_loop fuel st1 q num m) (bucketize_loop fuel st2 q num m).
Proof.
  induction fuel as [|fuel IH]; intros st1 st2 q H Hq; simpl.
  - by destruct (_ && _).
  - destruct (_ && _); [|done].
    destruct q as [|bucket rest]; [done|].
    apply Forall_cons in Hq as [Hb Hrest].
    case_bool_decide.
    { apply IH; [done|]. apply Forall_app. by repeat constructor. }
    case_bool_decide.
    { apply IH; [done|]. destruct (cut_fits n bucket 1 Hb ltac:(lia)).
      apply Forall_app. by repeat constructor. }
    eapply related_bind; [by apply (partition_agree n)|].
    intros [[s1 l1] r1] [[s2 l2] r2] (Hs & Hl & Hr & Hfl & Hfr). simpl in *. subst.
    apply IH; [done|]. apply Forall_app. by repeat constructor.
Qed.

Lemma bucketize_agree n num fuel st1 st2 colors :
  agree n st1 st2 → fits n colors →
  related (λ a b, agree n a.1 b.1 ∧ a.2 = b.2 ∧ Forall (fits n) a.2)
    (bucketize fuel st1 colors num) (bucketize fuel st2 colors num).
Proof.
  intros H Hc. unfold bucketize.
  destruct (_ || _); [by simpl|].
  destruct (makeslice _ _ _); simpl; [|done].
  apply bucketize_loop_agree; [done|by repeat constructor].
Qed.

Lemma palettize_agree n agg st1 st2 buckets : ∀ pal,
  agree n st1 st2 → Forall (fits n) buckets →
  palettize agg st1 pal buckets = palettize agg st2 pal buckets.
Proof.
  induction buckets as [|b buckets IH]; intros pal H Hb; simpl; [done|].
  apply Forall_cons in Hb as [Hb Hrest].
  unfold palettize_bucket, mean. rewrite (agree_contents n st1 st2) by done.
  destruct (if bool_decide (agg = Mean) then _ else _); simpl; try done.
  by apply IH.
Qed.

Lemma quantizeSlice_agree n q fuel st1 st2 pal cap_pal colors :
  agree n st1 st2 → fits n colors →
  related (λ a b, a.2 = b.2)
    (quantizeSlice q fuel st1 pal cap_pal colors)
    (quantizeSlice q fuel st2 pal cap_pal colors).
Proof.
  intros H Hc. unfold quantizeSlice.
  eapply related_bind; [by apply (bucketize_agree n)|].
  intros [s1 b1] [s2 b2] (Hs & Hb & Hf). simpl in *. subst b2.
  rewrite (palettize_agree n _ s1 s2) by done.
  destruct (palettize _ s2 pal b1); simpl; done.
Qed.

Lemma Pool_Get_Forall (P : store → Prop) items pick :
  Forall P items →
  Forall P (Pool_Get items pick).2
  ∧ ∀ buf, (Pool_Get items pick).1 = Some buf → P buf.
Proof.
  intros H. unfold Pool_Get. destruct pick as [k|]; [|by split].
  destruct (items !! k) as [buf|] eqn:E; simpl; [|by split].
  split; [by apply Forall_delete|].
  intros ? [= <-]. rewrite Forall_forall in H. apply H. by eapply list_elem_of_lookup_2.
Qed.

(** Beyond [maxAlloc] no buffer is had: none of the pool is large enough,
    and [make] panics. *)
Lemma getBucket_too_large bp pick c :
  Forall (λ buf, 8 * Z.of_nat (length buf) ≤ maxAlloc) (Pool bp) →
  maxAlloc < 8 * c → getBucket bp pick c = Panic.
Proof.
  intros Hpool Hc. unfold getBucket.
  destruct (Pool_Get_Forall _ (Pool bp) pick Hpool) as [_ Hbuf].
  set (m1 := if bool_decide (maxCap bp > c) then _ else _).
  assert (make_bucket (if bool_decide (m1 < c) then c else m1) c = Panic) as Hmake.
  { unfold make_bucket, makeslice, sizeof_colorPriority.
    rewrite (bool_decide_false (8 * _ ≤ maxAlloc)) by (case_bool_decide; lia).
    by rewrite andb_false_r. }
  destruct (Pool_Get (Pool bp) pick) as [[buf|] rest]; simpl in *.
  - specialize (Hbuf buf eq_refl).
    rewrite (bool_decide_true (Z.of_nat (length buf) < c)) by lia.
    by rewrite Hmake.
  - by rewrite Hmake.
Qed.

(** What [getBucket] returns does not depend on the pool, as far as the
    slice shows. *)
Lemma getBucket_agree bp1 pick1 bp2 pick2 c :
  sane_pool bp1 → sane_pool bp2 →
  related (λ a b, a.2 = b.2 ∧ a.2 = mkBucket 0 (Z.to_nat c)
                  ∧ agree (Z.to_nat c) a.1.2 b.1.2)
    (getBucket bp1 pick1 c) (getBucket bp2 pick2 c).
Proof.
  intros [Hm1 Hp1] [Hm2 Hp2].
  destruct (decide (c < 0)) as [Hneg|Hc].
  { by rewrite !getBucket_negative by done. }
  destruct (decide (8 * c ≤ maxAlloc)) as [Hsmall|Hlarge].
  - destruct (getBucket_spec bp1 pick1 c ltac:(lia) Hsmall Hm1) as (bp1' & st1 & -> & Hz1).
    destruct (getBucket_spec bp2 pick2 c ltac:(lia) Hsmall Hm2) as (bp2' & st2 & -> & Hz2).
    simpl. split_and!; [done..|].
    pose proof (within_zeroed _ _ _ Hz1) as Hin1.
    pose proof (within_zeroed _ _ _ Hz2) as Hin2.
    unfold within in *. simpl in *.
    rewrite contents_from_start in Hz1, Hz2.
    split_and!; [lia..|congruence].
  - by rewrite !getBucket_too_large by (done || lia).
Qed.

(** A call of [getBucket] that returns leaves the pool with a mark and
    buffers of sizes [make] accepts, and so is the buffer it hands out. *)
Lemma getBucket_sane bp pick c bp' st slice :
  sane_pool bp → getBucket bp pick c = Ok (bp', st, slice) →
  sane_pool bp' ∧ 8 * Z.of_nat (length st) ≤ maxAlloc.
Proof.
  intros [Hm Hp] H. unfold getBucket in H.
  destruct (Pool_Get_Forall _ (Pool bp) pick Hp) as [Hrest Hbuf].
  set (m1 := if bool_decide (maxCap bp > c) then _ else _) in *.
  set (m2 := if bool_decide (m1 < c) then c else m1) in *.
  destruct (Pool_Get (Pool bp) pick) as [[buf|] rest]; simpl in *.
  - specialize (Hbuf buf eq_refl). simpl in Hbuf.
    case_bool_decide as Hcap.
    + inv_bind H. destruct t as [st1 sl]. simplify_eq.
      apply make_bucket_inv in Ht as (? & ? & -> & ->).
      split; [by split|]. rewrite length_replicate. lia.
    + case_bool_decide as Hc; simplify_eq.
      destruct (mark_bound (maxCap bp) c Hc) as [_ Hm2];
        [unfold sizeof_colorPriority in *; lia|done|].
      split; [by split|].
      rewrite clear_prefix by lia.
      rewrite length_app, length_replicate, length_drop.
      unfold sizeof_colorPriority in *. lia.
  - inv_bind H. destruct t as [st1 sl]. simplify_eq.
    apply make_bucket_inv in Ht as (? & ? & -> & ->).
    split; [by split|]. rewrite length_replicate. lia.
Qed.

Lemma buildBucketMultiple_sane conv q fuel bp pick ms bp' st bucket :
  sane_pool bp →
  buildBucketMultiple conv q fuel bp pick ms = Ok (bp', st, bucket) →
  sane_pool bp' ∧ 8 * Z.of_nat (length st) ≤ maxAlloc ∧ within st bucket.
Proof.
  intros Hbp H. unfold buildBucketMultiple in H.
  destruct ms as [|first rest].
  { simplify_eq. split_and!; [done|simpl; unfold maxAlloc; lia|unfold within; simpl; lia]. }
  remember (first :: rest) as ms eqn:Ems.
  inv_bind H. destruct t as [[bp1 st0] sb]. inv_bind H. rename t into st1.
  destruct (compact conv (image.is_YCbCr first) st1 sb) as [st2 b] eqn:Ec.
  simplify_eq.
  destruct (getBucket_sane _ _ _ _ _ _ Hbp Ht) as [Hbp' Hlen].
  apply getBucket_Ok in Ht as (Hsize & -> & Hzero).
  pose proof (within_zeroed _ _ _ Hzero) as Hin.
  rewrite scan_flat in Ht0. apply scan_length in Ht0.
  apply compact_spec in Ec as (Hlen2 & Hin2 & _ & _); [|by eapply within_length].
  split_and!; [done|lia|done].
Qed.

(** A call of [QuantizeMultiple] that returns leaves the pool with a mark
    and buffers of sizes [make] accepts. *)
Lemma QuantizeMultiple_sane conv q fuel bp pick pal cap_pal ms bp' pal' :
  sane_pool bp →
  QuantizeMultiple conv q fuel bp pick pal cap_pal ms = Ok (bp', pal') →
  sane_pool bp'.
Proof.
  intros Hbp H. unfold QuantizeMultiple in H.
  inv_bind H. destruct t as [[bp1 st] bucket]. inv_bind H. destruct t as [st' pal1].
  injection H as <- <-.
  apply buildBucketMultiple_sane in Ht as ([Hm Hp] & Hlen & Hin); [|done].
  apply quantizeSlice_length in Ht0; [|done].
  split; [done|]. simpl. constructor; [|done].
  rewrite length_drop. unfold sizeof_colorPriority. lia.
Qed.

Lemma buildBucketMultiple_agree conv q fuel bp1 pick1 bp2 pick2 ms :
  sane_pool bp1 → sane_pool bp2 →
  related (λ a b, a.2 = b.2 ∧ ∃ n, agree n a.1.2 b.1.2 ∧ fits n a.2)
    (buildBucketMultiple conv q fuel bp1 pick1 ms)
    (buildBucketMultiple conv q fuel bp2 pick2 ms).
Proof.
  intros Hbp1 Hbp2.
  unfold buildBucketMultiple. destruct ms as [|first rest].
  { simpl. split; [done|]. exists 0%nat.
    split; [apply agree_refl; simpl; lia|unfold fits; simpl; lia]. }
  remember (first :: rest) as ms eqn:Ems.
  eapply related_bind; [by apply getBucket_agree|].
  intros [[b1 s1] sb1] [[b2 s2] sb2] (Hsb & Hsb' & Hs). simpl in *. subst sb2 sb1.
  set (sb := mkBucket 0 (Z.to_nat (table_size ms))).
  assert (fits (Z.to_nat (table_size ms)) sb) as Hfit by (unfold fits; simpl; lia).
  rewrite !scan_flat.
  eapply related_bind; [by apply (scan_agree (Z.to_nat (table_size ms)))|].
  intros t1 t2 Ht.
  destruct (compact_agree conv (image.is_YCbCr first) _ sb t1 t2 Ht Hfit) as [Ha Hk].
  destruct (compact conv (image.is_YCbCr first) t1 sb) as [u1 k1] eqn:E1.
  destruct (compact conv (image.is_YCbCr first) t2 sb) as [u2 k2] eqn:E2.
  simpl in *. subst k2. split; [done|].
  exists (Z.to_nat (table_size ms)). split; [done|].
  assert (within t1 sb) as Hin1.
  { destruct Ht as (? & _). unfold within. simpl. lia. }
  apply compact_spec in E1 as (_ & Hin & Hoff & Hcont); [|done].
  apply (f_equal length) in Hcont.
  rewrite length_fmap, length_contents in Hcont by done.
  pose proof (length_filter (λ c, p c ≠ 0) (contents t1 sb)) as Hle.
  rewrite length_contents in Hle by done.
  unfold fits. rewrite Hoff. simpl in *. lia.
Qed.

Lemma QuantizeMultiple_agree conv q fuel bp1 pick1 bp2 pick2 pal cap_pal ms :
  sane_pool bp1 → sane_pool bp2 →
  palette_of (QuantizeMultiple conv q fuel bp1 pick1 pal cap_pal ms)
  = palette_of (QuantizeMultiple conv q fuel bp2 pick2 pal cap_pal ms).
Proof.
  intros Hbp1 Hbp2.
  apply related_eq_inv. unfold palette_of.
  apply (related_bind (λ a b : bucketPool * list color.Color, a.2 = b.2)).
  - unfold QuantizeMultiple.
    eapply related_bind; [by apply buildBucketMultiple_agree|].
    intros [[b1 s1] c1] [[b2 s2] c2] (Hc & n & Hs & Hf). simpl in *. subst c2.
    eapply related_bind; [by apply (quantizeSlice_agree n)|].
    intros [s1' p1] [s2' p2] Hp. simpl in *. done.
  - intros [b1 p1] [b2 p2] Hp. simpl in *. by subst.
Qed.

(** X25. The outcome of [Quantize] and [QuantizeMultiple] (the palette, a
    panic, or the fuel running out) does not depend on the state of the pool
    nor on the buffer the pool hands out, for pools whose high-water mark
    and released buffers are of sizes [make] accepts (8 bytes an entry, at
    most [maxAlloc] bytes): a recycled buffer leaves no trace in the result.
    Such is the pool at the start, and every call that returns leaves it
    so.  A pool whose mark a panicking call has raised beyond [maxAlloc] is
    not covered: there [make] panics where a new pool gives a palette. *)
Theorem palette_independent_of_pool conv q fuel bp1 pick1 bp2 pick2 pal cap_pal :
  sane_pool bp1 → sane_pool bp2 →
  (∀ ms, palette_of (QuantizeMultiple conv q fuel bp1 pick1 pal cap_pal ms)
         = palette_of (QuantizeMultiple conv q fuel bp2 pick2 pal cap_pal ms))
  ∧ (∀ m, palette_of (Quantize conv q fuel bp1 pick1 pal cap_pal m)
          = palette_of (Quantize conv q fuel bp2 pick2 pal cap_pal m))
  ∧ sane_pool empty_pool
  ∧ (∀ ms bp' pal',
       QuantizeMultiple conv q fuel bp1 pick1 pal cap_pal ms = Ok (bp', pal') →
       sane_pool bp')
  ∧ (∀ m bp' pal',
       Quantize conv q fuel bp1 pick1 pal cap_pal m = Ok (bp', pal') →
       sane_pool bp').
Proof.
  intros Hbp1 Hbp2. split_and!.
  - intros ms. by apply QuantizeMultiple_agree.
  - intros m. by apply QuantizeMultiple_agree.
  - split; [by vm_compute|constructor].
  - intros ms bp' pal' H. exact (QuantizeMultiple_sane _ _ _ _ _ _ _ _ _ _ Hbp1 H).
  - intros m bp' pal' H. exact (QuantizeMultiple_sane _ _ _ _ _ _ _ [m] _ _ Hbp1 H).
Qed.

Lemma used_pool_sane : sane_pool used_pool.
Proof.
  split; [by vm_compute|]. repeat constructor. by vm_compute.
Qed.

Lemma palette_independent_of_pool_witness :
  palette_of (QuantizeMultiple unused_conversion uniform 30 empty_pool None [] 256 [two_rows])
  = palette_of (QuantizeMultiple unused_conversion uniform 30 used_pool (Some 0%nat)
                  [] 256 [two_rows]).
Proof.
  apply (palette_independent_of_pool unused_conversion uniform 30 empty_pool None
           used_pool (Some 0%nat) [] 256).
  - split; [by vm_compute|constructor].
  - exact used_pool_sane.
Defined.
